(** * Mininet / Containernet: the network object of [mininet/net.py]

    A shallow embedding of the [Mininet] class: address allocation
    ([getNextIp], [addHost]), the name registry ([nameToNode] and the
    role sequences), random MAC generation ([randMac]), link removal,
    the start and stop sequences and the readiness wait
    ([waitConnected]); node lookup, links ([addLink]), building from a
    topology ([buildFromTopo], [build]), static ARP, [ping],
    [configLinkStatus], the address loop of the control network, and
    [removeHost] of [Containernet].

    Python objects (nodes, links) are compared by identity; the model
    gives every object the number of its allocation, so that structural
    equality of the records below is identity of the objects.  Calls into
    collaborators ([Node], [Link], the switch classes) are recorded, in
    order, as a list of events. *)

From stdpp Require Import gmap strings list pretty sorting.
From Stdlib Require Import ZArith QArith Lia Lqa Ascii Floats.

Set Warnings "-clear-no-such-hyp".
(* A decimal float literal denotes the nearest binary64 value, as it
   does in Python. *)
Set Warnings "-inexact-float".

Local Open Scope Z_scope.

(** ** Values, nodes and links *)

(** Values found in the keyword dictionaries handed to constructors. *)
Inductive PyVal :=
  | VNone
  | VBool (b : bool)
  | VInt (z : Z)
  | VStr (s : string).

#[global] Instance PyVal_eq_dec : EqDecision PyVal.
Proof. solve_decision. Defined.

(** Classes and constructors are named by a number; the order of these
    numbers is the order the interpreter puts on class objects, which
    [sorted( ..., key=type )] relies on. *)
Abbreviation ClassId := nat.

Record Node := mkNode {
  nodeId : nat;                       (* identity of the object *)
  nodeClass : ClassId;                (* type( node ) *)
  nodeName : string;                  (* node.name *)
  nodeParams : gmap string PyVal      (* keyword arguments it was built with *)
}.

#[global] Instance Node_eq_dec : EqDecision Node.
Proof. solve_decision. Defined.

Record Intf := mkIntf {
  intfName : string;
  node : Node                         (* intf.node *)
}.

#[global] Instance Intf_eq_dec : EqDecision Intf.
Proof. solve_decision. Defined.

Record Link := mkLink {
  linkId : nat;                       (* identity of the object *)
  intf1 : Intf;
  intf2 : Intf
}.

#[global] Instance Link_eq_dec : EqDecision Link.
Proof. solve_decision. Defined.

(** An argument that may be [None], a name or a node object. *)
Inductive PyArg :=
  | PNone
  | PStr (s : string)
  | PNode (n : Node).

(** [list.remove( x )]: drops the first element equal to [x].  (Python
    raises [ValueError] when there is none; every caller below removes
    an element it has just found in the list.) *)
Fixpoint list_remove `{EqDecision A} (x : A) (l : list A) : list A :=
  match l with
  | [] => []
  | y :: l' => if decide (x = y) then l' else y :: list_remove x l'
  end.

(** ** Helpers of [mininet.util] *)

(** Modelled from the spec: [ipStr] and [ipAdd] of [mininet.util], which
    is not part of the sources at hand.  The allocator "returns the next
    unused address in the configured base range" and has "no error
    conditions"; addresses are written as dotted quads with the prefix
    length appended ([10.0.0.1/8]).  [ipNum] is the 32-bit number of the
    address: the network part of the base plus the counter. *)
Definition ipStr (ip : Z) : string :=
  pretty (Z.land (Z.shiftr ip 24) 255) +:+ "." +:+
  pretty (Z.land (Z.shiftr ip 16) 255) +:+ "." +:+
  pretty (Z.land (Z.shiftr ip 8) 255) +:+ "." +:+
  pretty (Z.land ip 255).

Definition hostMax (prefixLen : Z) : Z := Z.shiftr 0xffffffff prefixLen.

Definition ipNum (i ipBaseNum prefixLen : Z) : Z :=
  Z.land ipBaseNum (Z.lxor 0xffffffff (hostMax prefixLen)) + i.

Definition ipAdd (i ipBaseNum prefixLen : Z) : string :=
  ipStr (ipNum i ipBaseNum prefixLen).

(** ['/%s' % prefixLen] appended to an address. *)
Definition withPrefix (ip : string) (prefixLen : Z) : string :=
  ip +:+ "/" +:+ pretty prefixLen.

(** ** [randMac] *)

(** The number [randMac] hands to [macColonHex] for the draw [r] of
    [random.randint(1, 2**48 - 1)]; in Python [&] binds tighter than [|].
    [macColonHex] prints the six octets of that number, the most
    significant first. *)
Definition randMacBits (r : Z) : Z :=
  Z.lor (Z.land r 0xfeffffffffff) 0x020000000000.

(** The first octet of a 48-bit MAC number: the one [macColonHex] prints
    first. *)
Definition firstOctet (mac : Z) : Z := Z.land (Z.shiftr mac 40) 255.

(** ** Events: calls into collaborators and reports *)

Inductive Event :=
  | ControllerStart (c : Node)        (* controller.start() *)
  | SwitchStart (s : Node) (ctrls : list Node)
                                      (* switch.start( self.controllers ) *)
  | BatchStartup (cls : ClassId) (sws : list Node)
                                      (* swclass.batchStartup( switches ) *)
  | CallWaitConnected                 (* self.waitConnected() *)
  | ControllerStop (c : Node)         (* controller.stop() *)
  | Kill (pid : Z)                    (* os.kill( term.pid, SIGKILL ) *)
  | CleanUpScreens                    (* cleanUpScreens() *)
  | LinkStop (l : Link)               (* link.stop() *)
  | BatchShutdown (cls : ClassId) (sws : list Node)
                                      (* swclass.batchShutdown( switches ) *)
  | SwitchStop (s : Node)             (* switch.stop() *)
  | SwitchTerminate (s : Node)        (* switch.terminate() *)
  | HostTerminate (h : Node)          (* host.terminate() *)
  | NodeStop (h : Node) (deleteIntfs : bool)
                                      (* h.stop( deleteIntfs=True ) *)
  | LinkDelete (l : Link)             (* link.delete() *)
  | ReportError (msg : string).       (* error( msg ), less the newline *)

#[global] Instance Event_eq_dec : EqDecision Event.
Proof. solve_decision. Defined.

(** ** The network object *)

(** The constructor arguments, which no method changes. *)
Record Config := mkConfig {
  host : ClassId;
  switch : ClassId;
  controller : ClassId;
  ipBaseNum : Z;                      (* netParse( ipBase ), first part *)
  prefixLen : Z;                      (* netParse( ipBase ), second part *)
  inNamespace : bool;
  autoSetMacs : bool;
  autoPinCpus : bool;
  numCores : Z;                       (* numCores() *)
  waitConn : bool
}.

Record Mininet := mkMininet {
  cfg : Config;
  nextIP : Z;
  nextCore : Z;
  listenPort : option Z;
  hosts : list Node;
  switches : list Node;
  controllers : list Node;
  links : list Link;
  nameToNode : gmap string Node;
  terms : list Z;                     (* pids of the spawned terminals *)
  built : bool;
  (* number of node objects allocated so far: the next one's identity *)
  allocated : nat
}.

(** [Mininet.__init__] without a topology; [netParse( ipBase )] is part
    of the configuration. *)
Definition init (c : Config) (listenPort : option Z) : Mininet :=
  {| cfg := c; nextIP := 1; nextCore := 0; listenPort := listenPort;
     hosts := []; switches := []; controllers := []; links := [];
     nameToNode := ∅; terms := []; built := false; allocated := 0 |}.

(** Assignments to single attributes. *)
Definition set_nextIP (v : Z) (n : Mininet) : Mininet :=
  mkMininet (cfg n) v (nextCore n) (listenPort n) (hosts n) (switches n)
    (controllers n) (links n) (nameToNode n) (terms n) (built n) (allocated n).
Definition set_nextCore (v : Z) (n : Mininet) : Mininet :=
  mkMininet (cfg n) (nextIP n) v (listenPort n) (hosts n) (switches n)
    (controllers n) (links n) (nameToNode n) (terms n) (built n) (allocated n).
Definition set_listenPort (v : option Z) (n : Mininet) : Mininet :=
  mkMininet (cfg n) (nextIP n) (nextCore n) v (hosts n) (switches n)
    (controllers n) (links n) (nameToNode n) (terms n) (built n) (allocated n).
Definition set_hosts (v : list Node) (n : Mininet) : Mininet :=
  mkMininet (cfg n) (nextIP n) (nextCore n) (listenPort n) v (switches n)
    (controllers n) (links n) (nameToNode n) (terms n) (built n) (allocated n).
Definition set_switches (v : list Node) (n : Mininet) : Mininet :=
  mkMininet (cfg n) (nextIP n) (nextCore n) (listenPort n) (hosts n) v
    (controllers n) (links n) (nameToNode n) (terms n) (built n) (allocated n).
Definition set_controllers (v : list Node) (n : Mininet) : Mininet :=
  mkMininet (cfg n) (nextIP n) (nextCore n) (listenPort n) (hosts n)
    (switches n) v (links n) (nameToNode n) (terms n) (built n) (allocated n).
Definition set_links (v : list Link) (n : Mininet) : Mininet :=
  mkMininet (cfg n) (nextIP n) (nextCore n) (listenPort n) (hosts n)
    (switches n) (controllers n) v (nameToNode n) (terms n) (built n)
    (allocated n).
Definition set_nameToNode (v : gmap string Node) (n : Mininet) : Mininet :=
  mkMininet (cfg n) (nextIP n) (nextCore n) (listenPort n) (hosts n)
    (switches n) (controllers n) (links n) v (terms n) (built n) (allocated n).
Definition set_allocated (v : nat) (n : Mininet) : Mininet :=
  mkMininet (cfg n) (nextIP n) (nextCore n) (listenPort n) (hosts n)
    (switches n) (controllers n) (links n) (nameToNode n) (terms n) (built n) v.

Definition set_built (v : bool) (n : Mininet) : Mininet :=
  mkMininet (cfg n) (nextIP n) (nextCore n) (listenPort n) (hosts n)
    (switches n) (controllers n) (links n) (nameToNode n) (terms n) v
    (allocated n).

(** [netParse( '10.0.0.0/8' )]. *)
Definition ipBase_10_8 : Z * Z := (0x0a000000, 8).

(** ** Registering and removing nodes *)

(** Truth value of [self.listenPort]: neither [None] nor [0]. *)
Definition truthy (p : option Z) : bool :=
  match p with
  | None => false
  | Some z => negb (z =? 0)
  end.

Definition pyOpt (p : option Z) : PyVal :=
  match p with
  | None => VNone
  | Some z => VInt z
  end.

(** [cls( name, **params )]: a new object, whose identity is its
    allocation number. *)
Definition construct (cls : ClassId) (name : string)
    (params : gmap string PyVal) (n : Mininet) : Mininet * Node :=
  (set_allocated (S (allocated n)) n, mkNode (allocated n) cls name params).

(** [getNextIp]. *)
Definition getNextIp (net : Mininet) : Mininet * string :=
  let ip := withPrefix (ipAdd (nextIP net) (ipBaseNum (cfg net))
                              (prefixLen (cfg net)))
                       (prefixLen (cfg net)) in
  (set_nextIP (nextIP net + 1) net, ip).

(** [getNodeByName] with one argument, and its alias [get]:
    [self.nameToNode.get( name )], so [None] for an unknown name. *)
Definition get (net : Mininet) (name : PyArg) : option Node :=
  match name with
  | PStr s => nameToNode net !! s
  | _ => None
  end.

Section Registry.

(** [macColonHex] of [mininet.util]: the text of a MAC number. *)
Variable macColonHex : Z → string.

(** The dictionary [defaults] of [addHost], before [params] is merged
    into it, and the network after the counters have advanced. *)
Definition hostDefaults (net : Mininet) : Mininet * gmap string PyVal :=
  let defaults : gmap string PyVal :=
    {[ "ip" := VStr (withPrefix (ipAdd (nextIP net) (ipBaseNum (cfg net))
                                       (prefixLen (cfg net)))
                                (prefixLen (cfg net))) ]} in
  let defaults :=
    if autoSetMacs (cfg net)
    then <[ "mac" := VStr (macColonHex (nextIP net)) ]> defaults
    else defaults in
  let '(net, defaults) :=
    if autoPinCpus (cfg net)
    then (set_nextCore ((nextCore net + 1) `mod` numCores (cfg net)) net,
          <[ "cores" := VInt (nextCore net) ]> defaults)
    else (net, defaults) in
  (set_nextIP (nextIP net + 1) net, defaults).

(** [addHost( name, cls, **params )]; [defaults.update( params )] lets
    the caller's entries win. *)
Definition addHost (net : Mininet) (name : string) (cls : option ClassId)
    (params : gmap string PyVal) : Mininet * Node :=
  let '(net, defaults) := hostDefaults net in
  let defaults := params ∪ defaults in
  let cls := default (host (cfg net)) cls in
  let '(net, h) := construct cls name defaults net in
  let net := set_hosts (hosts net ++ [h]) net in
  let net := set_nameToNode (<[ name := h ]> (nameToNode net)) net in
  (net, h).

(** [removeHost( name )]: the result is the network, the calls made and
    the value returned. *)
Definition removeHost (net : Mininet) (name : PyArg)
    : Mininet * list Event * bool :=
  let name := match name with
              | PNode n => PStr (nodeName n)
              | _ => name
              end in
  match get net name with
  | Some h =>
      let net := if decide (h ∈ hosts net)
                 then set_hosts (list_remove h (hosts net)) net
                 else net in
      let net := match name with
                 | PStr s => set_nameToNode (delete s (nameToNode net)) net
                 | _ => net
                 end in
      (net, [NodeStop h true], true)
  | None => (net, [], false)
  end.

(** [addSwitch( name, cls, **params )]. *)
Definition addSwitch (net : Mininet) (name : string) (cls : option ClassId)
    (params : gmap string PyVal) : Mininet * Node :=
  let defaults : gmap string PyVal :=
    {[ "listenPort" := pyOpt (listenPort net);
       "inNamespace" := VBool (inNamespace (cfg net)) ]} in
  let defaults := params ∪ defaults in
  let cls := default (switch (cfg net)) cls in
  let '(net, sw) := construct cls name defaults net in
  let net := if negb (inNamespace (cfg net)) && truthy (listenPort net)
             then set_listenPort (Z.succ <$> listenPort net) net
             else net in
  let net := set_switches (switches net ++ [sw]) net in
  let net := set_nameToNode (<[ name := sw ]> (nameToNode net)) net in
  (net, sw).

(** [addController( name, controller, **params )]: [name] is a name or
    a controller object; constructors return an object, which is true,
    so the new controller is always registered. *)
Definition addController (net : Mininet) (name : string + Node)
    (controller' : option ClassId) (params : gmap string PyVal)
    : Mininet * Node :=
  let controller' := default (controller (cfg net)) controller' in
  let '(net, name, controller_new) :=
    match name with
    | inr c => (net, nodeName c, c)
    | inl s => let '(net, c) := construct controller' s params net in
               (net, s, c)
    end in
  let net := set_controllers (controllers net ++ [controller_new]) net in
  let net := set_nameToNode (<[ name := controller_new ]> (nameToNode net)) net in
  (net, controller_new).

End Registry.

(** ** Sequences of calls *)

Section Calls.

Variable macColonHex : Z → string.

(** A call [addHost( name, cls, **params )]. *)
Record HostCall := mkHostCall {
  callName : string;
  callCls : option ClassId;
  callParams : gmap string PyVal
}.

(** Successive [addHost] calls; each host is returned with the value
    [nextIP] had when its call began. *)
Fixpoint addHosts (net : Mininet) (calls : list HostCall)
    : Mininet * list (Z * Node) :=
  match calls with
  | [] => (net, [])
  | c :: calls' =>
      let '(net1, h) :=
        addHost macColonHex net (callName c) (callCls c) (callParams c) in
      let '(net2, hs) := addHosts net1 calls' in
      (net2, (nextIP net, h) :: hs)
  end.

(** The ['ip'] a host was built with. *)
Definition hostIP (h : Node) : option PyVal := nodeParams h !! "ip".

(** The operations on the registry and the allocator that a caller can
    interleave. *)
Inductive Op :=
  | OpAddHost (c : HostCall)
  | OpRemoveHost (name : PyArg)
  | OpAddSwitch (name : string) (cls : option ClassId)
                (params : gmap string PyVal)
  | OpAddController (name : string + Node) (cls : option ClassId)
                    (params : gmap string PyVal)
  | OpGetNextIp.

Definition step (net : Mininet) (op : Op) : Mininet :=
  match op with
  | OpAddHost c =>
      (addHost macColonHex net (callName c) (callCls c) (callParams c)).1
  | OpRemoveHost name => (removeHost net name).1.1
  | OpAddSwitch name cls params => (addSwitch net name cls params).1
  | OpAddController name cls params => (addController net name cls params).1
  | OpGetNextIp => (getNextIp net).1
  end.

Definition run (net : Mininet) (ops : list Op) : Mininet := foldl step net ops.

End Calls.

(** ** Removing a link *)

(** How a call ended. *)
Inductive Outcome :=
  | Returned
  | Raised (exn : string).

(** [n == a] for a node object [n]: identity, so false for [None] and
    for a string. *)
Definition nodeEq (n : Node) (a : PyArg) : bool :=
  match a with
  | PNode m => bool_decide (n = m)
  | _ => false
  end.

(** The search loop of [removeLink]: the first link whose end nodes are
    the two arguments, in either order. *)
Fixpoint findLink (ls : list Link) (node1 node2 : PyArg) : option Link :=
  match ls with
  | [] => None
  | l :: ls' =>
      if nodeEq (node (intf1 l)) node1 && nodeEq (node (intf2 l)) node2
      then Some l
      else if nodeEq (node (intf1 l)) node2 && nodeEq (node (intf2 l)) node1
      then Some l
      else findLink ls' node1 node2
  end.

Definition resolved (n : option Node) : PyArg :=
  match n with
  | Some n => PNode n
  | None => PNone
  end.

(** The two arguments as the search loop sees them: two names are
    looked up first, anything else is taken as it comes. *)
Definition linkEnds (net : Mininet) (node1 node2 : PyArg) : PyArg * PyArg :=
  match node1, node2 with
  | PStr _, PStr _ => (resolved (get net node1), resolved (get net node2))
  | _, _ => (node1, node2)
  end.

(** [removeLink( link, node1, node2 )].  [self.links.remove( link )]
    raises [ValueError] for a link that is not in the list. *)
Definition removeLink (net : Mininet) (link : option Link)
    (node1 node2 : PyArg) : Mininet * list Event * Outcome :=
  let link :=
    match link with
    | Some l => Some l
    | None =>
        let '(node1, node2) := linkEnds net node1 node2 in
        findLink (links net) node1 node2
    end in
  match link with
  | None => (net, [ReportError "Couldn't find link to be removed."], Returned)
  | Some l =>
      if decide (l ∈ links net)
      then (set_links (list_remove l (links net)) net, [LinkDelete l], Returned)
      else (net, [LinkDelete l], Raised "ValueError")
  end.

(** ** Starting and stopping *)

(** [sorted( l, key=key )]: the sort is stable, and a stable sort by a
    total order has one result, computed here by insertion. *)
Fixpoint insertByKey {A} (key : A → nat) (x : A) (l : list A) : list A :=
  match l with
  | [] => [x]
  | y :: l' =>
      if decide (key x ≤ key y)%nat then x :: y :: l'
      else y :: insertByKey key x l'
  end.

Fixpoint sortedByKey {A} (key : A → nat) (l : list A) : list A :=
  match l with
  | [] => []
  | x :: l' => insertByKey key x (sortedByKey key l')
  end.

(** [itertools.groupby( l, key )]: the maximal runs of equal keys. *)
Fixpoint groupby {A} (key : A → nat) (l : list A) : list (nat * list A) :=
  match l with
  | [] => []
  | x :: l' =>
      match groupby key l' with
      | (k, g) :: gs =>
          if decide (key x = k) then (k, x :: g) :: gs
          else (key x, [x]) :: (k, g) :: gs
      | [] => [(key x, [x])]
      end
  end.

(** What the switch classes offer: whether a class has [batchStartup] /
    [batchShutdown], and the switches such a call reports as handled. *)
Record SwitchClasses := mkSwitchClasses {
  hasBatchStartup : ClassId → bool;
  batchStartup : ClassId → list Node → list Node;
  hasBatchShutdown : ClassId → bool;
  batchShutdown : ClassId → list Node → list Node
}.

Section Lifecycle.

Variable classes : SwitchClasses.

(** [self.build()]: the network it leaves and the calls it makes. *)
Variable build : Mininet → Mininet * list Event.

(** [start()].  The dictionary [started] is filled and never read; the
    final [waitConnected()] is recorded as one event. *)
Definition start (net : Mininet) : Mininet * list Event :=
  let '(net, tr) := if built net then (net, []) else build net in
  let tr := foldl (λ tr c, tr ++ [ControllerStart c]) tr (controllers net) in
  let tr := foldl (λ tr s, tr ++ [SwitchStart s (controllers net)]) tr
                  (switches net) in
  let '(started, tr) :=
    foldl (λ '(started, tr) '(swclass, sws),
             if hasBatchStartup classes swclass
             then (batchStartup classes swclass sws ++ started,
                   tr ++ [BatchStartup swclass sws])
             else (started, tr))
          ([], tr) (groupby nodeClass (sortedByKey nodeClass (switches net))) in
  let tr := if waitConn (cfg net) then tr ++ [CallWaitConnected] else tr in
  (net, tr).

(** [stopXterms()]. *)
Definition stopXterms (net : Mininet) (tr : list Event) : list Event :=
  foldl (λ tr pid, tr ++ [Kill pid]) tr (terms net) ++ [CleanUpScreens].

(** The batch loop of [stop()]: the keys of [stopped] and the calls. *)
Definition stopBatches (net : Mininet) (tr : list Event)
    : list Node * list Event :=
  foldl (λ '(stopped, tr) '(swclass, sws),
           if hasBatchShutdown classes swclass
           then (batchShutdown classes swclass sws ++ stopped,
                 tr ++ [BatchShutdown swclass sws])
           else (stopped, tr))
        ([], tr) (groupby nodeClass (sortedByKey nodeClass (switches net))).

(** [stop()]. *)
Definition stop (net : Mininet) : list Event :=
  let tr := foldl (λ tr c, tr ++ [ControllerStop c]) [] (controllers net) in
  let tr := match terms net with
            | [] => tr
            | _ => stopXterms net tr
            end in
  let tr := foldl (λ tr l, tr ++ [LinkStop l]) tr (links net) in
  let '(stopped, tr) := stopBatches net tr in
  let tr := foldl (λ tr sw,
                     let tr := if decide (sw ∈ stopped) then tr
                               else tr ++ [SwitchStop sw] in
                     tr ++ [SwitchTerminate sw])
                  tr (switches net) in
  foldl (λ tr h, tr ++ [HostTerminate h]) tr (hosts net).

End Lifecycle.

(** ** Waiting for the switches *)

(** What [waitConnected] asks and prints. *)
Inductive WaitEvent :=
  | Asked (s : Node)                   (* switch.connected() *)
  | InfoConnected (s : Node)           (* info( '%s ' % switch ) *)
  | Slept (delay : float)              (* sleep( delay ) *)
  | WarnTimedOut (time : float)        (* warn( 'Timed out after ...' ) *)
  | WarnNotConnected (name : string).  (* warn( 'Warning: %s is not ...' ) *)

Section Readiness.

(** The answer of [switch.connected()] when it is the [q]-th such
    question of the call. *)
Variable connected : nat → Node → bool.

(** Loop state: the list [remaining], the number of questions asked so
    far, and the output so far. *)
Definition WaitState : Type := list Node * nat * list WaitEvent.

(** [for switch in tuple( remaining ): ...]: the loop runs over a copy. *)
Fixpoint poll (copy : list Node) (st : WaitState) : WaitState :=
  match copy with
  | [] => st
  | sw :: copy' =>
      let '(remaining, q, out) := st in
      if connected q sw
      then poll copy' (list_remove sw remaining, S q,
                       out ++ [Asked sw; InfoConnected sw])
      else poll copy' (remaining, S q, out ++ [Asked sw])
  end.

(** [for switch in remaining: ...] after the time-out: the loop runs
    over the list it removes from, so the iterator is the position [i]
    in the current list.  Every step advances [i] and the list never
    grows: [fuel] = its length is enough. *)
Fixpoint recheck (fuel : nat) (i : nat) (st : WaitState) : WaitState :=
  match fuel with
  | O => st
  | S fuel' =>
      let '(remaining, q, out) := st in
      match remaining !! i with
      | None => st
      | Some sw =>
          if connected q sw
          then recheck fuel' (S i)
                       (list_remove sw remaining, S q, out ++ [Asked sw])
          else recheck fuel' (S i)
                       (remaining, S q,
                        out ++ [Asked sw; WarnNotConnected (nodeName sw)])
      end
  end.

(** [time > timeout and timeout is not None], on Python floats: IEEE
    binary64 numbers, whose comparison is [PrimFloat.ltb]. *)
Definition timedOut (time : float) (timeout : option float) : bool :=
  match timeout with
  | None => false
  | Some t => PrimFloat.ltb t time
  end.

(** The [while True] loop and what follows it.  [None]: still polling
    when [fuel] rounds are over.  [timeout] and [delay] are Python
    floats, as the default [delay=.5] is, and [time += delay] is the
    rounded binary64 sum; [time] starts as the integer [0], which
    compares and adds as the float [0.0].  (An integer argument that a
    float holds exactly, such as [timeout=1], behaves as that float
    while the sums stay below [2^53].)  [sleep( delay )] and the warning
    ['Timed out after %d seconds'] are recorded as events and supposed
    to return, as [sleep] does for a finite delay that is not negative
    and the formatting with [%d] for a finite [time]. *)
Fixpoint waitLoop (fuel : nat) (timeout : option float) (delay time : float)
    (st : WaitState) : option (bool * WaitState) :=
  match fuel with
  | O => None
  | S fuel' =>
      let '(remaining, q, out) := poll st.1.1 st in
      match remaining with
      | [] => Some (true, (remaining, q, out))
      | _ =>
          if timedOut time timeout
          then
            let out := out ++ [WarnTimedOut time] in
            let '(remaining, q, out) :=
              recheck (length remaining) 0 (remaining, q, out) in
            Some (bool_decide (remaining = []), (remaining, q, out))
          else
            waitLoop fuel' timeout delay (PrimFloat.add time delay)
                     (remaining, q, out ++ [Slept delay])
      end
  end.

(** [waitConnected( timeout, delay )]: the value returned and the
    output, when the call ends within [fuel] rounds. *)
Definition waitConnected (fuel : nat) (net : Mininet)
    (timeout : option float) (delay : float)
    : option (bool * list WaitEvent) :=
  match waitLoop fuel timeout delay 0%float (switches net, O, []) with
  | Some (r, (_, _, out)) => Some (r, out)
  | None => None
  end.

End Readiness.

(** ** Looking nodes up *)

(** What a call gives: a value, or the exception it raises. *)
Inductive Result (A : Type) :=
  | Ok (a : A)
  | Raise (exn : string).
Arguments Ok {A} a.
Arguments Raise {A} exn.

Module Access.

(** [__getitem__]: [self.nameToNode[ key ]]. *)
Definition getitem (net : Mininet) (key : string) : Result Node :=
  match nameToNode net !! key with
  | Some n => Ok n
  | None => Raise "KeyError"
  end.

(** [__iter__]: the names of the nodes of
    [chain( self.hosts, self.switches, self.controllers )]. *)
Definition iter (net : Mininet) : list string :=
  nodeName <$> (hosts net ++ switches net ++ controllers net).

(** [__len__]. *)
Definition len (net : Mininet) : nat :=
  (length (hosts net) + length (switches net) + length (controllers net))%nat.

(** [__contains__]: [item in self.nameToNode]. *)
Definition contains (net : Mininet) (item : string) : bool :=
  bool_decide (is_Some (nameToNode net !! item)).

(** [keys()]: [list( self )]. *)
Definition keys (net : Mininet) : list string := iter net.

(** [[ self[ name ] for name in names ]]: the first unknown name raises. *)
Fixpoint lookups (net : Mininet) (names : list string) : Result (list Node) :=
  match names with
  | [] => Ok []
  | name :: names' =>
      match getitem net name with
      | Raise e => Raise e
      | Ok n =>
          match lookups net names' with
          | Raise e => Raise e
          | Ok ns => Ok (n :: ns)
          end
      end
  end.

(** [values()]: [[ self[ name ] for name in self ]]. *)
Definition values (net : Mininet) : Result (list Node) :=
  lookups net (iter net).

(** [items()]: [zip( self.keys(), self.values() )]. *)
Definition items (net : Mininet) : Result (list (string * Node)) :=
  match values net with
  | Raise e => Raise e
  | Ok ns => Ok (zip (keys net) ns)
  end.

End Access.

(** Successive [addSwitch] calls. *)
Fixpoint addSwitches (net : Mininet) (calls : list HostCall)
    : Mininet * list Node :=
  match calls with
  | [] => (net, [])
  | c :: calls' =>
      let '(net1, sw) :=
        addSwitch net (callName c) (callCls c) (callParams c) in
      let '(net2, sws) := addSwitches net1 calls' in
      (net2, sw :: sws)
  end.

(** ** Adding a link *)

(** Values of the options handed to a link constructor: plain values,
    and classes (the entry ['intf']). *)
Inductive LinkVal :=
  | LVal (v : PyVal)
  | LClass (c : ClassId).

(** [options.setdefault( k, v )]. *)
Definition setdefault {A} (k : string) (v : A) (m : gmap string A)
    : gmap string A :=
  match m !! k with
  | Some _ => m
  | None => <[ k := v ]> m
  end.

(** The calls [addLink] makes. *)
Inductive LinkCall :=
  | NewLink (cls : ClassId) (node1 node2 : Node)
            (options : gmap string LinkVal)  (* cls( node1, node2, **options ) *)
  | Attach (sw : Node) (i : Intf).           (* node.attach( link.intf ) *)

Section Links.

Variable macColonHex : Z → string.

(** [self.link] and [self.intf], constructor arguments of the network
    that no method changes; [self.intf] may be [None]. *)
Variable linkCls : ClassId.
Variable intfCls : option ClassId.

(** [isinstance( node, OVSSwitch )], by the class of the node. *)
Variable isOVSSwitch : ClassId → bool.

(** [node if not isinstance( node, basestring ) else self[ node ]]. *)
Definition nodeArg (net : Mininet) (a : string + Node) : Result Node :=
  match a with
  | inl name => Access.getitem net name
  | inr n => Ok n
  end.

(** The dictionary [options] of [addLink]; [r1] and [r2] are the draws
    of the two [randMac()] calls, which are made whether or not the
    caller gave addresses. *)
Definition linkOptions (port1 port2 : option Z)
    (params : gmap string LinkVal) (r1 r2 : Z) : gmap string LinkVal :=
  let options := params in
  let options := match port1 with
                 | Some p => setdefault "port1" (LVal (VInt p)) options
                 | None => options
                 end in
  let options := match port2 with
                 | Some p => setdefault "port2" (LVal (VInt p)) options
                 | None => options
                 end in
  let options := match intfCls with
                 | Some c => setdefault "intf" (LClass c) options
                 | None => options
                 end in
  let options :=
    setdefault "addr1" (LVal (VStr (macColonHex (randMacBits r1)))) options in
  setdefault "addr2" (LVal (VStr (macColonHex (randMacBits r2)))) options.

(** [addLink( node1, node2, port1, port2, cls, **params )].  [made] is
    the link object that the constructor returns. *)
Definition addLink (net : Mininet) (node1 node2 : string + Node)
    (port1 port2 : option Z) (cls : option ClassId)
    (params : gmap string LinkVal) (r1 r2 : Z) (made : Link)
    : Result (Mininet * Link) * list LinkCall :=
  match nodeArg net node1 with
  | Raise e => (Raise e, [])
  | Ok node1 =>
      match nodeArg net node2 with
      | Raise e => (Raise e, [])
      | Ok node2 =>
          let options := linkOptions port1 port2 params r1 r2 in
          let cls := default linkCls cls in
          let link := made in
          let calls :=
            [NewLink cls node1 node2 options] ++
            (if isOVSSwitch (nodeClass node1)
             then [Attach node1 (intf1 link)] else []) ++
            (if isOVSSwitch (nodeClass node2)
             then [Attach node2 (intf2 link)] else []) in
          (Ok (set_links (links net ++ [link]) net, link), calls)
      end
  end.

End Links.

(** ** Static ARP entries *)

(** [src.setARP( ip=dst.IP(), mac=dst.MAC() )]. *)
Inductive ArpCall :=
  | SetARP (src dst : Node).

#[global] Instance ArpCall_eq_dec : EqDecision ArpCall.
Proof. solve_decision. Defined.

(** [staticArp()]: the calls it makes, in order.  [src != dst] compares
    node objects. *)
Definition staticArp (net : Mininet) : list ArpCall :=
  src ← hosts net;
  dst ← hosts net;
  if decide (src ≠ dst) then [SetARP src dst] else [].

(** ** Ping *)

(** The commands [ping] runs on nodes. *)
Inductive PingCall :=
  | PingCmd (src : Node) (opts : string) (dest : Node + string)
      (* node.cmd( 'ping -c1 %s %s' % ( opts, ip ) ): to the address of a
         node, or to [manualdestip] *)
  | PrintRoute (src : Node).          (* node.cmdPrint( 'route' ) *)

#[global] Instance PingCall_eq_dec : EqDecision PingCall.
Proof. solve_decision. Defined.

(** The counters of [ping], the number of commands run so far, and the
    commands. *)
Record PingState := mkPingState {
  packets : Z;
  lost : Z;
  asked : nat;
  pingCalls : list PingCall
}.

(** A loop body either goes on or leaves through [exit( 1 )]. *)
Inductive Flow :=
  | Next (st : PingState)
  | Exit (st : PingState).

Section Ping.

(** [self._parsePing( result )] for the output of the [q]-th command of
    the call: packets sent and received. *)
Variable parsed : nat → Node → Node + string → Z * Z.

(** Truth value of [dest.intfs]. *)
Variable hasIntfs : Node → bool.

(** [opts]: ['-W %s' % timeout] when [timeout] is true, else ['']. *)
Definition pingOpts (timeout : option string) : string :=
  match timeout with
  | Some t => if decide (t = EmptyString) then EmptyString else "-W " +:+ t
  | None => EmptyString
  end.

(** [packets += sent], the check [received > sent], which ends the
    program, and [lost += sent - received]. *)
Definition tally (node : Node) (sent received : Z) (st : PingState) : Flow :=
  let st := mkPingState (packets st + sent) (lost st) (asked st)
                        (pingCalls st) in
  if sent <? received
  then Exit (mkPingState (packets st) (lost st) (asked st)
                         (pingCalls st ++ [PrintRoute node]))
  else Next (mkPingState (packets st) (lost st + (sent - received))
                         (asked st) (pingCalls st)).

(** One ping command and its tally. *)
Definition pingFrom (timeout : option string) (node : Node)
    (dest : Node + string) (st : PingState) : Flow :=
  let '(sent, received) := parsed (asked st) node dest in
  tally node sent received
        (mkPingState (packets st) (lost st) (S (asked st))
                     (pingCalls st ++ [PingCmd node (pingOpts timeout) dest])).

(** [for dest in hosts: if node != dest: ...]. *)
Fixpoint pingDests (timeout : option string) (node : Node)
    (dests : list Node) (st : PingState) : Flow :=
  match dests with
  | [] => Next st
  | dest :: dests' =>
      if decide (node ≠ dest)
      then
        match (if hasIntfs dest
               then pingFrom timeout node (inl dest) st
               else tally node 0 0 st) with
        | Next st' => pingDests timeout node dests' st'
        | Exit st' => Exit st'
        end
      else pingDests timeout node dests' st
  end.

(** [for node in hosts: ...]; [every] is the whole list. *)
Fixpoint pingNodes (timeout manualdestip : option string)
    (every nodes : list Node) (st : PingState) : Flow :=
  match nodes with
  | [] => Next st
  | node :: nodes' =>
      match (match manualdestip with
             | Some ip => pingFrom timeout node (inr ip) st
             | None => pingDests timeout node every st
             end) with
      | Next st' => pingNodes timeout manualdestip every nodes' st'
      | Exit st' => Exit st'
      end
  end.

(** The list [ping] works on: [if not hosts: hosts = self.hosts]. *)
Definition pingHosts (net : Mininet) (hostList : option (list Node))
    : list Node :=
  match hostList with
  | None | Some [] => hosts net
  | Some l => l
  end.

(** [ping( hosts, timeout, manualdestip )]: the loss in percent, or
    [SystemExit], and the commands run.  The quotient
    [100.0 * lost / packets] is kept exact. *)
Definition ping (net : Mininet) (hostList : option (list Node))
    (timeout manualdestip : option string) : Result Q * list PingCall :=
  let every := pingHosts net hostList in
  match pingNodes timeout manualdestip every every (mkPingState 0 0 0 []) with
  | Exit st => (Raise "SystemExit", pingCalls st)
  | Next st =>
      (Ok (if 0 <? packets st
           then Qred (inject_Z 100 * inject_Z (lost st) / inject_Z (packets st))
           else 0%Q),
       pingCalls st)
  end.

(** [pingAll( timeout )]. *)
Definition pingAll (net : Mininet) (timeout : option string)
    : Result Q * list PingCall :=
  ping net None timeout None.

(** [pingPair()]: [self.hosts[ 0 ]] and [self.hosts[ 1 ]] raise
    [IndexError] in a network with fewer than two hosts. *)
Definition pingPair (net : Mininet) : Result Q * list PingCall :=
  match hosts net with
  | h0 :: h1 :: _ => ping net (Some [h0; h1]) None None
  | _ => (Raise "IndexError", [])
  end.

End Ping.

(** ** Changing the status of links *)

(** What [configLinkStatus] reports and does. *)
Inductive StatusCall :=
  | SrcNotInNetwork (src : PyArg)     (* error( 'src not in network: ...' ) *)
  | DstNotInNetwork (dst : PyArg)     (* error( 'dst not in network: ...' ) *)
  | NotConnected (src dst : Node)     (* error( 'src and dst not connected: ...' ) *)
  | Ifconfig (i : Intf) (status : string)
                                      (* intf.ifconfig( status ) *)
  | SrcChangeFailed (result : string) (* error( 'link src status change failed: ...' ) *)
  | DstChangeFailed (result : string). (* error( 'link dst status change failed: ...' ) *)

Section LinkStatus.

(** [src.connectionsTo( dst )]. *)
Variable connectionsTo : Node → Node → list (Intf * Intf).

(** The text [intf.ifconfig( status )] returns when it is the [q]-th
    such call (from 0); the empty text is false. *)
Variable ifconfig : nat → Intf → string → string.

(** [for srcIntf, dstIntf in connections: ...], from the [q]-th
    [ifconfig] call on. *)
Fixpoint setStatus (q : nat) (connections : list (Intf * Intf))
    (status : string) : list StatusCall :=
  match connections with
  | [] => []
  | (srcIntf, dstIntf) :: connections' =>
      let result := ifconfig q srcIntf status in
      let result' := ifconfig (S q) dstIntf status in
      [Ifconfig srcIntf status] ++
      (if decide (result = EmptyString) then [] else [SrcChangeFailed result]) ++
      [Ifconfig dstIntf status] ++
      (if decide (result' = EmptyString) then []
       else [DstChangeFailed result']) ++
      setStatus (S (S q)) connections' status
  end.

(** [configLinkStatus( src, dst, status )].  [src not in
    self.nameToNode] is true of everything that is not a registered
    name. *)
Definition configLinkStatus (net : Mininet) (src dst : PyArg)
    (status : string) : list StatusCall :=
  match get net src with
  | None => [SrcNotInNetwork src]
  | Some src' =>
      match get net dst with
      | None => [DstNotInNetwork dst]
      | Some dst' =>
          let connections := connectionsTo src' dst' in
          (if decide (length connections = 0%nat)
           then [NotConnected src' dst'] else []) ++
          setStatus 0 connections status
      end
  end.

End LinkStatus.

(** ** The control network *)

(** [while snum & 0xff in [ 0, 255 ]: snum += 1], for at most [fuel]
    tests of the condition. *)
Fixpoint skipEnds (fuel : nat) (snum : Z) : option Z :=
  match fuel with
  | O => None
  | S fuel' =>
      if decide (Z.land snum 0xff = 0 ∨ Z.land snum 0xff = 255)
      then skipEnds fuel' (snum + 1)
      else Some snum
  end.

(** The values [snum] takes in the loop over the switches of
    [configureRoutedControlNetwork], one for each switch; the other
    statements of the loop body do not assign it. *)
Fixpoint controlNums (fuel : nat) (snum : Z) (sws : list Node)
    : option (list (Node * Z)) :=
  match sws with
  | [] => Some []
  | switch :: sws' =>
      match skipEnds fuel (snum + 1) with
      | None => None
      | Some snum =>
          match controlNums fuel snum sws' with
          | None => None
          | Some nums => Some ((switch, snum) :: nums)
          end
      end
  end.

(** ** [Containernet]: removing hosts *)

(** [for ip, n in self.leases.items(): if name == n: del
    self.leases[ ip ]; break], on the items in the order of the
    dictionary [self.leases] is from [__init__] on. *)
Fixpoint dropLease (name : string) (leases : list (string * string))
    : list (string * string) :=
  match leases with
  | [] => []
  | (ip, n) :: leases' =>
      if decide (name = n) then leases'
      else (ip, n) :: dropLease name leases'
  end.

Module Containernet.
Section Methods.

(** [isinstance( node, LibvirtHost )], by the class of the node. *)
Variable isLibvirtHost : ClassId → bool.

(** [Containernet.removeHost( name )]: what it returns or raises, and
    the leases it leaves.  Its last statement calls [self.removeHost],
    which is this method again; [depth] is the number of calls that the
    interpreter's recursion limit still allows. *)
Fixpoint removeHost (depth : nat) (net : Mininet)
    (leases : list (string * string)) (name : PyArg)
    : Result (Mininet * list Event * bool) * list (string * string) :=
  match depth with
  | O => (Raise "RuntimeError", leases)
  | S depth' =>
      match get net name with
      | None => (Raise "KeyError", leases)
      | Some h =>
          let leases :=
            match name with
            | PStr s => if isLibvirtHost (nodeClass h)
                        then dropLease s leases else leases
            | _ => leases
            end in
          removeHost depth' net leases name
      end
  end.

(** [removeDocker] and [removeLibvirthost]:
    [return self.removeHost( name, **params )]. *)
Definition removeDocker (depth : nat) (net : Mininet)
    (leases : list (string * string)) (name : PyArg)
    : Result (Mininet * list Event * bool) * list (string * string) :=
  match depth with
  | O => (Raise "RuntimeError", leases)
  | S depth' => removeHost depth' net leases name
  end.

End Methods.
End Containernet.

(** ** Building the network *)

Definition set_terms (v : list Z) (n : Mininet) : Mininet :=
  mkMininet (cfg n) (nextIP n) (nextCore n) (listenPort n) (hosts n)
    (switches n) (controllers n) (links n) (nameToNode n) v (built n)
    (allocated n).

(** An entry of [topo.links( sort=True, withInfo=True )]: the keyword
    arguments [addLink] is called with. *)
Record LinkSpec := mkLinkSpec {
  specNode1 : string;
  specNode2 : string;
  specPort1 : option Z;
  specPort2 : option Z;
  specCls : option ClassId;
  specParams : gmap string LinkVal
}.

(** A topology: [topo.hosts()] and [topo.switches()], each name with its
    [topo.nodeInfo], and the links. *)
Record Topo := mkTopo {
  topoHosts : list HostCall;
  topoSwitches : list HostCall;
  topoLinks : list LinkSpec
}.

(** What [build] does besides changing the network. *)
Inductive BuildCall :=
  | OfLink (c : LinkCall)
  | ConfigDefault (host : Node) (bare : bool)
      (* host.configDefault(), or host.configDefault( ip=None, mac=None )
         when [bare] *)
  | OfTerms (e : Event)
  | OfArp (c : ArpCall).

Section Build.

Variable macColonHex : Z → string.
Variable linkCls : ClassId.
Variable intfCls : option ClassId.
Variable isOVSSwitch : ClassId → bool.

(** [self.controller] as a list of classes and controller objects: empty
    when it is false. *)
Variable defaultControllers : list (ClassId + Node).

(** The two [randMac()] draws for the [i]-th link of the topology, and
    the link object its constructor returns. *)
Variable draws : nat → Z * Z.
Variable made : nat → Link.

(** [self.topo], [self.xterms] and [self.autoStaticArp]. *)
Variable topo : option Topo.
Variable xterms : bool.
Variable autoStaticArp : bool.

(** Truth value of [host.defaultIntf()]. *)
Variable hasDefaultIntf : Node → bool.

(** ['DISPLAY' in os.environ], and the pids of the terminals that
    [makeTerms( nodes, title )] starts. *)
Variable display : bool.
Variable makeTerms : list Node → string → list Z.

(** [for i, cls in enumerate( classes ): ...], from index [i] on. *)
Fixpoint addControllers (net : Mininet) (i : nat)
    (classes : list (ClassId + Node)) : Mininet :=
  match classes with
  | [] => net
  | inr c :: classes' =>
      addControllers (addController net (inr c) None ∅).1 (S i) classes'
  | inl cls :: classes' =>
      addControllers
        (addController net (inl ("c" +:+ pretty i)) (Some cls) ∅).1
        (S i) classes'
  end.

(** [for srcName, dstName, params in topo.links( ... ):
    self.addLink( **params )], from the [i]-th link on. *)
Fixpoint addLinks (net : Mininet) (i : nat) (specs : list LinkSpec)
    : Mininet * list LinkCall * Outcome :=
  match specs with
  | [] => (net, [], Returned)
  | s :: specs' =>
      match addLink macColonHex linkCls intfCls isOVSSwitch net
              (inl (specNode1 s)) (inl (specNode2 s))
              (specPort1 s) (specPort2 s) (specCls s) (specParams s)
              (draws i).1 (draws i).2 (made i) with
      | (Raise e, calls) => (net, calls, Raised e)
      | (Ok (net', _), calls) =>
          let '(net'', calls', out) := addLinks net' (S i) specs' in
          (net'', calls ++ calls', out)
      end
  end.

(** [buildFromTopo( topo )]: the network it leaves, the calls for the
    links, and how it ended. *)
Definition buildFromTopo (net : Mininet) (t : Topo)
    : Mininet * list LinkCall * Outcome :=
  let net := match controllers net, defaultControllers with
             | [], _ :: _ => addControllers net 0 defaultControllers
             | _, _ => net
             end in
  let net := (addHosts macColonHex net (topoHosts t)).1 in
  let net := (addSwitches net (topoSwitches t)).1 in
  addLinks net 0 (topoLinks t).

(** [configHosts()]. *)
Definition configHosts (net : Mininet) : list BuildCall :=
  (λ host, ConfigDefault host (negb (hasDefaultIntf host))) <$> hosts net.

(** [startTerms()]. *)
Definition startTerms (net : Mininet) : Mininet * list BuildCall :=
  if display
  then
    let net := set_terms (terms net ++ makeTerms (controllers net) "controller")
                         net in
    let net := set_terms (terms net ++ makeTerms (switches net) "switch")
                         net in
    let net := set_terms (terms net ++ makeTerms (hosts net) "host") net in
    (net, [OfTerms CleanUpScreens])
  else
    (net, [OfTerms (ReportError
                      "Error starting terms: Cannot connect to display")]).

(** [build()] of [Mininet], whose [configureControlNetwork] raises. *)
Definition build (net : Mininet) : Mininet * list BuildCall * Outcome :=
  let '(net, calls, out) :=
    match topo with
    | Some t => buildFromTopo net t
    | None => (net, [], Returned)
    end in
  let calls := OfLink <$> calls in
  match out with
  | Raised e => (net, calls, Raised e)
  | Returned =>
      if inNamespace (cfg net)
      then (net, calls, Raised "Exception")
      else
        let calls := calls ++ configHosts net in
        let '(net, calls) :=
          if xterms
          then let '(net', calls') := startTerms net in (net', calls ++ calls')
          else (net, calls) in
        let calls :=
          if autoStaticArp then calls ++ (OfArp <$> staticArp net)
          else calls in
        (set_built true net, calls, Returned)
  end.

End Build.

(** * Vocabulary of the properties, and example networks *)

(** No character of the string is a dot. *)
Fixpoint dotless (s : string) : Prop :=
  match s with
  | EmptyString => True
  | String c s' => c ≠ "."%char ∧ dotless s'
  end.

(** Objects in the host sequence were allocated before: a node object
    built later is none of them. *)
Definition hostsAllocated (net : Mininet) : Prop :=
  Forall (λ h, (nodeId h < allocated net)%nat) (hosts net).

(** The link [l] joins [a] and [b], in either order. *)
Definition joins (l : Link) (a b : PyArg) : Prop :=
  (PNode (node (intf1 l)) = a ∧ PNode (node (intf2 l)) = b) ∨
  (PNode (node (intf1 l)) = b ∧ PNode (node (intf2 l)) = a).

(** The registry of [net'] is that of [net]: the name map and the three
    role sequences. *)
Definition sameRegistry (net net' : Mininet) : Prop :=
  nameToNode net' = nameToNode net ∧ hosts net' = hosts net ∧
  switches net' = switches net ∧ controllers net' = controllers net.

(** The order [sorted( ..., key=key )] establishes. *)
Definition keyLe {A} (key : A → nat) (x y : A) : Prop := (key x ≤ key y)%nat.

(** The groups of switches [start] and [stop] iterate over. *)
Definition classGroups (sws : list Node) : list (ClassId * list Node) :=
  groupby nodeClass (sortedByKey nodeClass sws).

(** The groups whose class has the batch method. *)
Definition batchCalls (has : ClassId → bool) (sws : list Node)
    : list (ClassId * list Node) :=
  filter (λ g, has g.1 = true) (classGroups sws).

(** The stage of [stop] an event belongs to. *)
Definition stage (e : Event) : nat :=
  match e with
  | ControllerStop _ => 0
  | Kill _ | CleanUpScreens => 1
  | LinkStop _ => 2
  | BatchShutdown _ _ => 3
  | SwitchStop _ | SwitchTerminate _ => 4
  | HostTerminate _ => 5
  | _ => 6
  end.

(** No later stage before an earlier one. *)
Definition stageLe (e1 e2 : Event) : Prop := (stage e1 ≤ stage e2)%nat.

(** The calls [stop] makes for the terminals. *)
Definition termEvents (net : Mininet) : list Event :=
  match terms net with
  | [] => []
  | _ => (Kill <$> terms net) ++ [CleanUpScreens]
  end.

(** The switches some [batchShutdown] call of [stop] reports. *)
Definition batchStopped (classes : SwitchClasses) (net : Mininet) (s : Node)
    : Prop :=
  ∃ g, g ∈ batchCalls (hasBatchShutdown classes) (switches net) ∧
       s ∈ batchShutdown classes g.1 g.2.

(** The network [start] works on, and the calls made before it starts
    the controllers. *)
Definition afterBuild (build : Mininet → Mininet * list Event)
    (net : Mininet) : Mininet * list Event :=
  if built net then (net, []) else build net.

(** C6 as stated, for the switch [s]. *)
Definition skippedWhenBatched (classes : SwitchClasses) (net : Mininet)
    (s : Node) : Prop :=
  (batchStopped classes net s →
   (SwitchStop s ∉ stop classes net) ∧ (SwitchTerminate s ∉ stop classes net)) ∧
  (¬ batchStopped classes net s →
   SwitchStop s ∈ stop classes net ∧ SwitchTerminate s ∈ stop classes net).

(** C4 as stated, for the calls [tr] of a [start]: the batch call of a
    class precedes every single start of a switch of the class, and no
    switch that a batch call reports is started singly. *)
Definition batchStartFirst (classes : SwitchClasses) (tr : list Event)
    : Prop :=
  (∀ i j s ctrls sws,
     tr !! i = Some (BatchStartup (nodeClass s) sws) →
     tr !! j = Some (SwitchStart s ctrls) → (i < j)%nat) ∧
  (∀ c sws s ctrls,
     BatchStartup c sws ∈ tr → s ∈ batchStartup classes c sws →
     SwitchStart s ctrls ∉ tr).

(** A stand-in for [macColonHex] in the examples, none of which sets
    [autoSetMacs]. *)
Definition plainMac (mac : Z) : string := pretty mac.

(** A configuration with base [10.0.0.0/8]; the host, switch and
    controller classes are numbered 0, 1 and 2. *)
Definition cfg10 : Config :=
  {| host := 0; switch := 1; controller := 2;
     ipBaseNum := ipBase_10_8.1; prefixLen := ipBase_10_8.2;
     inNamespace := false; autoSetMacs := false; autoPinCpus := false;
     numCores := 1; waitConn := false |}.

(** A new network, and the same after [addHost( 'h1' )]. *)
Definition net0 : Mininet := init cfg10 None.
Definition net_h1 : Mininet := (addHost plainMac net0 "h1" None ∅).1.

(** Switch classes that all have both batch methods, each reporting
    every switch it is given. *)
Definition batchAll : SwitchClasses :=
  {| hasBatchStartup := λ _, true; batchStartup := λ _ sws, sws;
     hasBatchShutdown := λ _, true; batchShutdown := λ _ sws, sws |}.

(** A network with the one switch [s1]. *)
Definition net_s1 : Mininet := (addSwitch net0 "s1" None ∅).1.
Definition s1 : Node := (addSwitch net0 "s1" None ∅).2.

(** [build] for a network with no topology and no hosts: there is
    nothing to configure. *)
Definition buildNothing (n : Mininet) : Mininet * list Event :=
  (set_built true n, []).

(** Networks with the switches [s1], [s2] and with [s1], [s2], [s3]. *)
Definition net_2sw : Mininet := (addSwitch net_s1 "s2" None ∅).1.
Definition s2 : Node := (addSwitch net_s1 "s2" None ∅).2.
Definition net_3sw : Mininet := (addSwitch net_2sw "s3" None ∅).1.
Definition s3 : Node := (addSwitch net_2sw "s3" None ∅).2.

(** [s1] and [s2] are connected whenever asked, [s3] never is. *)
Definition allButS3 (q : nat) (s : Node) : bool := bool_decide (s ≠ s3).

(** [s1] is connected from the 25th question of the call on, [s2] never
    is. *)
Definition lateS1 (q : nat) (s : Node) : bool :=
  bool_decide (s = s1) && bool_decide (24 ≤ q)%nat.

(** Every switch is connected from the 25th question on. *)
Definition lateBoth (q : nat) (s : Node) : bool := bool_decide (24 ≤ q)%nat.

(** Every registered name belongs to a node that bears it and that is
    in one of the role sequences. *)
Definition registryConsistent (net : Mininet) : Prop :=
  ∀ s n, nameToNode net !! s = Some n →
         nodeName n = s ∧ n ∈ hosts net ++ switches net ++ controllers net.

(** The names that the warnings of an output give, in order. *)
Definition warnedNames (out : list WaitEvent) : list string :=
  omap (λ e, match e with
             | WarnNotConnected name => Some name
             | _ => None
             end) out.

(** The switches are never connected. *)
Definition neverConnected (q : nat) (s : Node) : bool := false.

(** The switches are always connected. *)
Definition alwaysConnected (q : nat) (s : Node) : bool := true.

(** The node an argument of [addLink] stands for, when there is one. *)
Definition argNode (net : Mininet) (a : string + Node) : option Node :=
  match a with
  | inl name => nameToNode net !! name
  | inr n => Some n
  end.

(** A link between [s1] and [s2], as [Link( s1, s2 )] names its ends. *)
Definition link_s1_s2 : Link :=
  mkLink 0 (mkIntf "s1-eth1" s1) (mkIntf "s2-eth1" s2).

(** The network [net_2sw] with the link [link_s1_s2] appended. *)
Definition net_2sw_linked : Mininet :=
  set_links (links net_2sw ++ [link_s1_s2]) net_2sw.

(** No class is an [OVSSwitch]. *)
Definition noOVS (c : ClassId) : bool := false.

(** A network with the two hosts [h1] and [h2]. *)
Definition net_2h : Mininet := (addHost plainMac net_h1 "h2" None ∅).1.
Definition h1 : Node := (addHost plainMac net0 "h1" None ∅).2.
Definition h2 : Node := (addHost plainMac net_h1 "h2" None ∅).2.

(** The number of ping commands among the calls. *)
Definition isPingCmd (c : PingCall) : bool :=
  match c with
  | PingCmd _ _ _ => true
  | PrintRoute _ => false
  end.

Definition pingCount (calls : list PingCall) : nat :=
  length (filter (λ c, isPingCmd c = true) calls).

(** The pings that [ping] may run when it works on [every]: from a node
    of the list to [manualdestip], or else to another node of the list
    that has interfaces. *)
Definition allowedPing (hasIntfs : Node → bool) (manualdestip : option string)
    (every : list Node) (node : Node) (dest : Node + string) : Prop :=
  node ∈ every ∧
  match dest with
  | inl d => manualdestip = None ∧ d ∈ every ∧ d ≠ node ∧ hasIntfs d = true
  | inr ip => manualdestip = Some ip
  end.

(** Every ping answers, or: one packet sent, one received. *)
Definition allAnswer (q : nat) (n : Node) (d : Node + string) : Z * Z := (1, 1).

(** Replies that claim two packets received for one sent. *)
Definition tooMany (q : nat) (n : Node) (d : Node + string) : Z * Z := (1, 2).

(** Every node has interfaces. *)
Definition allIntfs (n : Node) : bool := true.

(** The [ifconfig] calls among the calls, in order. *)
Definition ifconfigs (calls : list StatusCall) : list (Intf * string) :=
  omap (λ c, match c with
             | Ifconfig i status => Some (i, status)
             | _ => None
             end) calls.

(** The last octet of an address number is neither 0 nor 255. *)
Definition plainOctet (n : Z) : Prop :=
  Z.land n 0xff ≠ 0 ∧ Z.land n 0xff ≠ 255.

(** Every node of the three sequences is registered under its name. *)
Definition allRegistered (net : Mininet) : Prop :=
  ∀ n, n ∈ hosts net ++ switches net ++ controllers net →
       nameToNode net !! nodeName n = Some n.

(** The names of the nodes of a topology. *)
Definition topoNames (t : Topo) : list string :=
  callName <$> (topoHosts t ++ topoSwitches t).

(** Every link of the topology joins nodes of the topology. *)
Definition linksClosed (t : Topo) : Prop :=
  Forall (λ s, specNode1 s ∈ topoNames t ∧ specNode2 s ∈ topoNames t)
         (topoLinks t).

(** The hosts [build] configures, in order, each with the kind of call. *)
Definition configured (calls : list BuildCall) : list (Node * bool) :=
  omap (λ c, match c with
             | ConfigDefault h bare => Some (h, bare)
             | _ => None
             end) calls.

(** The ARP calls among the calls of [build]. *)
Definition arpCalls (calls : list BuildCall) : list ArpCall :=
  omap (λ c, match c with
             | OfArp a => Some a
             | _ => None
             end) calls.

(** Two hosts on one switch. *)
Definition topo_2h_1s : Topo :=
  {| topoHosts := [mkHostCall "h1" None ∅; mkHostCall "h2" None ∅];
     topoSwitches := [mkHostCall "s1" None ∅];
     topoLinks := [mkLinkSpec "h1" "s1" None None None ∅;
                   mkLinkSpec "h2" "s1" None None None ∅] |}.

(** Link objects numbered as they are made; their ends do not matter
    here. *)
Definition linkNo (i : nat) : Link :=
  mkLink i (mkIntf "a" s1) (mkIntf "b" s1).

Definition noDraws (i : nat) : Z * Z := (1, 1).
Definition noTerms (ns : list Node) (title : string) : list Z := [].

(** A new network in a namespace. *)
Definition net0_ns : Mininet :=
  init {| host := 0; switch := 1; controller := 2;
          ipBaseNum := ipBase_10_8.1; prefixLen := ipBase_10_8.2;
          inNamespace := true; autoSetMacs := false; autoPinCpus := false;
          numCores := 1; waitConn := false |} None.

(** What no registry operation touches. *)
Definition sameRun (net net' : Mininet) : Prop :=
  cfg net' = cfg net ∧ built net' = built net ∧ terms net' = terms net.

(** The names registered stay registered. *)
Definition keepsNames (net net' : Mininet) : Prop :=
  ∀ k, is_Some (nameToNode net !! k) → is_Some (nameToNode net' !! k).

(** The classes of the [batchShutdown] calls among the calls, in
    order. *)
Definition shutdownClasses (tr : list Event) : list ClassId :=
  omap (λ e, match e with
             | BatchShutdown c _ => Some c
             | _ => None
             end) tr.

(** The two nodes that the end arguments of [removeLink] stand for: two
    node objects stand for themselves and two registered names for the
    nodes they name; nothing else stands for a pair of nodes. *)
Definition namedEnds (net : Mininet) (node1 node2 : PyArg)
    : option (Node * Node) :=
  match node1, node2 with
  | PNode n1, PNode n2 => Some (n1, n2)
  | PStr s1, PStr s2 =>
      match nameToNode net !! s1, nameToNode net !! s2 with
      | Some n1, Some n2 => Some (n1, n2)
      | _, _ => None
      end
  | _, _ => None
  end.

(** [2^32 + 1] calls of [addHost], for the hosts [h1], [h2], ... *)
Definition manyHosts : list HostCall :=
  (λ k, mkHostCall ("h" +:+ pretty k) None ∅) <$> seqZ 1 (2 ^ 32 + 1).

(** A float that is a number, not an infinity or a NaN. *)
Definition finiteFloat (x : float) : bool :=
  PrimFloat.ltb (PrimFloat.abs x) infinity.

(** A delay [sleep] accepts: a finite number that is not negative. *)
Definition sleepable (delay : float) : Prop :=
  PrimFloat.leb 0%float delay = true ∧ finiteFloat delay = true.

(** The value of [time] in [waitConnected] after [n] rounds of
    [time += delay]. *)
Definition clockAt (delay : float) (n : nat) : float :=
  Nat.iter n (λ time, PrimFloat.add time delay) 0%float.

(** * Properties *)

(** ** Lists *)

Lemma list_remove_snoc_fresh `{EqDecision A} (x : A) (l : list A) :
  x ∉ l → list_remove x (l ++ [x]) = l.
Proof.
  induction l as [|y l IH]; intros Hx; simpl.
  - by rewrite decide_True.
  - apply not_elem_of_cons in Hx as [Hxy Hl].
    rewrite decide_False by done. by rewrite IH.
Qed.

Lemma list_remove_middle `{EqDecision A} (x : A) (pre post : list A) :
  x ∉ pre → list_remove x (pre ++ x :: post) = pre ++ post.
Proof.
  induction pre as [|y pre IH]; intros Hx; simpl.
  - by rewrite decide_True.
  - apply not_elem_of_cons in Hx as [Hxy Hl].
    rewrite decide_False by done. by rewrite IH.
Qed.

Lemma list_remove_subseteq `{EqDecision A} (x : A) (l : list A) :
  list_remove x l ⊆ l.
Proof.
  induction l as [|y l IH]; simpl; [done|].
  destruct (decide (x = y)); set_solver.
Qed.


(** ** Dotted quads *)

Lemma pretty_N_char_dotless (x : N) : pretty_N_char x ≠ "."%char.
Proof. unfold pretty_N_char. by repeat case_match. Qed.

Lemma pretty_N_go_dotless (x : N) (s : string) :
  dotless s → dotless (pretty_N_go x s).
Proof.
  revert s. induction (N.lt_wf_0 x) as [x _ IH]; intros s Hs.
  assert (x = 0 ∨ 0 < x)%N as [->|?] by lia.
  - by rewrite pretty_N_go_0.
  - rewrite pretty_N_go_step by done. apply IH.
    + by apply N.div_lt.
    + split; [apply pretty_N_char_dotless|done].
Qed.

Lemma pretty_Z_dotless (z : Z) : 0 ≤ z → dotless (pretty z).
Proof.
  intros Hz. destruct z as [|p|p]; [done| |lia].
  unfold pretty, pretty_Z, pretty, pretty_positive, pretty, pretty_N.
  case_decide; [done|]. by apply pretty_N_go_dotless.
Qed.

(** Two texts that agree, each a dotless part followed by a dot, agree
    part by part. *)
Lemma dotted_inj (a a' b b' : string) :
  dotless a → dotless a' →
  a +:+ "." +:+ b = a' +:+ "." +:+ b' → a = a' ∧ b = b'.
Proof.
  revert a'. induction a as [|c a IH]; intros [|c' a'] Ha Ha' Heq;
    simpl in *.
  - by simplify_eq.
  - destruct Ha' as [Hc' _]. by simplify_eq.
  - destruct Ha as [Hc _]. by simplify_eq.
  - destruct Ha as [_ Ha], Ha' as [_ Ha']. simplify_eq.
    destruct (IH a' Ha Ha') as [-> ->]; done.
Qed.

Lemma octet_nonneg (z k : Z) : 0 ≤ Z.land (Z.shiftr z k) 255.
Proof. apply Z.land_nonneg. right. lia. Qed.

Lemma octets_number (z : Z) :
  0 ≤ z < 2 ^ 32 →
  z = Z.land (Z.shiftr z 24) 255 * 2 ^ 24 + Z.land (Z.shiftr z 16) 255 * 2 ^ 16
      + Z.land (Z.shiftr z 8) 255 * 2 ^ 8 + Z.land z 255.
Proof.
  intros Hz.
  change 255 with (Z.ones 8). rewrite !Z.land_ones by lia.
  rewrite !Z.shiftr_div_pow2 by lia.
  change (2 ^ 32) with 4294967296 in Hz.
  change (2 ^ 24) with 16777216. change (2 ^ 16) with 65536.
  change (2 ^ 8) with 256.
  Z.div_mod_to_equations. lia.
Qed.

(** On 32-bit numbers the dotted quad determines the address. *)
Lemma ipStr_inj (n m : Z) :
  0 ≤ n < 2 ^ 32 → 0 ≤ m < 2 ^ 32 → ipStr n = ipStr m → n = m.
Proof.
  intros Hn Hm Heq. unfold ipStr in Heq.
  apply dotted_inj in Heq as [H3 Heq];
    [|apply pretty_Z_dotless, octet_nonneg..].
  apply dotted_inj in Heq as [H2 Heq];
    [|apply pretty_Z_dotless, octet_nonneg..].
  apply dotted_inj in Heq as [H1 H0];
    [|apply pretty_Z_dotless, octet_nonneg..].
  apply (inj pretty) in H3, H2, H1, H0.
  rewrite (octets_number n Hn), (octets_number m Hm).
  by rewrite H3, H2, H1, H0.
Qed.

Lemma append_length (a b : string) :
  String.length (a +:+ b) = (String.length a + String.length b)%nat.
Proof. induction a as [|c a IH]; simpl; [done|]. by rewrite IH. Qed.

Lemma append_inj_r (a b t : string) : a +:+ t = b +:+ t → a = b.
Proof.
  revert b. induction a as [|c a IH]; intros [|c' b] Heq.
  - done.
  - apply (f_equal String.length) in Heq.
    rewrite !append_length in Heq. simpl in Heq. lia.
  - apply (f_equal String.length) in Heq.
    rewrite !append_length in Heq. simpl in Heq. lia.
  - simpl in Heq. simplify_eq. f_equal. by apply IH.
Qed.

Lemma withPrefix_inj (a b : string) (p : Z) :
  withPrefix a p = withPrefix b p → a = b.
Proof. apply append_inj_r. Qed.

(** ** The registry *)

Section RegistryFacts.

Variable macColonHex : Z → string.

(** The default address is the one of the current counter. *)
Lemma hostDefaults_ip (net : Mininet) :
  (hostDefaults macColonHex net).2 !! "ip" =
  Some (VStr (withPrefix (ipAdd (nextIP net) (ipBaseNum (cfg net))
                                (prefixLen (cfg net)))
                         (prefixLen (cfg net)))).
Proof.
  unfold hostDefaults.
  destruct (autoSetMacs (cfg net)), (autoPinCpus (cfg net)); simpl;
    by simplify_map_eq.
Qed.

(** What one [addHost] changes. *)
Lemma addHost_fields (net : Mininet) (name : string) (cls : option ClassId)
    (params : gmap string PyVal) :
  let r := addHost macColonHex net name cls params in
  cfg r.1 = cfg net ∧
  nextIP r.1 = nextIP net + 1 ∧
  hosts r.1 = hosts net ++ [r.2] ∧
  nameToNode r.1 = <[ name := r.2 ]> (nameToNode net) ∧
  switches r.1 = switches net ∧
  controllers r.1 = controllers net ∧
  links r.1 = links net ∧
  allocated r.1 = S (allocated net) ∧
  nodeId r.2 = allocated net ∧
  nodeName r.2 = name ∧
  nodeParams r.2 = params ∪ (hostDefaults macColonHex net).2.
Proof.
  unfold addHost, hostDefaults.
  destruct (autoSetMacs (cfg net)), (autoPinCpus (cfg net)); simpl;
    repeat split.
Qed.

Lemma addSwitch_fields (net : Mininet) (name : string) (cls : option ClassId)
    (params : gmap string PyVal) :
  let r := addSwitch net name cls params in
  cfg r.1 = cfg net ∧
  nextIP r.1 = nextIP net ∧
  hosts r.1 = hosts net ∧
  nameToNode r.1 = <[ name := r.2 ]> (nameToNode net) ∧
  switches r.1 = switches net ++ [r.2] ∧
  controllers r.1 = controllers net ∧
  links r.1 = links net ∧
  allocated r.1 = S (allocated net) ∧
  nodeId r.2 = allocated net ∧
  nodeName r.2 = name.
Proof.
  unfold addSwitch. simpl.
  destruct (negb (inNamespace (cfg net)) && truthy (listenPort net)); simpl;
    repeat split.
Qed.

Lemma addController_fields (net : Mininet) (name : string + Node)
    (cls : option ClassId) (params : gmap string PyVal) :
  let r := addController net name cls params in
  cfg r.1 = cfg net ∧
  nextIP r.1 = nextIP net ∧
  hosts r.1 = hosts net ∧
  switches r.1 = switches net ∧
  controllers r.1 = controllers net ++ [r.2] ∧
  links r.1 = links net ∧
  (allocated net ≤ allocated r.1)%nat ∧
  match name with
  | inl s => nameToNode r.1 = <[ s := r.2 ]> (nameToNode net) ∧
             nodeId r.2 = allocated net ∧ nodeName r.2 = s
  | inr c => nameToNode r.1 = <[ nodeName c := c ]> (nameToNode net) ∧
             r.2 = c
  end.
Proof.
  unfold addController. destruct name as [s|c]; simpl; repeat split; lia.
Qed.

Lemma removeHost_fields (net : Mininet) (name : PyArg) :
  let r := removeHost net name in
  cfg r.1.1 = cfg net ∧ nextIP r.1.1 = nextIP net ∧
  allocated r.1.1 = allocated net ∧ hosts r.1.1 ⊆ hosts net.
Proof.
  unfold removeHost.
  destruct (get net _) as [h|]; [|done].
  pose proof (list_remove_subseteq h (hosts net)).
  destruct (decide (h ∈ hosts net)), name as [|s|m]; simpl; done.
Qed.

Lemma step_fields (net : Mininet) (op : Op) :
  cfg (step macColonHex net op) = cfg net ∧
  nextIP net ≤ nextIP (step macColonHex net op) ∧
  (allocated net ≤ allocated (step macColonHex net op))%nat.
Proof.
  destruct op as [c|name|name cls params|name cls params|]; cbn [step].
  - pose proof (addHost_fields net (callName c) (callCls c) (callParams c)).
    naive_solver lia.
  - pose proof (removeHost_fields net name). naive_solver lia.
  - pose proof (addSwitch_fields net name cls params). naive_solver lia.
  - pose proof (addController_fields net name cls params). naive_solver lia.
  - repeat split; simpl; lia.
Qed.

Lemma run_fields (ops : list Op) (net : Mininet) :
  cfg (run macColonHex net ops) = cfg net ∧
  nextIP net ≤ nextIP (run macColonHex net ops).
Proof.
  revert net. induction ops as [|op ops IH]; intros net; simpl.
  - split; [done|lia].
  - destruct (IH (step macColonHex net op)) as [Hc Hn].
    destruct (step_fields net op) as (Hc' & Hn' & _).
    unfold run in *. split; [congruence|lia].
Qed.

Lemma step_hostsAllocated (net : Mininet) (op : Op) :
  hostsAllocated net → hostsAllocated (step macColonHex net op).
Proof.
  unfold hostsAllocated. rewrite !Forall_forall. intros Hinv.
  destruct op as [c|name|name cls params|name cls params|]; cbn [step].
  - destruct (addHost_fields net (callName c) (callCls c) (callParams c))
      as (_ & _ & Hh & _ & _ & _ & _ & Ha & Hid & _).
    rewrite Hh, Ha. intros h [Hin| ->%list_elem_of_singleton]%elem_of_app.
    + specialize (Hinv h Hin). lia.
    + lia.
  - destruct (removeHost_fields net name) as (_ & _ & Ha & Hsub).
    rewrite Ha. intros h Hin. apply Hinv, Hsub, Hin.
  - destruct (addSwitch_fields net name cls params)
      as (_ & _ & Hh & _ & _ & _ & _ & Ha & _).
    rewrite Hh, Ha. intros h Hin. specialize (Hinv h Hin). lia.
  - destruct (addController_fields net name cls params)
      as (_ & _ & Hh & _ & _ & _ & Ha & _).
    rewrite Hh. intros h Hin. specialize (Hinv h Hin). lia.
  - done.
Qed.

(** Every network reached from a new one keeps its hosts allocated. *)
Lemma run_hostsAllocated (ops : list Op) (net : Mininet) :
  hostsAllocated net → hostsAllocated (run macColonHex net ops).
Proof.
  revert net. induction ops as [|op ops IH]; intros net Hinv; [done|].
  apply IH, step_hostsAllocated, Hinv.
Qed.

Lemma init_hostsAllocated (c : Config) (lp : option Z) :
  hostsAllocated (init c lp).
Proof. constructor. Qed.

(** Successive [addHost] calls consume successive counter values. *)
Lemma addHosts_fields (calls : list HostCall) (net : Mininet) :
  let r := addHosts macColonHex net calls in
  cfg r.1 = cfg net ∧
  nextIP r.1 = nextIP net + Z.of_nat (length calls) ∧
  r.2.*1 = seqZ (nextIP net) (Z.of_nat (length calls)) ∧
  (Forall (λ c, callParams c !! "ip" = None) calls →
   hostIP <$> r.2.*2 =
   (λ k, Some (VStr (withPrefix (ipAdd k (ipBaseNum (cfg net))
                                        (prefixLen (cfg net)))
                                (prefixLen (cfg net)))))
     <$> seqZ (nextIP net) (Z.of_nat (length calls))).
Proof.
  revert net. induction calls as [|c calls IH]; intros net.
  - simpl. repeat split; try done; lia.
  - cbn [addHosts].
    pose proof (addHost_fields net (callName c) (callCls c) (callParams c))
      as (Hc & Hn & _ & _ & _ & _ & _ & _ & _ & _ & Hp).
    destruct (addHost macColonHex net (callName c) (callCls c) (callParams c))
      as [net1 h] eqn:Hadd.
    specialize (IH net1).
    destruct (addHosts macColonHex net1 calls) as [net2 hs] eqn:Hrest.
    cbn [fst snd] in *. destruct IH as (IHc & IHn & IHk & IHip).
    rewrite Hc in *. rewrite Hn in *.
    assert (Hseq : seqZ (nextIP net) (Z.of_nat (length (c :: calls))) =
                   nextIP net :: seqZ (nextIP net + 1) (Z.of_nat (length calls))).
    { cbn [length]. rewrite seqZ_cons by lia. f_equal. f_equal; lia. }
    rewrite Hseq, !fmap_cons. cbn [fst snd length]. repeat split.
    + done.
    + lia.
    + f_equal. exact IHk.
    + intros Hno. apply Forall_cons in Hno as [Hno1 Hno].
      rewrite (IHip Hno). f_equal.
      unfold hostIP. rewrite Hp.
      rewrite lookup_union_r by done. apply hostDefaults_ip.
Qed.

End RegistryFacts.

(** ** [randMac] *)

Lemma randMacBits_range (r : Z) : 0 ≤ randMacBits r < 2 ^ 48.
Proof.
  unfold randMacBits. split.
  - apply Z.lor_nonneg. split; [apply Z.land_nonneg; right|]; lia.
  - assert (Hb : ∀ n, 48 ≤ n →
      Z.testbit (Z.lor (Z.land r 0xfeffffffffff) 0x020000000000) n = false).
    { intros n Hn. rewrite Z.lor_spec, Z.land_spec.
      rewrite (Z.bits_above_log2 0xfeffffffffff n) by (simpl; lia).
      rewrite (Z.bits_above_log2 0x020000000000 n) by (simpl; lia).
      by rewrite andb_false_r. }
    assert (Hnn : 0 ≤ Z.lor (Z.land r 0xfeffffffffff) 0x020000000000).
    { apply Z.lor_nonneg. split; [apply Z.land_nonneg; right|]; lia. }
    destruct (Z_lt_le_dec (Z.lor (Z.land r 0xfeffffffffff) 0x020000000000)
                          (2 ^ 48)) as [|Hge]; [done|].
    exfalso.
    set (v := Z.lor (Z.land r 0xfeffffffffff) 0x020000000000) in *.
    assert (Hpos : 0 < v) by lia.
    pose proof (Z.bit_log2 v Hpos) as Hl.
    rewrite Hb in Hl; [done|].
    apply Z.log2_le_pow2; lia.
Qed.

(** C3: for every draw [r] of [random.randint(1, 2**48 - 1)] the
    number [randMac] prints is a 48-bit number whose first octet has
    bit 0 (multicast) clear and bit 1 (locally administered) set. *)
Theorem randMac_unicast_local (r : Z) :
  1 ≤ r ≤ 2 ^ 48 - 1 →
  0 ≤ randMacBits r < 2 ^ 48 ∧
  Z.testbit (firstOctet (randMacBits r)) 0 = false ∧
  Z.testbit (firstOctet (randMacBits r)) 1 = true.
Proof.
  intros _. split; [apply randMacBits_range|].
  unfold firstOctet, randMacBits.
  rewrite !Z.land_spec, !Z.shiftr_spec, !Z.lor_spec, !Z.land_spec by lia.
  simpl. by rewrite andb_false_r, orb_true_r.
Qed.

Lemma randMac_unicast_local_witness :
  1 ≤ 0xffffffffffff ≤ 2 ^ 48 - 1 ∧
  firstOctet (randMacBits 0xffffffffffff) = 0xfe ∧
  Z.testbit (firstOctet (randMacBits 0xffffffffffff)) 0 = false.
Proof.
  split; [lia|]. split; [reflexivity|].
  apply (randMac_unicast_local 0xffffffffffff). lia.
Defined.

(** ** Registering a name twice *)


Section RegistryClaims.

Variable macColonHex : Z → string.




End RegistryClaims.



(** ** Default addresses *)

Lemma seqZ_increasing (m : Z) (n : nat) :
  StronglySorted Z.lt (seqZ m (Z.of_nat n)).
Proof.
  induction n as [|n IH].
  - constructor.
  - rewrite seqZ_S. apply StronglySorted_app_2; [|done|repeat constructor].
    intros x y Hx ->%list_elem_of_singleton.
    apply elem_of_seqZ in Hx. lia.
Qed.

Section AddressClaims.

Variable macColonHex : Z → string.


End AddressClaims.



(** ** Removing a link by its end nodes *)

Lemma nodeEq_true (n : Node) (a : PyArg) : nodeEq n a = true ↔ PNode n = a.
Proof.
  destruct a as [|s|m]; simpl; [done..|].
  rewrite bool_decide_eq_true. split; congruence.
Qed.

Lemma findLink_joins (l : Link) (a b : PyArg) :
  (nodeEq (node (intf1 l)) a && nodeEq (node (intf2 l)) b
   || nodeEq (node (intf1 l)) b && nodeEq (node (intf2 l)) a) = true
  ↔ joins l a b.
Proof.
  unfold joins.
  rewrite orb_true_iff, !andb_true_iff, !nodeEq_true. done.
Qed.

(** The search returns the first link that joins the two ends. *)
Lemma findLink_first (ls : list Link) (a b : PyArg) :
  match findLink ls a b with
  | None => ∀ l, l ∈ ls → ¬ joins l a b
  | Some l => ∃ pre post, ls = pre ++ l :: post ∧ joins l a b ∧
                          ∀ l', l' ∈ pre → ¬ joins l' a b
  end.
Proof.
  induction ls as [|l ls IH]; simpl.
  - intros l Hl. by apply elem_of_nil in Hl.
  - pose proof (findLink_joins l a b) as Hj.
    destruct (nodeEq (node (intf1 l)) a && nodeEq (node (intf2 l)) b) eqn:H1.
    { exists [], ls. split; [done|]. split; [by apply Hj|].
      intros l' Hl'. by apply elem_of_nil in Hl'. }
    destruct (nodeEq (node (intf1 l)) b && nodeEq (node (intf2 l)) a) eqn:H2.
    { exists [], ls. split; [done|]. split; [by apply Hj|].
      intros l' Hl'. by apply elem_of_nil in Hl'. }
    assert (Hnot : ¬ joins l a b).
    { intros Hjoin. apply Hj in Hjoin. done. }
    destruct (findLink ls a b) as [l0|].
    + destruct IH as (pre & post & -> & Hjoin & Hpre).
      exists (l :: pre), post. split; [done|]. split; [done|].
      intros l' [->|Hin]%elem_of_cons; [done|by apply Hpre].
    + intros l' [->|Hin]%elem_of_cons; [done|by apply IH].
Qed.

(** Two ends that stand for two nodes reach the search as these
    nodes. *)
Lemma namedEnds_some (net : Mininet) (a b : PyArg) (n1 n2 : Node) :
  namedEnds net a b = Some (n1, n2) →
  linkEnds net a b = (PNode n1, PNode n2).
Proof.
  unfold namedEnds, linkEnds, get.
  destruct a as [|s1|m1], b as [|s2|m2]; try done.
  - destruct (nameToNode net !! s1), (nameToNode net !! s2); try done.
    by intros [= -> ->].
  - by intros [= -> ->].
Qed.

(** Other ends reach the search with an end that is no node, which no
    link joins. *)
Lemma namedEnds_none (net : Mininet) (a b : PyArg) (l : Link) :
  namedEnds net a b = None →
  ¬ joins l (linkEnds net a b).1 (linkEnds net a b).2.
Proof.
  unfold namedEnds, linkEnds, get, joins.
  destruct a as [|s1|m1], b as [|s2|m2]; try done; cbn;
    try (intros _ [[? ?]|[? ?]]; done).
  destruct (nameToNode net !! s1), (nameToNode net !! s2); try done; cbn;
    intros _ [[? ?]|[? ?]]; done.
Qed.

(** C7, amended: [removeLink] given two ends and no link object never
    raises.  Two node objects stand for themselves, and two registered
    names for the nodes of these names: when no link joins the two
    nodes it reports the failure and leaves the network as it was;
    otherwise it deletes the first link of the list that joins them, in
    either order, and takes exactly that entry out of the list.  For
    any other ends (a name that is not registered, a name with a node
    object, a missing end) it reports the failure and leaves the
    network as it was, whatever the links are. *)
Theorem removeLink_by_ends (net : Mininet) (node1 node2 : PyArg) :
  let r := removeLink net None node1 node2 in
  r.2 = Returned ∧
  match namedEnds net node1 node2 with
  | None =>
      r.1 = (net, [ReportError "Couldn't find link to be removed."])
  | Some (n1, n2) =>
      ((∀ l, l ∈ links net → ¬ joins l (PNode n1) (PNode n2)) ∧
       r.1 = (net, [ReportError "Couldn't find link to be removed."])) ∨
      (∃ l pre post,
         links net = pre ++ l :: post ∧ joins l (PNode n1) (PNode n2) ∧
         (∀ l', l' ∈ pre → ¬ joins l' (PNode n1) (PNode n2)) ∧
         links r.1.1 = pre ++ post ∧
         r.1.2 = [LinkDelete l] ∧
         sameRegistry net r.1.1)
  end.
Proof.
  intros r. subst r. unfold removeLink.
  pose proof (findLink_first (links net) (linkEnds net node1 node2).1
                (linkEnds net node1 node2).2) as Hfind.
  destruct (namedEnds net node1 node2) as [[n1 n2]|] eqn:Hn.
  - rewrite (namedEnds_some _ _ _ _ _ Hn) in *. cbn [fst snd] in Hfind.
    destruct (findLink (links net) (PNode n1) (PNode n2)) as [l|].
    + destruct Hfind as (pre & post & Hls & Hjoin & Hpre).
      rewrite decide_True by (rewrite Hls; set_solver).
      cbn. split; [done|]. right. exists l, pre, post.
      repeat split; try done.
      rewrite Hls. apply list_remove_middle.
      intros Hin. by apply (Hpre l).
    + cbn. split; [done|]. by left.
  - pose proof (λ l, namedEnds_none net node1 node2 l Hn) as Hnone.
    destruct (linkEnds net node1 node2) as [a b]. cbn [fst snd] in *.
    destruct (findLink (links net) a b) as [l|]; [|done].
    destruct Hfind as (pre & post & Hls & Hjoin & _).
    by destruct (Hnone l).
Qed.

(** C7, as stated, fails: [link_s1_s2] joins the switch of the name
    [s1] and the switch [s2], and [removeLink] given the name of the one
    and the node object of the other reports that there is no such link
    and leaves the links as they were; so it does given the two names
    when one is not registered.  Given the two registered names, or the
    two node objects, it deletes the link. *)
Lemma removeLink_name_and_node_fails :
  nameToNode net_2sw_linked !! "s1" = Some s1 ∧
  links net_2sw_linked = [link_s1_s2] ∧
  joins link_s1_s2 (PNode s1) (PNode s2) ∧
  removeLink net_2sw_linked None (PStr "s1") (PNode s2) =
    (net_2sw_linked, [ReportError "Couldn't find link to be removed."],
     Returned) ∧
  removeLink net_2sw_linked None (PNode s1) (PStr "s2") =
    (net_2sw_linked, [ReportError "Couldn't find link to be removed."],
     Returned) ∧
  removeLink net_2sw_linked None (PStr "s1") (PStr "s9") =
    (net_2sw_linked, [ReportError "Couldn't find link to be removed."],
     Returned) ∧
  removeLink net_2sw_linked None (PStr "s1") (PStr "s2") =
    (net_2sw, [LinkDelete link_s1_s2], Returned) ∧
  removeLink net_2sw_linked None (PNode s2) (PNode s1) =
    (net_2sw, [LinkDelete link_s1_s2], Returned).
Proof.
  split; [by vm_compute|]. split; [by vm_compute|].
  split; [left; split; reflexivity|].
  repeat split; vm_compute; reflexivity.
Qed.

(** ** Sorting and grouping by class *)

Lemma filter_none {A} (P : A → Prop) `{∀ x, Decision (P x)} (l : list A) :
  (∀ x, x ∈ l → ¬ P x) → filter P l = [].
Proof.
  induction l as [|x l IH]; intros Hno; [done|].
  rewrite filter_cons, decide_False by (apply Hno; left).
  apply IH. intros y Hy. apply Hno. by right.
Qed.

Section Grouping.

Context {A : Type} (key : A → nat).

Lemma elem_of_insertByKey (x y : A) (l : list A) :
  y ∈ insertByKey key x l ↔ y = x ∨ y ∈ l.
Proof.
  induction l as [|z l IH]; simpl.
  - set_solver.
  - destruct (decide (key x ≤ key z)%nat); set_solver.
Qed.

Lemma elem_of_sortedByKey (y : A) (l : list A) :
  y ∈ sortedByKey key l ↔ y ∈ l.
Proof.
  induction l as [|x l IH]; simpl; [done|].
  rewrite elem_of_insertByKey, IH. set_solver.
Qed.

Lemma insertByKey_sorted (x : A) (l : list A) :
  StronglySorted (keyLe key) l →
  StronglySorted (keyLe key) (insertByKey key x l).
Proof.
  induction 1 as [|z l Hl IH Hz]; simpl.
  - repeat constructor.
  - destruct (decide (key x ≤ key z)%nat) as [Hle|Hgt].
    + constructor; [by constructor|].
      constructor; [done|].
      eapply Forall_impl; [exact Hz|]. unfold keyLe. intros; lia.
    + constructor; [done|].
      apply Forall_forall. intros y [->|Hy]%elem_of_insertByKey.
      * unfold keyLe. lia.
      * rewrite Forall_forall in Hz. by apply Hz.
Qed.

Lemma sortedByKey_sorted (l : list A) :
  StronglySorted (keyLe key) (sortedByKey key l).
Proof.
  induction l as [|x l IH]; simpl; [constructor|].
  by apply insertByKey_sorted.
Qed.

(** The sort is stable: the elements of one key keep their order. *)
Lemma filter_insertByKey (k : nat) (x : A) (l : list A) :
  filter (λ y, key y = k) (insertByKey key x l) =
  filter (λ y, key y = k) (x :: l).
Proof.
  induction l as [|z l IH]; simpl; [done|].
  destruct (decide (key x ≤ key z)%nat) as [Hle|Hgt]; [done|].
  rewrite filter_cons, IH, !filter_cons.
  destruct (decide (key z = k)), (decide (key x = k)); try done.
  lia.
Qed.

Lemma filter_sortedByKey (k : nat) (l : list A) :
  filter (λ y, key y = k) (sortedByKey key l) = filter (λ y, key y = k) l.
Proof.
  induction l as [|x l IH]; simpl; [done|].
  by rewrite filter_insertByKey, !filter_cons, IH.
Qed.

(** The first group starts with the first element. *)
Lemma groupby_head (x : A) (l : list A) :
  ∃ g gs, groupby key (x :: l) = (key x, x :: g) :: gs.
Proof.
  simpl. destruct (groupby key l) as [|[k g] gs]; [by eexists _, _|].
  destruct (decide (key x = k)) as [->|]; by eexists _, _.
Qed.

Lemma groupby_keys (l : list A) (k : nat) :
  k ∈ (groupby key l).*1 ↔ ∃ x, x ∈ l ∧ key x = k.
Proof.
  induction l as [|x l IH]; simpl.
  - split; [by intros ?%elem_of_nil|]. by intros (? & ?%elem_of_nil & _).
  - destruct (groupby key l) as [|[k' g] gs] eqn:Hg; simpl in *.
    + rewrite list_elem_of_singleton. split.
      * intros ->. exists x. split; [left|done].
      * intros (y & [->|Hy]%elem_of_cons & Hk); [done|].
        exfalso. assert (Hin : k ∈ []) by (apply IH; eauto).
        by apply elem_of_nil in Hin.
    + destruct (decide (key x = k')) as [Hx|Hx]; simpl.
      * rewrite IH. split.
        -- intros (y & Hy & Hk). exists y. split; [by right|done].
        -- intros (y & [->|Hy]%elem_of_cons & Hk); [|by eauto].
           apply IH. set_solver.
      * rewrite elem_of_cons, IH. split.
        -- intros [->|(y & Hy & Hk)]; [exists x|exists y];
             (split; [set_solver|done]).
        -- intros (y & [->|Hy]%elem_of_cons & Hk); [by left|right; eauto].
Qed.

(** On a sorted list every class has one group, which holds all the
    elements of the class. *)
Lemma groupby_sorted (l : list A) :
  StronglySorted (keyLe key) l →
  NoDup (groupby key l).*1 ∧
  ∀ k g, (k, g) ∈ groupby key l →
         g = filter (λ y, key y = k) l ∧ g ≠ [].
Proof.
  induction 1 as [|x l Hl IH Hx]; simpl.
  - split; [constructor|]. by intros k g ?%elem_of_nil.
  - destruct IH as [IHnd IHg]. rewrite Forall_forall in Hx.
    pose proof (groupby_keys l) as Hkeys.
    destruct (groupby key l) as [|[k' g'] gs] eqn:Hg.
    + assert (l = []) as ->.
      { destruct l as [|y l]; [done|].
        destruct (groupby_head y l) as (? & ? & Hh). congruence. }
      split; [repeat constructor; set_solver|].
      intros k g [= -> ->]%list_elem_of_singleton.
      rewrite filter_cons, decide_True by done. done.
    + assert (Hlow : ∀ z, z ∈ l → (k' ≤ key z)%nat).
      { destruct l as [|y l']; [by intros z ?%elem_of_nil|].
        destruct (groupby_head y l') as (? & ? & Hh).
        rewrite Hh in Hg. injection Hg as <- _ _.
        apply StronglySorted_cons in Hl as [Hy _].
        rewrite Forall_forall in Hy.
        intros z [->|Hz]%elem_of_cons; [lia|by apply Hy]. }
      assert (Hk' : (key x ≤ k')%nat).
      { destruct (proj1 (Hkeys k')) as (y & Hy & <-); [set_solver|].
        by apply Hx. }
      destruct (decide (key x = k')) as [Hxk|Hxk].
      * split; [done|]. intros k g [[= -> ->]|Hin]%elem_of_cons.
        -- destruct (IHg k' g') as [-> _]; [left|].
           rewrite filter_cons, decide_True by done. done.
        -- destruct (IHg k g) as [-> Hne]; [by right|]. split; [|done].
           rewrite filter_cons, decide_False; [done|].
           intros Heq. apply NoDup_cons in IHnd as [Hnot _].
           apply Hnot. simpl. rewrite <-Hxk, Heq.
           apply list_elem_of_fmap. by exists (k, filter (λ y, key y = k) l).
      * assert (Hnone : ∀ z, z ∈ l → key z ≠ key x).
        { intros z Hz. specialize (Hlow z Hz). lia. }
        split.
        -- apply NoDup_cons. split; [|done].
           intros (z & Hz & Heq)%Hkeys. by apply (Hnone z).
        -- intros k g [[= -> ->]|Hin]%elem_of_cons.
           ++ rewrite filter_cons, decide_True by done. split; [|done].
              f_equal. symmetry. apply filter_none. exact Hnone.
           ++ destruct (IHg k g Hin) as [-> Hne]. split; [|done].
              rewrite filter_cons, decide_False; [done|].
              intros Heq.
              destruct (proj1 (Hkeys k)) as (z & Hz & Hzk).
              { apply list_elem_of_fmap. by exists (k, filter (λ y, key y = k) l). }
              apply (Hnone z Hz). congruence.
Qed.

End Grouping.

Lemma foldl_emit_ext {A B} (g : list A → B → list A) (f : B → list A)
    (l : list B) (tr : list A) :
  (∀ tr x, g tr x = tr ++ f x) → foldl g tr l = tr ++ (l ≫= f).
Proof.
  intros Hg. revert tr. induction l as [|x l IH]; intros tr; simpl.
  - by rewrite app_nil_r.
  - by rewrite IH, Hg, app_assoc.
Qed.

(** One group for every class that has a switch, made of all the
    switches of the class, in the order of the registry. *)
Lemma classGroups_spec (sws : list Node) :
  NoDup (classGroups sws).*1 ∧
  ∀ c g, (c, g) ∈ classGroups sws ↔
         g = filter (λ s, nodeClass s = c) sws ∧ g ≠ [].
Proof.
  unfold classGroups.
  destruct (groupby_sorted nodeClass (sortedByKey nodeClass sws)
              (sortedByKey_sorted nodeClass sws)) as [Hnd Hg].
  split; [done|]. intros c g. split.
  - intros [-> Hne]%Hg. rewrite filter_sortedByKey in Hne |- *. done.
  - intros [-> Hne].
    destruct (filter (λ s, nodeClass s = c) sws) as [|x l] eqn:Hf; [done|].
    assert (Hx : x ∈ filter (λ s, nodeClass s = c) sws) by (rewrite Hf; left).
    apply list_elem_of_filter in Hx as [Hc Hx].
    assert (Hk : c ∈ (groupby nodeClass (sortedByKey nodeClass sws)).*1).
    { apply groupby_keys. exists x. by rewrite elem_of_sortedByKey. }
    apply list_elem_of_fmap in Hk as ([c' g'] & -> & Hin).
    destruct (Hg _ _ Hin) as [Hg' _]. simpl in *.
    rewrite filter_sortedByKey, Hf in Hg'. by subst.
Qed.

(** The batch loop of [start] and [stop]: a call for every group whose
    class has the method, and the keys of the dictionary it fills. *)
Lemma batch_loop (has : ClassId → bool) (call : ClassId → list Node → list Node)
    (ev : ClassId → list Node → Event)
    (groups : list (ClassId * list Node)) (done_ : list Node)
    (tr : list Event) :
  ∃ done',
    foldl (λ '(done_, tr) '(swclass, sws),
             if has swclass
             then (call swclass sws ++ done_, tr ++ [ev swclass sws])
             else (done_, tr))
          (done_, tr) groups
    = (done', tr ++ ((λ g, ev g.1 g.2) <$> filter (λ g, has g.1 = true) groups))
    ∧ ∀ s, s ∈ done' ↔
           s ∈ done_ ∨
           ∃ g, g ∈ filter (λ g, has g.1 = true) groups ∧ s ∈ call g.1 g.2.
Proof.
  revert done_ tr. induction groups as [|[c sws] groups IH]; intros done_ tr.
  - exists done_. simpl. rewrite app_nil_r. split; [done|].
    intros s. split; [by left|]. intros [?|(g & ?%elem_of_nil & _)]; done.
  - simpl. rewrite filter_cons. simpl. destruct (has c) eqn:Hc.
    + destruct (IH (call c sws ++ done_) (tr ++ [ev c sws]))
        as (done' & -> & Hd).
      exists done'. rewrite decide_True by done.
      split; [by rewrite fmap_cons, <-app_assoc|].
      intros s. rewrite Hd, elem_of_app. split.
      * intros [[Hs|Hs]|(g & Hg & Hs)].
        -- right. exists (c, sws). split; [left|done].
        -- by left.
        -- right. exists g. split; [by right|done].
      * intros [Hs|(g & [->|Hg]%elem_of_cons & Hs)].
        -- left. by right.
        -- left. by left.
        -- right. eauto.
    + destruct (IH done_ tr) as (done' & -> & Hd).
      exists done'. rewrite decide_False by done. done.
Qed.

(** ** The stop sequence *)

Lemma bind_singleton {A B} (f : A → B) (l : list A) :
  l ≫= (λ x, [f x]) = f <$> l.
Proof. induction l as [|x l IH]; [done|]. by rewrite bind_cons, fmap_cons, IH. Qed.

Section StopFacts.

Variable classes : SwitchClasses.

(** The calls of [stop], stage by stage. *)
Lemma stop_stages (net : Mininet) :
  ∃ stopped : list Node,
    (∀ s, s ∈ stopped ↔ batchStopped classes net s) ∧
    stop classes net =
      (ControllerStop <$> controllers net) ++
      termEvents net ++
      (LinkStop <$> links net) ++
      ((λ g, BatchShutdown g.1 g.2) <$>
         batchCalls (hasBatchShutdown classes) (switches net)) ++
      (switches net ≫= λ sw,
         (if decide (sw ∈ stopped) then [] else [SwitchStop sw]) ++
         [SwitchTerminate sw]) ++
      (HostTerminate <$> hosts net).
Proof.
  unfold stop, stopBatches.
  set (tr1 := foldl (λ tr c, tr ++ [ControllerStop c]) [] (controllers net)).
  set (tr2 := match terms net with [] => tr1 | _ => stopXterms net tr1 end).
  set (tr3 := foldl (λ tr l, tr ++ [LinkStop l]) tr2 (links net)).
  destruct (batch_loop (hasBatchShutdown classes) (batchShutdown classes)
              BatchShutdown (classGroups (switches net)) [] tr3)
    as (stopped & Hfold & Hstopped).
  unfold classGroups in Hfold. rewrite Hfold.
  exists stopped. split.
  { intros s. rewrite Hstopped. unfold batchStopped, batchCalls, classGroups.
    split; [intros [?%elem_of_nil|?]; done|by right]. }
  rewrite (foldl_emit_ext _ (λ h, [HostTerminate h])) by done.
  rewrite (foldl_emit_ext _
             (λ sw, (if decide (sw ∈ stopped) then [] else [SwitchStop sw]) ++
                    [SwitchTerminate sw])).
  2:{ intros tr sw. destruct (decide (sw ∈ stopped)); simpl; [done|].
      by rewrite <-app_assoc. }
  subst tr3. rewrite (foldl_emit_ext _ (λ l, [LinkStop l])) by done.
  assert (Htr2 : tr2 = (ControllerStop <$> controllers net) ++ termEvents net).
  { subst tr2 tr1. rewrite (foldl_emit_ext _ (λ c, [ControllerStop c])) by done.
    rewrite bind_singleton. unfold termEvents, stopXterms. simpl.
    destruct (terms net); [by rewrite app_nil_r|].
    rewrite (foldl_emit_ext _ (λ pid, [Kill pid])) by done.
    by rewrite bind_singleton, <-app_assoc. }
  rewrite Htr2, !bind_singleton. unfold batchCalls, classGroups.
  by rewrite <-!app_assoc.
Qed.

(** The [batchShutdown] calls of [stop] are its batch calls. *)
Lemma stop_batch_events (net : Mininet) (c : ClassId) (g : list Node) :
  BatchShutdown c g ∈ stop classes net ↔
  (c, g) ∈ batchCalls (hasBatchShutdown classes) (switches net).
Proof.
  destruct (stop_stages net) as (stopped & _ & ->).
  rewrite !elem_of_app, !list_elem_of_fmap, list_elem_of_bind.
  unfold termEvents. split.
  - intros [(? & ? & _)|[Ht|[(? & ? & _)|[([c' g'] & Heq & Hin)
                                         |[(sw & He & _)|(? & ? & _)]]]]];
      try done.
    + destruct (terms net); [by apply elem_of_nil in Ht|].
      apply elem_of_app in Ht as [(? & ? & _)%list_elem_of_fmap|Ht];
        [done|]. by apply list_elem_of_singleton in Ht.
    + cbn in Heq. by injection Heq as -> ->.
    + destruct (decide (sw ∈ stopped)); cbn in He;
        repeat (apply elem_of_cons in He as [He|He]; [done|]);
        by apply elem_of_nil in He.
  - intros Hin. do 3 right. left. by exists (c, g).
Qed.

Lemma shutdownClasses_none (l : list Event) :
  (∀ e, e ∈ l → ∀ c g, e ≠ BatchShutdown c g) → shutdownClasses l = [].
Proof.
  induction l as [|e l IH]; intros Hnone; [done|].
  unfold shutdownClasses in *. cbn [omap list_omap].
  rewrite IH by (intros; apply Hnone; by right).
  destruct e; try done. exfalso. by eapply (Hnone _ ltac:(left)).
Qed.

(** [stop] calls [batchShutdown] once for a class. *)
Lemma stop_shutdownClasses (net : Mininet) :
  shutdownClasses (stop classes net) =
  (batchCalls (hasBatchShutdown classes) (switches net)).*1.
Proof.
  destruct (stop_stages net) as (stopped & _ & ->).
  unfold shutdownClasses. rewrite !omap_app.
  fold (shutdownClasses (ControllerStop <$> controllers net)).
  fold (shutdownClasses (termEvents net)).
  fold (shutdownClasses (LinkStop <$> links net)).
  fold (shutdownClasses (HostTerminate <$> hosts net)).
  fold (shutdownClasses
          (switches net ≫= λ sw,
             (if decide (sw ∈ stopped) then [] else [SwitchStop sw]) ++
             [SwitchTerminate sw])).
  rewrite (shutdownClasses_none (ControllerStop <$> controllers net)),
    (shutdownClasses_none (termEvents net)),
    (shutdownClasses_none (LinkStop <$> links net)),
    (shutdownClasses_none (HostTerminate <$> hosts net)),
    (shutdownClasses_none (switches net ≫= _)).
  - rewrite !app_nil_r. cbn [app].
    induction (batchCalls (hasBatchShutdown classes) (switches net))
      as [|[c g] l IH]; [done|].
    rewrite !fmap_cons. cbn [omap list_omap fst snd]. by rewrite IH.
  - intros e (sw & He & _)%list_elem_of_bind c g ->.
    destruct (decide (sw ∈ stopped)); cbn in He;
      repeat (apply elem_of_cons in He as [He|He]; [done|]);
      by apply elem_of_nil in He.
  - intros e (h & -> & _)%list_elem_of_fmap. done.
  - intros e (l & -> & _)%list_elem_of_fmap. done.
  - intros e He c g ->. unfold termEvents in He.
    destruct (terms net); [by apply elem_of_nil in He|].
    apply elem_of_app in He as [(? & ? & _)%list_elem_of_fmap|He];
      [done|]. by apply list_elem_of_singleton in He.
  - intros e (x & -> & _)%list_elem_of_fmap. done.
Qed.

End StopFacts.

Lemma stage_blocks_sorted (l1 l2 : list Event) (a : nat) :
  Forall (λ e, (stage e ≤ a)%nat) l1 → Forall (λ e, (a ≤ stage e)%nat) l2 →
  StronglySorted stageLe l1 → StronglySorted stageLe l2 →
  StronglySorted stageLe (l1 ++ l2).
Proof.
  rewrite !Forall_forall. intros H1 H2 S1 S2.
  apply StronglySorted_app_2; [|done..].
  intros x1 x2 Hx1 Hx2. specialize (H1 _ Hx1). specialize (H2 _ Hx2).
  unfold stageLe. lia.
Qed.

Lemma stage_block_sorted (l : list Event) (a : nat) :
  Forall (λ e, stage e = a) l → StronglySorted stageLe l.
Proof.
  induction 1 as [|e l He Hl IH]; constructor; [done|].
  eapply Forall_impl; [exact Hl|]. unfold stageLe. intros; simpl in *; lia.
Qed.

(** The calls a batch method gets: one for every class that has the
    method and a switch, with all the switches of the class. *)
Lemma batchCalls_spec (has : ClassId → bool) (sws : list Node) :
  NoDup (batchCalls has sws).*1 ∧
  ∀ c g, (c, g) ∈ batchCalls has sws ↔
         has c = true ∧ g = filter (λ s, nodeClass s = c) sws ∧ g ≠ [].
Proof.
  destruct (classGroups_spec sws) as [Hnd Hg]. unfold batchCalls. split.
  - eapply sublist_NoDup; [exact Hnd|].
    apply fmap_sublist, sublist_filter.
  - intros c g. rewrite list_elem_of_filter, Hg. done.
Qed.

Section StopClaims.

Variable classes : SwitchClasses.

(** C5: the calls of [stop] are, in this order, the stop of every
    controller, the kill of every terminal (and the clean-up of the
    screens), the stop of every link, one [batchShutdown] for every class
    that has the method and a switch, with all the switches of the class,
    then for every switch its own stop, unless a [batchShutdown] call of
    this run reported it, and its termination, and last the termination
    of every host; no call of a later stage precedes a call of an earlier
    one. *)
Theorem stop_in_stage_order (net : Mininet) :
  let calls := batchCalls (hasBatchShutdown classes) (switches net) in
  (∃ stopped : list Node,
     (∀ s, s ∈ stopped ↔
           ∃ c g, BatchShutdown c g ∈ stop classes net ∧
                  s ∈ batchShutdown classes c g) ∧
     stop classes net =
       (ControllerStop <$> controllers net) ++
       termEvents net ++
       (LinkStop <$> links net) ++
       ((λ g, BatchShutdown g.1 g.2) <$> calls) ++
       (switches net ≫= λ sw,
          (if decide (sw ∈ stopped) then [] else [SwitchStop sw]) ++
          [SwitchTerminate sw]) ++
       (HostTerminate <$> hosts net)) ∧
  NoDup calls.*1 ∧
  (∀ c g, (c, g) ∈ calls ↔
          hasBatchShutdown classes c = true ∧
          g = filter (λ s, nodeClass s = c) (switches net) ∧ g ≠ []) ∧
  StronglySorted stageLe (stop classes net) ∧
  Forall (λ e, (stage e ≤ 5)%nat) (stop classes net) ∧
  (∀ c, c ∈ controllers net → ControllerStop c ∈ stop classes net) ∧
  (∀ pid, pid ∈ terms net → Kill pid ∈ stop classes net) ∧
  (∀ l, l ∈ links net → LinkStop l ∈ stop classes net) ∧
  (∀ c g, (c, g) ∈ calls → BatchShutdown c g ∈ stop classes net) ∧
  (∀ s, s ∈ switches net → SwitchTerminate s ∈ stop classes net) ∧
  (∀ h, h ∈ hosts net → HostTerminate h ∈ stop classes net).
Proof.
  intros calls.
  split.
  { destruct (stop_stages classes net) as (stopped & Hstopped & Heq).
    exists stopped. split; [|exact Heq].
    intros s. rewrite Hstopped. unfold batchStopped. split.
    - intros ([c g] & Hg & Hs). exists c, g. split; [|done].
      by apply stop_batch_events.
    - intros (c & g & He & Hs). exists (c, g). split; [|done].
      by apply stop_batch_events. }
  split; [apply batchCalls_spec|].
  split; [apply batchCalls_spec|].
  assert (Hb : ∀ c g, (c, g) ∈ calls → BatchShutdown c g ∈ stop classes net).
  { intros c g Hin. by apply stop_batch_events. }
  revert Hb. subst calls.
  destruct (stop_stages classes net) as (stopped & _ & ->).
  assert (H0 : Forall (λ e, stage e = 0%nat) (ControllerStop <$> controllers net)).
  { by apply Forall_fmap, Forall_true. }
  assert (H1 : Forall (λ e, stage e = 1%nat) (termEvents net)).
  { unfold termEvents. destruct (terms net) as [|pid pids]; [constructor|].
    apply Forall_app. split; [by apply Forall_fmap, Forall_true|].
    by repeat constructor. }
  assert (H2 : Forall (λ e, stage e = 2%nat) (LinkStop <$> links net)).
  { by apply Forall_fmap, Forall_true. }
  assert (H3 : Forall (λ e, stage e = 3%nat)
                 ((λ g, BatchShutdown g.1 g.2) <$>
                    batchCalls (hasBatchShutdown classes) (switches net))).
  { by apply Forall_fmap, Forall_true. }
  assert (H4 : Forall (λ e, stage e = 4%nat)
                 (switches net ≫= λ sw,
                    (if decide (sw ∈ stopped) then [] else [SwitchStop sw]) ++
                    [SwitchTerminate sw])).
  { apply Forall_forall. intros e (sw & He & _)%list_elem_of_bind.
    destruct (decide (sw ∈ stopped)); set_solver. }
  assert (H5 : Forall (λ e, stage e = 5%nat) (HostTerminate <$> hosts net)).
  { by apply Forall_fmap, Forall_true. }
  intros Hb. split; [|split].
  - apply (stage_blocks_sorted _ _ 0%nat);
      [eapply Forall_impl; [exact H0|simpl; lia]| |
       by eapply stage_block_sorted|].
    { rewrite !Forall_app. repeat split;
        (eapply Forall_impl; [eassumption|simpl; lia]). }
    apply (stage_blocks_sorted _ _ 1%nat);
      [eapply Forall_impl; [exact H1|simpl; lia]| |
       by eapply stage_block_sorted|].
    { rewrite !Forall_app. repeat split;
        (eapply Forall_impl; [eassumption|simpl; lia]). }
    apply (stage_blocks_sorted _ _ 2%nat);
      [eapply Forall_impl; [exact H2|simpl; lia]| |
       by eapply stage_block_sorted|].
    { rewrite !Forall_app. repeat split;
        (eapply Forall_impl; [eassumption|simpl; lia]). }
    apply (stage_blocks_sorted _ _ 3%nat);
      [eapply Forall_impl; [exact H3|simpl; lia]| |
       by eapply stage_block_sorted|].
    { rewrite !Forall_app. repeat split;
        (eapply Forall_impl; [eassumption|simpl; lia]). }
    apply (stage_blocks_sorted _ _ 4%nat);
      [eapply Forall_impl; [exact H4|simpl; lia]| |
       by eapply stage_block_sorted..].
    eapply Forall_impl; [exact H5|simpl; lia].
  - rewrite !Forall_app. repeat split;
      (eapply Forall_impl; [eassumption|simpl; lia]).
  - repeat split.
    + intros c Hc. rewrite !elem_of_app. left.
      by apply list_elem_of_fmap_2.
    + intros pid Hpid. rewrite !elem_of_app. right; left.
      unfold termEvents. destruct (terms net) as [|p ps] eqn:Hterms;
        [by apply elem_of_nil in Hpid|].
      rewrite elem_of_app. left. by apply list_elem_of_fmap_2.
    + intros l Hl. rewrite !elem_of_app. right; right; left.
      by apply list_elem_of_fmap_2.
    + exact Hb.
    + intros s Hs. rewrite !elem_of_app. do 4 right. left.
      apply list_elem_of_bind. exists s. split; [|done].
      rewrite elem_of_app. right. left.
    + intros h Hh. rewrite !elem_of_app. do 5 right.
      by apply list_elem_of_fmap_2.
Qed.

End StopClaims.

Section LifecycleClaims.

Variable classes : SwitchClasses.

(** C6, amended: [stop] terminates every switch, and stops singly
    exactly the switches that no [batchShutdown] call of the run
    reported; [stop] makes such a call once for every class that has the
    method and a switch, with all the switches of the class, and no
    other. *)
Theorem stop_single_switches (net : Mininet) (s : Node) :
  (SwitchTerminate s ∈ stop classes net ↔ s ∈ switches net) ∧
  (SwitchStop s ∈ stop classes net ↔
   s ∈ switches net ∧
   ¬ ∃ c g, BatchShutdown c g ∈ stop classes net ∧
            s ∈ batchShutdown classes c g) ∧
  (∀ c g, BatchShutdown c g ∈ stop classes net ↔
          hasBatchShutdown classes c = true ∧
          g = filter (λ s', nodeClass s' = c) (switches net) ∧ g ≠ []) ∧
  NoDup (shutdownClasses (stop classes net)) ∧
  (batchStopped classes net s ↔
   ∃ c g, BatchShutdown c g ∈ stop classes net ∧
          s ∈ batchShutdown classes c g) ∧
  (SwitchStop s ∈ stop classes net ↔
   s ∈ switches net ∧ ¬ batchStopped classes net s) ∧
  (batchStopped classes net s ↔
   ∃ c, hasBatchShutdown classes c = true ∧
        filter (λ s', nodeClass s' = c) (switches net) ≠ [] ∧
        s ∈ batchShutdown classes c
              (filter (λ s', nodeClass s' = c) (switches net))).
Proof.
  assert (Hev : batchStopped classes net s ↔
                ∃ c g, BatchShutdown c g ∈ stop classes net ∧
                       s ∈ batchShutdown classes c g).
  { unfold batchStopped. split.
    - intros ([c g] & Hg & Hs). exists c, g. split; [|done].
      by apply stop_batch_events.
    - intros (c & g & He & Hs). exists (c, g). split; [|done].
      by apply stop_batch_events. }
  assert (Hcalls : ∀ c g, BatchShutdown c g ∈ stop classes net ↔
            hasBatchShutdown classes c = true ∧
            g = filter (λ s', nodeClass s' = c) (switches net) ∧ g ≠ []).
  { intros c g. rewrite stop_batch_events. apply batchCalls_spec. }
  assert (Honce : NoDup (shutdownClasses (stop classes net))).
  { rewrite stop_shutdownClasses. apply batchCalls_spec. }
  assert (HT : SwitchTerminate s ∈ stop classes net ↔ s ∈ switches net ).
  2: assert (HS : SwitchStop s ∈ stop classes net ↔
                  s ∈ switches net ∧ ¬ batchStopped classes net s).
  3: { split; [exact HT|]. split; [by rewrite <-Hev|].
       split; [exact Hcalls|]. split; [exact Honce|].
       split; [exact Hev|]. split; [exact HS|].
       rewrite Hev. split.
       - intros (c & g & (Hc & -> & Hne)%Hcalls & Hs). by exists c.
       - intros (c & Hc & Hne & Hs).
         exists c, (filter (λ s', nodeClass s' = c) (switches net)).
         split; [|exact Hs].
         by apply Hcalls. }
  all: clear Hev Hcalls Honce.
  all: destruct (stop_stages classes net) as (stopped & Hstopped & ->).
  all: assert (Hbind : ∀ e,
    e ∈ (switches net ≫= λ sw,
           (if decide (sw ∈ stopped) then [] else [SwitchStop sw]) ++
           [SwitchTerminate sw]) ↔
    ∃ sw, sw ∈ switches net ∧
          (e = SwitchTerminate sw ∨ (e = SwitchStop sw ∧ sw ∉ stopped)))
    by (intros e; rewrite list_elem_of_bind; split;
        [intros (sw & He & Hsw); exists sw; split; [done|];
         destruct (decide (sw ∈ stopped)); set_solver
        |intros (sw & Hsw & He); exists sw; split; [|done];
         destruct (decide (sw ∈ stopped)); set_solver]).
  - rewrite !elem_of_app, Hbind, !list_elem_of_fmap. unfold termEvents.
    split.
    + intros [(? & ? & _)|[Ht|[(? & ? & _)|[(? & ? & _)|[Hs|(? & ? & _)]]]]];
        try done.
      * destruct (terms net); [by apply elem_of_nil in Ht|].
        apply elem_of_app in Ht as [(? & ? & _)%list_elem_of_fmap|Ht];
          [done|]. by apply list_elem_of_singleton in Ht.
      * destruct Hs as (sw & Hsw & [[= ->]|[? _]]); done.
    + intros Hs. do 4 right. left. exists s. split; [done|by left].
  - clear HT. rewrite !elem_of_app, Hbind, !list_elem_of_fmap, <-Hstopped.
    unfold termEvents. split.
    + intros [(? & ? & _)|[Ht|[(? & ? & _)|[(? & ? & _)|[Hs|(? & ? & _)]]]]];
        try done.
      * destruct (terms net); [by apply elem_of_nil in Ht|].
        apply elem_of_app in Ht as [(? & ? & _)%list_elem_of_fmap|Ht];
          [done|]. by apply list_elem_of_singleton in Ht.
      * destruct Hs as (sw & Hsw & [?|[[= ->] ?]]); done.
    + intros [Hs Hnot]. do 4 right. left. exists s. split; [done|by right].
Qed.

Variable build : Mininet → Mininet * list Event.

(** The calls of [start], stage by stage. *)
Lemma start_stages (net : Mininet) :
  let b := afterBuild build net in
  start classes build net =
    (b.1,
     b.2 ++ (ControllerStart <$> controllers b.1) ++
     ((λ s, SwitchStart s (controllers b.1)) <$> switches b.1) ++
     ((λ g, BatchStartup g.1 g.2) <$>
        batchCalls (hasBatchStartup classes) (switches b.1)) ++
     (if waitConn (cfg b.1) then [CallWaitConnected] else [])).
Proof.
  unfold start, afterBuild.
  destruct (if built net then (net, []) else build net) as [net' tr0].
  cbn [fst snd].
  set (tr1 := foldl (λ tr c, tr ++ [ControllerStart c]) tr0 (controllers net')).
  set (tr2 := foldl (λ tr s, tr ++ [SwitchStart s (controllers net')]) tr1
                    (switches net')).
  destruct (batch_loop (hasBatchStartup classes) (batchStartup classes)
              BatchStartup (classGroups (switches net')) [] tr2)
    as (started & Hfold & _).
  unfold classGroups in Hfold. rewrite Hfold.
  subst tr2 tr1.
  rewrite (foldl_emit_ext _ (λ s, [SwitchStart s (controllers net')])) by done.
  rewrite (foldl_emit_ext _ (λ c, [ControllerStart c])) by done.
  rewrite !bind_singleton. f_equal. unfold batchCalls, classGroups.
  destruct (waitConn (cfg net')); rewrite <-?app_assoc; [done|].
  by rewrite app_nil_r.
Qed.

(** C4, amended: [start] starts every switch singly, in the order of
    the registry, before any batch call, whatever the batch calls go on
    to report; then it calls [batchStartup] once for every class that
    has the method and a switch, with all the switches of the class in
    the order of the registry. *)
Theorem start_single_then_batch (net : Mininet) :
  let b := afterBuild build net in
  let calls := batchCalls (hasBatchStartup classes) (switches b.1) in
  (start classes build net).2 =
    b.2 ++ (ControllerStart <$> controllers b.1) ++
    ((λ s, SwitchStart s (controllers b.1)) <$> switches b.1) ++
    ((λ g, BatchStartup g.1 g.2) <$> calls) ++
    (if waitConn (cfg b.1) then [CallWaitConnected] else []) ∧
  NoDup calls.*1 ∧
  (∀ c g, (c, g) ∈ calls ↔
          hasBatchStartup classes c = true ∧
          g = filter (λ s, nodeClass s = c) (switches b.1) ∧ g ≠ []).
Proof.
  intros b calls. split; [|apply batchCalls_spec].
  by rewrite start_stages.
Qed.

End LifecycleClaims.

(** C6, as stated, fails: the one switch of [net_s1] is reported by the
    batch shut-down of its class, and [stop] still terminates it. *)
Lemma batched_switch_is_terminated :
  s1 ∈ switches net_s1 ∧
  batchStopped batchAll net_s1 s1 ∧
  SwitchTerminate s1 ∈ stop batchAll net_s1 ∧
  ¬ skippedWhenBatched batchAll net_s1 s1 ∧
  stop batchAll net_s1 =
    [BatchShutdown (nodeClass s1) [s1]; SwitchTerminate s1] ∧
  s1 ∈ batchShutdown batchAll (nodeClass s1) [s1].
Proof.
  assert (Hin : s1 ∈ switches net_s1) by (vm_compute; left).
  assert (Hb : batchStopped batchAll net_s1 s1).
  { exists (nodeClass s1, [s1]). split; vm_compute; left. }
  assert (Ht : SwitchTerminate s1 ∈ stop batchAll net_s1).
  { vm_compute. right. left. }
  split; [done|]. split; [done|]. split; [done|]. split.
  { intros [Hskip _]. destruct (Hskip Hb) as [_ Hnot]. done. }
  split; [by vm_compute|]. vm_compute. left.
Qed.

(** C4, as stated, fails: in a built network with the one switch [s1],
    whose class has [batchStartup] and reports it, [start] starts [s1]
    singly, and does so before the batch call. *)
Lemma single_start_precedes_batch :
  (start batchAll buildNothing (set_built true net_s1)).2 =
    [SwitchStart s1 []; BatchStartup (nodeClass s1) [s1]] ∧
  s1 ∈ batchStartup batchAll (nodeClass s1) [s1] ∧
  ¬ batchStartFirst batchAll
      (start batchAll buildNothing (set_built true net_s1)).2.
Proof.
  assert (Htr : (start batchAll buildNothing (set_built true net_s1)).2 =
                [SwitchStart s1 []; BatchStartup (nodeClass s1) [s1]])
    by (vm_compute; reflexivity).
  split; [exact Htr|]. split; [left|].
  rewrite Htr. intros [Horder _].
  specialize (Horder 1%nat 0%nat s1 [] [s1] eq_refl eq_refl). lia.
Qed.

(** ** Waiting for the switches *)

Lemma elem_of_list_remove_ne `{EqDecision A} (x y : A) (l : list A) :
  x ≠ y → y ∈ l → y ∈ list_remove x l.
Proof.
  intros Hne. induction l as [|z l IH]; simpl; [done|].
  intros [->|Hy]%elem_of_cons.
  - rewrite decide_False by done. left.
  - destruct (decide (x = z)); [done|]. right. by apply IH.
Qed.

Lemma length_list_remove `{EqDecision A} (x : A) (l : list A) :
  (length (list_remove x l) ≤ length l)%nat.
Proof.
  induction l as [|z l IH]; simpl; [done|].
  destruct (decide (x = z)); simpl; lia.
Qed.

Section ReadinessFacts.

Variable connected : nat → Node → bool.

Lemma recheck_S (fuel i q : nat) (remaining : list Node)
    (out : list WaitEvent) :
  recheck connected (S fuel) i (remaining, q, out) =
  match remaining !! i with
  | None => (remaining, q, out)
  | Some sw =>
      if connected q sw
      then recheck connected fuel (S i)
                   (list_remove sw remaining, S q, out ++ [Asked sw])
      else recheck connected fuel (S i)
                   (remaining, S q,
                    out ++ [Asked sw; WarnNotConnected (nodeName sw)])
  end.
Proof. reflexivity. Qed.

(** The final loop needs no more steps than the list is long. *)
Lemma recheck_fuel (fuel i : nat) (st : WaitState) :
  (length st.1.1 ≤ fuel + i)%nat →
  recheck connected (S fuel) i st = recheck connected fuel i st.
Proof.
  revert i st. induction fuel as [|fuel IH];
    intros i [[remaining q] out] Hlen; cbn [fst snd] in Hlen.
  - simpl. rewrite lookup_ge_None_2 by lia. done.
  - rewrite (recheck_S (S fuel)), (recheck_S fuel).
    destruct (remaining !! i) as [sw|] eqn:Hi; [|done].
    destruct (connected q sw).
    + apply IH. cbn [fst snd].
      pose proof (length_list_remove sw remaining). lia.
    + apply IH. cbn [fst snd]. lia.
Qed.

(** A switch that never connects stays in [remaining]. *)
Lemma poll_keeps (s : Node) (copy : list Node) (st : WaitState) :
  (∀ q, connected q s = false) → s ∈ st.1.1 →
  s ∈ (poll connected copy st).1.1.
Proof.
  intros Hs. revert st. induction copy as [|sw copy IH];
    intros [[remaining q] out] Hin; simpl in *; [done|].
  destruct (connected q sw) eqn:Hc; apply IH; simpl; [|done].
  apply elem_of_list_remove_ne; [|done]. intros ->. by rewrite Hs in Hc.
Qed.

Lemma recheck_keeps (s : Node) (fuel i : nat) (st : WaitState) :
  (∀ q, connected q s = false) → s ∈ st.1.1 →
  s ∈ (recheck connected fuel i st).1.1.
Proof.
  intros Hs. revert i st. induction fuel as [|fuel IH];
    intros i [[remaining q] out] Hin; simpl in *; [done|].
  destruct (remaining !! i) as [sw|]; [|done].
  destruct (connected q sw) eqn:Hc; apply IH; simpl; [|done].
  apply elem_of_list_remove_ne; [|done]. intros ->. by rewrite Hs in Hc.
Qed.

(** When none of the switches left is connected at the time-out, the
    final loop asks each of them once and names each of them. *)
Lemma recheck_all_unconnected (remaining : list Node) (fuel i q : nat)
    (out : list WaitEvent) :
  (∀ q s, s ∈ remaining → connected q s = false) →
  (length remaining ≤ fuel + i)%nat →
  recheck connected fuel i (remaining, q, out) =
  (remaining, (q + (length remaining - i))%nat,
   out ++ (drop i remaining ≫= λ s, [Asked s; WarnNotConnected (nodeName s)])).
Proof.
  intros Hnone. revert i q out. induction fuel as [|fuel IH];
    intros i q out Hfuel; simpl.
  - rewrite drop_ge by lia. rewrite app_nil_r. do 2 f_equal. lia.
  - destruct (remaining !! i) as [sw|] eqn:Hi.
    + rewrite Hnone by (by eapply list_elem_of_lookup_2).
      rewrite IH by lia.
      apply lookup_lt_Some in Hi as Hlt.
      rewrite (drop_S _ _ _ Hi), bind_cons, <-app_assoc.
      do 2 f_equal. lia.
    + apply lookup_ge_None in Hi.
      rewrite drop_ge by lia. rewrite app_nil_r. do 2 f_equal. lia.
Qed.

End ReadinessFacts.

(** The example of the specification: of three switches two connect at
    once and one never does; with [timeout=1] and [delay=0.1] the call
    polls twelve times, returns [False] and names the one switch.  The
    eleven sums of [0.1] give [1.0999999999999999]. *)
Lemma waitConnected_names_the_unconnected :
  waitConnected allButS3 12 net_3sw (Some 1%float) 0.1%float =
  Some (false,
        [Asked s1; InfoConnected s1; Asked s2; InfoConnected s2; Asked s3]
        ++ mjoin (replicate 11 [Slept 0.1%float; Asked s3])
        ++ [WarnTimedOut 1.0999999999999999%float; Asked s3;
            WarnNotConnected "s3"]).
Proof. vm_compute. reflexivity. Qed.

(** C8 fails on the code: [s2] never connects and [s1] connects only
    after the last poll.  The loop after the time-out removes [s1] from
    the list it is iterating over, which moves [s2] into the position
    just visited: [s2] is not asked again and no warning names it. *)
Theorem waitConnected_skips_after_removal :
  (∀ q, lateS1 q s2 = false) ∧
  waitConnected lateS1 12 net_2sw (Some 1%float) 0.1%float =
  Some (false,
        mjoin (replicate 11 [Asked s1; Asked s2; Slept 0.1%float])
        ++ [Asked s1; Asked s2]
        ++ [WarnTimedOut 1.0999999999999999%float; Asked s1]).
Proof.
  split; [|vm_compute; reflexivity].
  intros q. unfold lateS1. rewrite bool_decide_eq_false_2; [done|].
  vm_compute. discriminate.
Qed.

(** The same slip with both switches connected at the last moment: the
    call returns [False] although every switch is connected. *)
Lemma waitConnected_false_though_connected :
  (∀ s, lateBoth 24 s = true) ∧
  waitConnected lateBoth 12 net_2sw (Some 1%float) 0.1%float =
  Some (false,
        mjoin (replicate 11 [Asked s1; Asked s2; Slept 0.1%float])
        ++ [Asked s1; Asked s2]
        ++ [WarnTimedOut 1.0999999999999999%float; Asked s1]).
Proof. split; [done|vm_compute; reflexivity]. Qed.

(** * Further properties *)

(** ** The registry over sequences of operations *)

Section RegistryInvariants.

Variable macColonHex : Z → string.

Lemma registryConsistent_insert (net net' : Mininet) (s : string) (n : Node) :
  registryConsistent net →
  nodeName n = s →
  nameToNode net' = <[ s := n ]> (nameToNode net) →
  n ∈ hosts net' ++ switches net' ++ controllers net' →
  (∀ m, m ∈ hosts net ++ switches net ++ controllers net →
        m ∈ hosts net' ++ switches net' ++ controllers net') →
  registryConsistent net'.
Proof.
  intros Hinv Hname Hmap Hin Hmono s' n' Hlook. rewrite Hmap in Hlook.
  destruct (decide (s = s')) as [<-|Hne].
  - rewrite lookup_insert_eq in Hlook. by simplify_eq.
  - rewrite lookup_insert_ne in Hlook by done.
    destruct (Hinv _ _ Hlook). auto.
Qed.

Lemma step_registryConsistent (net : Mininet) (op : Op) :
  registryConsistent net → registryConsistent (step macColonHex net op).
Proof.
  intros Hinv.
  destruct op as [c|name|name cls params|name cls params|]; cbn [step].
  - destruct (addHost_fields macColonHex net (callName c) (callCls c)
                (callParams c))
      as (_ & _ & Hh & Hm & Hs & Hc & _ & _ & _ & Hn & _).
    eapply registryConsistent_insert; [exact Hinv|exact Hn|exact Hm|..].
    + rewrite Hh. set_solver.
    + rewrite Hh, Hs, Hc. set_solver.
  - unfold removeHost.
    set (name' := match name with PNode n => PStr (nodeName n) | _ => name end).
    destruct (get net name') as [h|] eqn:Hget; [|done].
    destruct name' as [|s|m] eqn:Hname'; [done| |done].
    cbn [get] in Hget. destruct (Hinv _ _ Hget) as [Hhs _].
    intros s' n' Hlook. cbn [fst] in Hlook |- *.
    assert (Hlook' : nameToNode net !! s' = Some n' ∧ s' ≠ s).
    { destruct (decide (h ∈ hosts net)); cbn in Hlook;
        apply lookup_delete_Some in Hlook; naive_solver. }
    destruct Hlook' as [Hl Hne]. destruct (Hinv _ _ Hl) as [Hn' Hin'].
    split; [done|].
    assert (Hdiff : h ≠ n') by congruence.
    destruct (decide (h ∈ hosts net)); cbn; [|done].
    rewrite !elem_of_app in Hin' |- *.
    destruct Hin' as [Hin'|Hin']; [left|by right].
    by apply elem_of_list_remove_ne.
  - destruct (addSwitch_fields net name cls params)
      as (_ & _ & Hh & Hm & Hs & Hc & _ & _ & _ & Hn).
    eapply registryConsistent_insert; [exact Hinv|exact Hn|exact Hm|..].
    + rewrite Hs. set_solver.
    + rewrite Hh, Hs, Hc. set_solver.
  - destruct (addController_fields net name cls params)
      as (_ & _ & Hh & Hs & Hc & _ & _ & Hm).
    destruct name as [s|c].
    + destruct Hm as (Hm & _ & Hn).
      eapply registryConsistent_insert; [exact Hinv|exact Hn|exact Hm|..].
      * rewrite Hc. set_solver.
      * rewrite Hh, Hs, Hc. set_solver.
    + destruct Hm as (Hm & Hr).
      eapply (registryConsistent_insert _ _ (nodeName c) c);
        [exact Hinv|done|exact Hm|..].
      * rewrite Hc, Hr. set_solver.
      * rewrite Hh, Hs, Hc. set_solver.
  - done.
Qed.

Lemma run_registryConsistent (ops : list Op) (net : Mininet) :
  registryConsistent net → registryConsistent (run macColonHex net ops).
Proof.
  revert net. induction ops as [|op ops IH]; intros net Hinv; [done|].
  apply IH, step_registryConsistent, Hinv.
Qed.

Lemma init_registryConsistent (c : Config) (lp : option Z) :
  registryConsistent (init c lp).
Proof.
  intros s n Hlook. cbn [init nameToNode] in Hlook.
  by rewrite lookup_empty in Hlook.
Qed.

(** X1: in every network that a sequence of [addHost], [removeHost],
    [addSwitch], [addController] and [getNextIp] calls makes of a new
    one, each registered name maps to a node that bears that name and
    that is in one of the three role sequences. *)
Theorem reachable_registryConsistent (c : Config) (lp : option Z)
    (ops : list Op) :
  registryConsistent (run macColonHex (init c lp) ops).
Proof. apply run_registryConsistent, init_registryConsistent. Qed.

End RegistryInvariants.

Lemma registryConsistent_size (net : Mininet) :
  registryConsistent net → (size (nameToNode net) ≤ Access.len net)%nat.
Proof.
  intros Hinv. unfold Access.len.
  rewrite <-!length_app, <-length_map_to_list.
  rewrite <-(length_fmap snd (map_to_list (nameToNode net))).
  apply submseteq_length, NoDup_submseteq.
  - apply NoDup_fmap_2_strong; [|apply NoDup_map_to_list].
    intros [s1 n1] [s2 n2] H1%elem_of_map_to_list H2%elem_of_map_to_list Heq.
    cbn in Heq. subst n2.
    destruct (Hinv _ _ H1) as [<- _], (Hinv _ _ H2) as [<- _]. done.
  - intros n ([s n'] & -> & Hin%elem_of_map_to_list)%list_elem_of_fmap.
    destruct (Hinv _ _ Hin) as [_ Hn]. cbn. by rewrite <-app_assoc.
Qed.

(** X2: a network made by registry operations never has more names
    registered than it has nodes:
    [len( net.nameToNode ) <= len( net )]. *)
Theorem registry_size_le_len (macColonHex : Z → string) (c : Config)
    (lp : option Z) (ops : list Op) :
  let net := run macColonHex (init c lp) ops in
  (size (nameToNode net) ≤ Access.len net)%nat.
Proof.
  apply registryConsistent_size, run_registryConsistent,
    init_registryConsistent.
Qed.

(** X3: [removeHost] of a name that has just been removed, or that was
    never there, returns [False], stops nothing and changes nothing. *)
Theorem removeHost_again_is_refused (net : Mininet) (name : string) :
  let net1 := (removeHost net (PStr name)).1.1 in
  get net1 (PStr name) = None ∧
  removeHost net1 (PStr name) = (net1, [], false).
Proof.
  assert (Hgone : get (removeHost net (PStr name)).1.1 (PStr name) = None).
  { unfold removeHost. cbn [get].
    destruct (nameToNode net !! name) as [h|] eqn:Hget; [|done].
    destruct (decide (h ∈ hosts net)); cbn; apply lookup_delete_eq. }
  cbv zeta. split; [exact Hgone|].
  unfold removeHost at 1. by rewrite Hgone.
Qed.

(** X4: [removeHost] given the name of a switch returns [True] and
    stops the switch, but takes it out of no sequence: the switch stays
    in [self.switches] with its name unregistered, [len( net )] is as
    before, and [values()] now raises [KeyError]. *)
Theorem removeHost_of_switch_orphans_it (net : Mininet) (s : string)
    (sw : Node) :
  nameToNode net !! s = Some sw → nodeName sw = s →
  sw ∈ switches net → sw ∉ hosts net →
  let r := removeHost net (PStr s) in
  r.2 = true ∧ r.1.2 = [NodeStop sw true] ∧
  hosts r.1.1 = hosts net ∧ switches r.1.1 = switches net ∧
  Access.len r.1.1 = Access.len net ∧
  Access.contains r.1.1 s = false ∧
  s ∈ Access.keys r.1.1 ∧
  Access.values r.1.1 = Raise "KeyError".
Proof.
  intros Hget Hname Hsw Hnot. unfold removeHost. cbn [get]. rewrite Hget.
  rewrite decide_False by done. cbn.
  repeat split.
  - unfold Access.contains. cbn. rewrite lookup_delete_eq.
    apply bool_decide_eq_false_2. by intros [? ?].
  - unfold Access.keys, Access.iter. cbn. rewrite <-Hname.
    apply list_elem_of_fmap_2. set_solver.
  - unfold Access.values, Access.iter. cbn.
    assert (Hl : ∀ names, s ∈ names →
      Access.lookups
        (set_nameToNode (delete s (nameToNode net)) net) names
      = Raise "KeyError").
    { induction names as [|x names IH]; [by intros ?%elem_of_nil|].
      intros Hin. cbn [Access.lookups]. unfold Access.getitem at 1. cbn.
      destruct (decide (x = s)) as [->|Hne].
      - by rewrite lookup_delete_eq.
      - rewrite lookup_delete_ne by done.
        destruct (nameToNode net !! x); [|done].
        rewrite IH; [done|]. set_solver. }
    apply Hl. rewrite <-Hname. apply list_elem_of_fmap_2. set_solver.
Qed.

Lemma removeHost_of_switch_orphans_it_witness :
  (nameToNode net_s1 !! "s1" = Some s1 ∧ nodeName s1 = "s1" ∧
   s1 ∈ switches net_s1 ∧ s1 ∉ hosts net_s1) ∧
  switches (removeHost net_s1 (PStr "s1")).1.1 = switches net_s1 ∧
  Access.values (removeHost net_s1 (PStr "s1")).1.1 = Raise "KeyError".
Proof.
  assert (H1 : nameToNode net_s1 !! "s1" = Some s1) by reflexivity.
  assert (H2 : nodeName s1 = "s1") by reflexivity.
  assert (H3 : s1 ∈ switches net_s1) by (vm_compute; left).
  assert (H4 : s1 ∉ hosts net_s1) by (vm_compute; apply not_elem_of_nil).
  split; [done|].
  destruct (removeHost_of_switch_orphans_it net_s1 "s1" s1 H1 H2 H3 H4)
    as (_ & _ & _ & Hs & _ & _ & _ & Hv).
  split; [exact Hs|exact Hv].
Defined.

(** ** Cores and listening ports *)

Section AllocatorFacts.

Variable macColonHex : Z → string.

Lemma addHost_cores (net : Mininet) (name : string) (cls : option ClassId)
    (params : gmap string PyVal) :
  autoPinCpus (cfg net) = true → params !! "cores" = None →
  let r := addHost macColonHex net name cls params in
  nodeParams r.2 !! "cores" = Some (VInt (nextCore net)) ∧
  nextCore r.1 = (nextCore net + 1) `mod` numCores (cfg net).
Proof.
  intros Hpin Hno. unfold addHost, hostDefaults. rewrite Hpin.
  destruct (autoSetMacs (cfg net)); cbn; (split; [|done]);
    rewrite lookup_union_r by done; by simplify_map_eq.
Qed.

Lemma addHosts_cores (calls : list HostCall) (net : Mininet) :
  autoPinCpus (cfg net) = true →
  0 ≤ nextCore net < numCores (cfg net) →
  Forall (λ c, callParams c !! "cores" = None) calls →
  (λ h, nodeParams h !! "cores") <$> (addHosts macColonHex net calls).2.*2 =
  (λ k, Some (VInt ((nextCore net + k) `mod` numCores (cfg net)))) <$>
    seqZ 0 (Z.of_nat (length calls)).
Proof.
  revert net. induction calls as [|c calls IH]; intros net Hpin Hrange Hno;
    [done|].
  apply Forall_cons in Hno as [Hno1 Hno]. cbn [addHosts].
  pose proof (addHost_fields macColonHex net (callName c) (callCls c)
                (callParams c)) as (Hc & _).
  pose proof (addHost_cores net (callName c) (callCls c) (callParams c)
                Hpin Hno1) as [Hcores Hnext].
  destruct (addHost macColonHex net (callName c) (callCls c) (callParams c))
    as [net1 h] eqn:Hadd.
  cbn [fst snd] in *.
  assert (Hrange1 : 0 ≤ nextCore net1 < numCores (cfg net1)).
  { rewrite Hnext, Hc. apply Z.mod_pos_bound. lia. }
  specialize (IH net1). rewrite Hc in IH. specialize (IH Hpin).
  rewrite Hc in Hrange1. specialize (IH Hrange1 Hno).
  destruct (addHosts macColonHex net1 calls) as [net2 hs] eqn:Hrest.
  cbn [fst snd] in *.
  cbn [length]. rewrite Nat2Z.inj_succ, seqZ_cons by lia.
  rewrite !fmap_cons. cbn [snd]. f_equal.
  - rewrite Hcores, Z.add_0_r, Z.mod_small by done. done.
  - rewrite IH, Z.pred_succ. change (Z.succ 0) with (1 + 0).
    rewrite <-(fmap_add_seqZ 1 0), <-list_fmap_compose.
    apply list_fmap_ext. intros i k _. cbn. do 2 f_equal.
    rewrite Hnext, Zplus_mod_idemp_l. f_equal. lia.
Qed.

(** X5: with [autoPinCpus] and [numCores() = n > 0], the hosts added to
    a new network without a ['cores'] parameter get the cores
    [0, 1, ..., n-1, 0, 1, ...] in turn: the [k]-th host (from 0) gets
    [k mod n], always a valid core index. *)
Theorem cores_cycle (c : Config) (lp : option Z) (calls : list HostCall) :
  autoPinCpus c = true → 0 < numCores c →
  Forall (λ call, callParams call !! "cores" = None) calls →
  let hs := (addHosts macColonHex (init c lp) calls).2.*2 in
  (λ h, nodeParams h !! "cores") <$> hs =
  (λ k, Some (VInt (k `mod` numCores c))) <$>
    seqZ 0 (Z.of_nat (length calls)) ∧
  Forall (λ h, ∃ k, nodeParams h !! "cores" = Some (VInt k) ∧
                    0 ≤ k < numCores c) hs.
Proof.
  intros Hpin Hn Hno hs.
  pose proof (addHosts_cores calls (init c lp) Hpin) as Hcores.
  cbn [init cfg nextCore] in Hcores.
  specialize (Hcores ltac:(lia) Hno). fold hs in Hcores.
  split; [exact Hcores|].
  apply Forall_forall. intros h Hh.
  apply (list_elem_of_fmap_2 (λ h, nodeParams h !! "cores")) in Hh.
  rewrite Hcores in Hh. apply list_elem_of_fmap in Hh as (k & -> & _).
  eexists. split; [done|]. apply Z.mod_pos_bound. lia.
Qed.

Lemma addSwitch_port (net : Mininet) (name : string) (cls : option ClassId)
    (params : gmap string PyVal) (p : Z) :
  inNamespace (cfg net) = false → listenPort net = Some p → 0 < p →
  params !! "listenPort" = None →
  let r := addSwitch net name cls params in
  nodeParams r.2 !! "listenPort" = Some (VInt p) ∧
  listenPort r.1 = Some (p + 1) ∧ cfg r.1 = cfg net.
Proof.
  intros Hns Hlp Hp Hno. unfold addSwitch. cbn. rewrite Hns, Hlp. cbn.
  replace (p =? 0) with false by lia. cbn.
  repeat split. rewrite lookup_union_r by done. by simplify_map_eq.
Qed.

Lemma addSwitches_ports (calls : list HostCall) (net : Mininet) (p : Z) :
  inNamespace (cfg net) = false → listenPort net = Some p → 0 < p →
  Forall (λ c, callParams c !! "listenPort" = None) calls →
  let r := addSwitches net calls in
  (λ s, nodeParams s !! "listenPort") <$> r.2 =
  (λ k, Some (VInt k)) <$> seqZ p (Z.of_nat (length calls)) ∧
  listenPort r.1 = Some (p + Z.of_nat (length calls)).
Proof.
  revert net p. induction calls as [|c calls IH]; intros net p Hns Hlp Hp Hno.
  - cbn. rewrite Z.add_0_r. done.
  - apply Forall_cons in Hno as [Hno1 Hno]. cbn [addSwitches].
    pose proof (addSwitch_port net (callName c) (callCls c) (callParams c) p
                  Hns Hlp Hp Hno1) as (Hport & Hlp1 & Hc).
    destruct (addSwitch net (callName c) (callCls c) (callParams c))
      as [net1 sw] eqn:Hadd.
    cbn [fst snd] in *.
    specialize (IH net1 (p + 1)). rewrite Hc in IH.
    specialize (IH Hns Hlp1 ltac:(lia) Hno).
    destruct (addSwitches net1 calls) as [net2 sws] eqn:Hrest.
    cbn [fst snd] in *. destruct IH as [IHp IHlp].
    cbn [length]. rewrite Nat2Z.inj_succ, seqZ_cons by lia.
    rewrite !fmap_cons, Z.pred_succ. split.
    + by rewrite Hport, IHp.
    + rewrite IHlp. f_equal. lia.
Qed.

(** X6: in a new network that is not [inNamespace] and has a positive
    [listenPort] [p], the switches added without a ['listenPort']
    parameter get the ports [p, p+1, p+2, ...], each its own, and the
    counter ends at [p] plus their number. *)
Theorem listen_ports_successive (c : Config) (p : Z)
    (calls : list HostCall) :
  inNamespace c = false → 0 < p →
  Forall (λ call, callParams call !! "listenPort" = None) calls →
  let r := addSwitches (init c (Some p)) calls in
  let ports := (λ s, nodeParams s !! "listenPort") <$> r.2 in
  ports = (λ k, Some (VInt k)) <$> seqZ p (Z.of_nat (length calls)) ∧
  NoDup ports ∧
  listenPort r.1 = Some (p + Z.of_nat (length calls)).
Proof.
  intros Hns Hp Hno r ports.
  destruct (addSwitches_ports calls (init c (Some p)) p Hns eq_refl Hp Hno)
    as [Hports Hlp].
  fold r in Hports, Hlp. fold ports in Hports.
  split; [done|]. split; [|done].
  rewrite Hports. apply NoDup_fmap_2; [|apply NoDup_seqZ].
  intros x y [= ->]. done.
Qed.

(** X7: [getNextIp()] returns the very address that [addHost] would
    give by default at that moment and consumes it: whatever the
    operations that follow, the counter stays beyond the value consumed,
    so no later default comes from it. *)
Theorem getNextIp_consumes (net : Mininet) (name : string)
    (cls : option ClassId) (params : gmap string PyVal) :
  params !! "ip" = None →
  let g := getNextIp net in
  hostIP (addHost macColonHex net name cls params).2 = Some (VStr g.2) ∧
  nextIP g.1 = nextIP net + 1 ∧
  ∀ ops : list Op, nextIP net < nextIP (run macColonHex g.1 ops).
Proof.
  intros Hno g.
  destruct (addHost_fields macColonHex net name cls params)
    as (_ & _ & _ & _ & _ & _ & _ & _ & _ & _ & Hp).
  split; [|split].
  - unfold hostIP. rewrite Hp, lookup_union_r by done.
    by rewrite hostDefaults_ip.
  - done.
  - intros ops. destruct (run_fields macColonHex ops g.1) as [_ Hle].
    assert (Hg : nextIP g.1 = nextIP net + 1) by done. lia.
Qed.

End AllocatorFacts.

Lemma cores_cycle_witness :
  let c := mkConfig 0 1 2 ipBase_10_8.1 ipBase_10_8.2 false false true 2
                    false in
  let calls := [ mkHostCall "h1" None ∅; mkHostCall "h2" None ∅;
                 mkHostCall "h3" None ∅ ] in
  (autoPinCpus c = true ∧ 0 < numCores c ∧
   Forall (λ call, callParams call !! "cores" = None) calls) ∧
  (λ h, nodeParams h !! "cores") <$> (addHosts plainMac (init c None) calls).2.*2
  = [ Some (VInt 0); Some (VInt 1); Some (VInt 0) ].
Proof.
  assert (Hno : Forall (λ call, callParams call !! "cores" = None)
                  [ mkHostCall "h1" None ∅; mkHostCall "h2" None ∅;
                    mkHostCall "h3" None ∅ ]) by (repeat constructor).
  split; [split; [reflexivity|split; [reflexivity|exact Hno]]|].
  destruct (cores_cycle plainMac
              (mkConfig 0 1 2 ipBase_10_8.1 ipBase_10_8.2 false false true 2
                        false)
              None _ eq_refl eq_refl Hno) as [Hc _].
  exact Hc.
Defined.

Lemma listen_ports_successive_witness :
  let calls := [ mkHostCall "s1" None ∅; mkHostCall "s2" None ∅ ] in
  (inNamespace cfg10 = false ∧ 0 < 6634 ∧
   Forall (λ call, callParams call !! "listenPort" = None) calls) ∧
  (λ s, nodeParams s !! "listenPort") <$>
    (addSwitches (init cfg10 (Some 6634)) calls).2
  = [ Some (VInt 6634); Some (VInt 6635) ].
Proof.
  assert (Hno : Forall (λ call, callParams call !! "listenPort" = None)
                  [ mkHostCall "s1" None ∅; mkHostCall "s2" None ∅ ])
    by (repeat constructor).
  split; [split; [reflexivity|split; [reflexivity|exact Hno]]|].
  destruct (listen_ports_successive cfg10 6634 _ eq_refl eq_refl Hno)
    as [Hp _].
  exact Hp.
Defined.

Lemma getNextIp_consumes_witness :
  (∅ : gmap string PyVal) !! "ip" = None ∧
  hostIP (addHost plainMac net_h1 "h2" None ∅).2 =
  Some (VStr (getNextIp net_h1).2).
Proof.
  assert (Hno : (∅ : gmap string PyVal) !! "ip" = None) by reflexivity.
  split; [exact Hno|].
  destruct (getNextIp_consumes plainMac net_h1 "h2" None ∅ Hno)
    as [H _].
  exact H.
Defined.

(** ** More on waiting for the switches *)

(** No float is above infinity. *)
Lemma none_above_infinity (x : float) : PrimFloat.ltb infinity x = false.
Proof.
  rewrite ltb_spec. change (Prim2SF infinity) with (S754_infinity false).
  unfold SFltb, SFcompare. by destruct (Prim2SF x) as [| [] | |[]].
Qed.

(** A comparison with a NaN is false. *)
Lemma none_above_nan (x : float) : PrimFloat.ltb nan x = false.
Proof. rewrite ltb_spec. by change (Prim2SF nan) with S754_nan. Qed.

Section ReadinessMore.

Variable connected : nat → Node → bool.

(** The clock is never above an infinite time-out, or a NaN. *)
Lemma timedOut_never_infinite (time t : float) :
  t = infinity ∨ t = nan → timedOut time (Some t) = false.
Proof.
  intros [-> | ->]; [apply none_above_infinity|apply none_above_nan].
Qed.

Lemma waitLoop_never_timed_out (timeout : option float) (delay : float)
    (s : Node) (fuel : nat) :
  (∀ n, timedOut (clockAt delay n) timeout = false) →
  (∀ q, connected q s = false) →
  ∀ m st, s ∈ st.1.1 →
    waitLoop connected fuel timeout delay (clockAt delay m) st = None.
Proof.
  intros Hnever Hs.
  induction fuel as [|k IH]; intros m [[remaining q] out] Hrem; [done|].
  cbn [waitLoop fst snd] in Hrem |- *.
  pose proof (poll_keeps connected s remaining (remaining, q, out) Hs Hrem)
    as Hkeep.
  destruct (poll connected remaining (remaining, q, out))
    as [[remaining' q'] out'].
  cbn [fst snd] in Hkeep.
  destruct remaining' as [|sw rest]; [by apply elem_of_nil in Hkeep|].
  rewrite Hnever.
  change (PrimFloat.add (clockAt delay m) delay) with (clockAt delay (S m)).
  by apply IH.
Qed.

(** X8: when the clock of [waitConnected], the float sum of the delays,
    is in no round above the time-out, as with [timeout=float('inf')],
    [waitConnected] never returns while some switch stays unconnected:
    however many rounds it is given, it is still polling.  The delay is
    one that [sleep] accepts. *)
Theorem waitConnected_never_times_out (net : Mininet)
    (timeout : option float) (delay : float) (s : Node) (fuel : nat) :
  sleepable delay →
  (∀ n, timedOut (clockAt delay n) timeout = false) →
  s ∈ switches net → (∀ q, connected q s = false) →
  waitConnected connected fuel net timeout delay = None.
Proof.
  intros _ Hnever Hin Hs. unfold waitConnected.
  change 0%float with (clockAt delay 0).
  by rewrite (waitLoop_never_timed_out timeout delay s fuel Hnever Hs).
Qed.


Lemma poll_all_connected (copy : list Node) (q : nat) (out : list WaitEvent) :
  (∀ q s, s ∈ copy → connected q s = true) →
  poll connected copy (copy, q, out) =
  ([], (q + length copy)%nat,
   out ++ (copy ≫= λ s, [Asked s; InfoConnected s])).
Proof.
  revert q out. induction copy as [|sw copy IH]; intros q out Hall.
  - cbn. rewrite app_nil_r. do 2 f_equal. lia.
  - cbn [poll]. rewrite Hall by left.
    cbn [list_remove]. rewrite decide_True by done.
    rewrite IH by (intros; apply Hall; by right).
    rewrite bind_cons, <-app_assoc. cbn [length]. do 2 f_equal. lia.
Qed.

(** X10: when every switch is connected as it is asked, [waitConnected]
    returns [True] after one round: it asks each switch once, in the
    order of the registry, reports it, and neither sleeps nor warns; for
    a network without switches it returns [True] and does nothing. *)
Theorem waitConnected_all_connected (net : Mininet) (timeout : option float)
    (delay : float) (fuel : nat) :
  (∀ q s, s ∈ switches net → connected q s = true) →
  waitConnected connected (S fuel) net timeout delay =
  Some (true, switches net ≫= λ s, [Asked s; InfoConnected s]).
Proof.
  intros Hall. unfold waitConnected. cbn [waitLoop fst snd].
  by rewrite poll_all_connected.
Qed.

End ReadinessMore.

Lemma poll_none_connected (copy : list Node) (st : WaitState) :
  poll neverConnected copy st =
  (st.1.1, (st.1.2 + length copy)%nat, st.2 ++ (Asked <$> copy)).
Proof.
  revert st. induction copy as [|sw copy IH]; intros [[remaining q] out].
  - cbn. rewrite app_nil_r. do 2 f_equal. lia.
  - cbn [poll neverConnected]. rewrite IH. cbn [fst snd length].
    rewrite fmap_cons, <-app_assoc. do 2 f_equal. lia.
Qed.

Lemma warnedNames_app (out1 out2 : list WaitEvent) :
  warnedNames (out1 ++ out2) = warnedNames out1 ++ warnedNames out2.
Proof. apply omap_app. Qed.

Lemma warnedNames_asked (l : list Node) : warnedNames (Asked <$> l) = [].
Proof. induction l as [|x l IH]; [done|]. by rewrite fmap_cons. Qed.

Lemma warnedNames_recheck (l : list Node) :
  warnedNames (l ≫= λ s, [Asked s; WarnNotConnected (nodeName s)]) =
  nodeName <$> l.
Proof.
  induction l as [|x l IH]; [done|].
  rewrite bind_cons, warnedNames_app, IH. done.
Qed.

Lemma waitLoop_none_connected (fuel : nat) (timeout : option float)
    (delay time : float)
    (remaining : list Node) (q : nat) (out : list WaitEvent) (r : bool)
    (st' : WaitState) :
  remaining ≠ [] →
  waitLoop neverConnected fuel timeout delay time (remaining, q, out)
  = Some (r, st') →
  r = false ∧ st'.1.1 = remaining ∧
  warnedNames st'.2 = warnedNames out ++ (nodeName <$> remaining).
Proof.
  intros Hne. revert time q out r st'.
  induction fuel as [|k IH]; intros time q out r st' Hloop; [done|].
  destruct remaining as [|sw rest]; [done|].
  cbn [waitLoop fst snd] in Hloop.
  rewrite poll_none_connected in Hloop. cbv beta iota zeta in Hloop.
  cbn [fst snd] in Hloop.
  destruct (timedOut time timeout).
  - rewrite (recheck_all_unconnected neverConnected) in Hloop by (done || lia).
    injection Hloop as <- <-. cbn [fst snd].
    split; [done|]. split; [done|].
    change (Asked sw :: list_fmap Node WaitEvent Asked rest)
      with (Asked <$> sw :: rest).
    change (Asked sw :: WarnNotConnected (nodeName sw) :: ?l)
      with ((sw :: rest) ≫= λ s, [Asked s; WarnNotConnected (nodeName s)]).
    rewrite !warnedNames_app, warnedNames_asked, warnedNames_recheck.
    change (warnedNames [WarnTimedOut time]) with (@nil string).
    by rewrite !app_nil_r.
  - apply IH in Hloop as (-> & -> & ->).
    split; [done|]. split; [done|].
    by rewrite !warnedNames_app, warnedNames_asked, !app_nil_r.
Qed.

(** Once the clock is above the time-out the loop ends. *)
Lemma waitLoop_gives_up (timeout : option float) (delay : float) (n : nat) :
  ∀ (fuel : nat) (time : float) (remaining : list Node) (q : nat)
    (out : list WaitEvent),
  (n < fuel)%nat →
  timedOut (Nat.iter n (λ t, PrimFloat.add t delay) time) timeout = true →
  is_Some (waitLoop neverConnected fuel timeout delay time
             (remaining, q, out)).
Proof.
  induction n as [|n IH]; intros fuel time remaining q out Hfuel Ht;
    (destruct fuel as [|k]; [lia|]);
    cbn [waitLoop fst snd]; rewrite poll_none_connected;
    cbv beta iota zeta; cbn [fst snd];
    (destruct remaining as [|sw rest]; [done|]).
  - change (timedOut time timeout = true) in Ht. rewrite Ht.
    by destruct (recheck neverConnected _ _ _) as [[? ?] ?].
  - destruct (timedOut time timeout).
    + by destruct (recheck neverConnected _ _ _) as [[? ?] ?].
    + rewrite Nat.iter_succ_r in Ht. apply IH; [lia|done].
Qed.

(** X11: when no switch ever connects and the clock, the float sum of
    the delays, is above the time-out after [n] rounds, [waitConnected]
    returns within [n + 1] rounds; and whenever it returns, it returns
    [False] and its warnings name every switch of the network, once
    each, in the order of the registry.  The delay is one that [sleep]
    accepts, and the clock stays finite up to round [n]. *)
Theorem waitConnected_names_all (net : Mininet) (timeout : option float)
    (delay : float) (n : nat) :
  switches net ≠ [] →
  sleepable delay →
  (∀ m, (m ≤ n)%nat → finiteFloat (clockAt delay m) = true) →
  timedOut (clockAt delay n) timeout = true →
  (∃ out, waitConnected neverConnected (S n) net timeout delay
          = Some (false, out) ∧
          warnedNames out = nodeName <$> switches net) ∧
  (∀ fuel r out,
     waitConnected neverConnected fuel net timeout delay = Some (r, out) →
     r = false ∧ warnedNames out = nodeName <$> switches net).
Proof.
  intros Hne _ _ Ht.
  assert (Hany : ∀ fuel r out,
            waitConnected neverConnected fuel net timeout delay
            = Some (r, out) →
            r = false ∧ warnedNames out = nodeName <$> switches net).
  { intros fuel r out Hret. unfold waitConnected in Hret.
    destruct (waitLoop neverConnected fuel timeout delay 0%float
                (switches net, 0%nat, [])) as [[r' [[rem q] out']]|] eqn:Hloop;
      [|done].
    injection Hret as -> ->.
    by destruct (waitLoop_none_connected _ _ _ _ _ _ _ _ _ Hne Hloop)
      as (-> & _ & Hw). }
  split; [|exact Hany].
  destruct (waitLoop_gives_up timeout delay n (S n) 0%float (switches net)
              0%nat [] (Nat.lt_succ_diag_r n) Ht) as [[r [[rem q] out]] Hloop].
  assert (Hret : waitConnected neverConnected (S n) net timeout delay
                 = Some (r, out)).
  { unfold waitConnected. by rewrite Hloop. }
  destruct (Hany _ _ _ Hret) as [-> Hw]. by exists out.
Qed.

(** The float clock at work: with [timeout=0.3] and [delay=0.1] the
    third sum is [0.30000000000000004], above the time-out, so the call
    gives up in its fourth round. *)
Lemma waitConnected_float_clock :
  waitConnected neverConnected 3 net_s1 (Some 0.3%float) 0.1%float = None ∧
  waitConnected neverConnected 4 net_s1 (Some 0.3%float) 0.1%float =
  Some (false,
        mjoin (replicate 3 [Asked s1; Slept 0.1%float]) ++
        [Asked s1; WarnTimedOut 0.30000000000000004%float; Asked s1;
         WarnNotConnected "s1"]).
Proof. split; vm_compute; reflexivity. Qed.

(** A delay of zero leaves the clock at zero, so the time-out is never
    reached. *)
Lemma waitConnected_zero_delay (fuel : nat) :
  waitConnected neverConnected fuel net_s1 (Some 1%float) 0%float = None.
Proof.
  unfold waitConnected. change 0%float with (clockAt 0%float 0) at 2.
  rewrite (waitLoop_never_timed_out neverConnected (Some 1%float) 0%float
             s1 fuel); [done| |done|vm_compute; left].
  intros n. assert (Hclock : clockAt 0%float n = 0%float).
  { induction n as [|n IH]; [done|].
    change (clockAt 0%float (S n))
      with (PrimFloat.add (clockAt 0%float n) 0%float).
    rewrite IH. by vm_compute. }
  rewrite Hclock. by vm_compute.
Qed.

(** ** Adding and removing links *)

Section LinkFacts.

Variable macColonHex : Z → string.
Variable linkCls : ClassId.
Variable intfCls : option ClassId.
Variable isOVSSwitch : ClassId → bool.

Lemma nodeArg_argNode (net : Mininet) (a : string + Node) :
  nodeArg net a = match argNode net a with
                  | Some n => Ok n
                  | None => Raise "KeyError"
                  end.
Proof. destruct a as [name|n]; [|done]. unfold nodeArg, Access.getitem. done. Qed.

(** What [removeLink] does when it is given two ends. *)
Lemma removeLink_ends_spec (net : Mininet) (node1 node2 : PyArg) :
  let a := (linkEnds net node1 node2).1 in
  let b := (linkEnds net node1 node2).2 in
  let r := removeLink net None node1 node2 in
  r.2 = Returned ∧
  (((∀ l, l ∈ links net → ¬ joins l a b) ∧ r.1.1 = net) ∨
   (∃ l pre post,
      links net = pre ++ l :: post ∧ joins l a b ∧
      (∀ l', l' ∈ pre → ¬ joins l' a b) ∧
      links r.1.1 = pre ++ post ∧
      r.1.2 = [LinkDelete l] ∧
      sameRegistry net r.1.1)).
Proof.
  intros a b. unfold removeLink.
  pose proof (findLink_first (links net) a b) as Hfind.
  subst a b. destruct (linkEnds net node1 node2) as [a b]. cbn [fst snd] in *.
  destruct (findLink (links net) a b) as [l|].
  - destruct Hfind as (pre & post & Hls & Hjoin & Hpre).
    rewrite decide_True by (rewrite Hls; set_solver).
    cbn. split; [done|]. right. exists l, pre, post.
    repeat split; try done.
    rewrite Hls. apply list_remove_middle.
    intros Hin. by apply (Hpre l).
  - cbn. split; [done|]. by left.
Qed.

(** X12: [addLink] followed by [removeLink] of the link it returned gives
    back the list of links as it was, and deletes that link. *)
Theorem addLink_removeLink_restores (net net' : Mininet)
    (node1 node2 : string + Node) (port1 port2 : option Z)
    (cls : option ClassId) (params : gmap string LinkVal) (r1 r2 : Z)
    (made l : Link) (a b : PyArg) :
  made ∉ links net →
  (addLink macColonHex linkCls intfCls isOVSSwitch net node1 node2 port1 port2 cls params r1 r2 made).1
  = Ok (net', l) →
  let r := removeLink net' (Some l) a b in
  l = made ∧ links r.1.1 = links net ∧ r.1.2 = [LinkDelete made] ∧
  r.2 = Returned.
Proof.
  intros Hnew Hadd.
  unfold addLink in Hadd.
  destruct (nodeArg net node1) as [n1|]; [|done].
  destruct (nodeArg net node2) as [n2|]; [|done].
  cbn in Hadd. injection Hadd as <- <-.
  unfold removeLink. cbn [links set_links].
  rewrite decide_True by set_solver. cbn.
  by rewrite list_remove_snoc_fresh.
Qed.

(** X13: after [addLink] between two nodes, [removeLink] given the two
    nodes always finds a link to remove (it reports no failure) and the
    number of links is as before the [addLink]; the link removed is the
    first one between the two nodes, so the new link itself when there
    was none before.  The link class is supposed to give the link's
    interfaces to the two nodes, as [Link] does. *)
Theorem addLink_removeLink_by_ends (net net' : Mininet)
    (n1 n2 : Node) (port1 port2 : option Z)
    (cls : option ClassId) (params : gmap string LinkVal) (r1 r2 : Z)
    (made l : Link) :
  node (intf1 made) = n1 → node (intf2 made) = n2 →
  (addLink macColonHex linkCls intfCls isOVSSwitch net (inr n1) (inr n2) port1 port2 cls params r1 r2 made).1
  = Ok (net', l) →
  let r := removeLink net' None (PNode n1) (PNode n2) in
  r.2 = Returned ∧
  (∃ gone, r.1.2 = [LinkDelete gone] ∧ joins gone (PNode n1) (PNode n2)) ∧
  length (links r.1.1) = length (links net) ∧
  ((∀ l', l' ∈ links net → ¬ joins l' (PNode n1) (PNode n2)) →
   r.1.2 = [LinkDelete made] ∧ links r.1.1 = links net).
Proof.
  intros H1 H2 Hadd.
  unfold addLink in Hadd.
  cbn in Hadd. injection Hadd as <- <-.
  assert (Hjoin : joins made (PNode n1) (PNode n2)).
  { left. by rewrite H1, H2. }
  pose proof (removeLink_ends_spec
                (set_links (links net ++ [made]) net) (PNode n1) (PNode n2))
    as Hspec.
  cbv zeta in Hspec. cbn [linkEnds fst snd links set_links] in Hspec.
  destruct Hspec as [Hret [(Hnone & _)|(gone & pre & post & Hls & Hgone & Hpre
                                         & Hlinks & Hev & _)]].
  { exfalso. apply (Hnone made); [set_solver|done]. }
  cbv zeta. split; [done|]. split; [by exists gone|]. split.
  - rewrite Hlinks. apply (f_equal length) in Hls.
    rewrite !length_app in Hls. rewrite length_app. cbn [length] in Hls. lia.
  - intros Hno.
    assert (Hpost : post = [] ∧ pre = links net ∧ gone = made).
    { destruct post as [|x post _] using rev_ind.
      - apply app_inj_tail in Hls as [Hl Hm]. by rewrite Hl, Hm.
      - exfalso. rewrite app_comm_cons, app_assoc in Hls.
        apply app_inj_tail in Hls as [Hl _].
        apply (Hno gone); [rewrite Hl; set_solver|done]. }
    destruct Hpost as (-> & -> & ->). rewrite Hlinks, app_nil_r. done.
Qed.

End LinkFacts.

Lemma waitConnected_never_times_out_witness :
  (sleepable 0.1%float ∧
   (∀ n, timedOut (clockAt 0.1%float n) (Some infinity) = false) ∧
   s3 ∈ switches net_3sw ∧ ∀ q, allButS3 q s3 = false) ∧
  waitConnected allButS3 50 net_3sw (Some infinity) 0.1%float = None.
Proof.
  assert (Hd : sleepable 0.1%float) by (split; vm_compute; reflexivity).
  assert (Ht : ∀ n, timedOut (clockAt 0.1%float n) (Some infinity) = false).
  { intros n. apply timedOut_never_infinite. by left. }
  assert (Hin : s3 ∈ switches net_3sw) by (vm_compute; set_solver).
  assert (Hs : ∀ q, allButS3 q s3 = false).
  { intros q. unfold allButS3. by rewrite bool_decide_eq_false_2 by (by intros H). }
  split; [done|].
  exact (waitConnected_never_times_out allButS3 net_3sw (Some infinity)
           0.1%float s3 50 Hd Ht Hin Hs).
Defined.


Lemma waitConnected_all_connected_witness :
  (∀ q s, s ∈ switches net_2sw → alwaysConnected q s = true) ∧
  waitConnected alwaysConnected 1 net_2sw None 0.1%float =
  Some (true, [Asked s1; InfoConnected s1; Asked s2; InfoConnected s2]).
Proof.
  assert (Hall : ∀ q s, s ∈ switches net_2sw → alwaysConnected q s = true)
    by done.
  split; [exact Hall|].
  exact (waitConnected_all_connected alwaysConnected net_2sw None 0.1%float
           0 Hall).
Defined.

Lemma waitConnected_names_all_witness :
  (switches net_2sw ≠ [] ∧
   sleepable 0.1%float ∧
   (∀ m, (m ≤ 11)%nat → finiteFloat (clockAt 0.1%float m) = true) ∧
   timedOut (clockAt 0.1%float 11) (Some 1%float) = true) ∧
  ∃ out, waitConnected neverConnected 12 net_2sw (Some 1%float) 0.1%float
         = Some (false, out) ∧
         warnedNames out = nodeName <$> switches net_2sw.
Proof.
  assert (Hne : switches net_2sw ≠ []) by (vm_compute; discriminate).
  assert (Hd : sleepable 0.1%float) by (split; vm_compute; reflexivity).
  assert (Hfin : ∀ m, (m ≤ 11)%nat →
                      finiteFloat (clockAt 0.1%float m) = true).
  { intros m Hm.
    do 12 (destruct m as [|m]; [vm_compute; reflexivity|]). lia. }
  assert (Ht : timedOut (clockAt 0.1%float 11) (Some 1%float) = true)
    by (vm_compute; reflexivity).
  split; [done|].
  destruct (waitConnected_names_all net_2sw (Some 1%float) 0.1%float 11
              Hne Hd Hfin Ht) as [H _].
  exact H.
Defined.

Lemma addLink_removeLink_restores_witness :
  ((link_s1_s2 ∉ links net_2sw) ∧
   ((addLink plainMac 0%nat None noOVS net_2sw (inl "s1") (inl "s2")
             None None None ∅ 1 2 link_s1_s2).1
    = Ok (net_2sw_linked, link_s1_s2))) ∧
  links (removeLink net_2sw_linked (Some link_s1_s2) PNone PNone).1.1
  = links net_2sw.
Proof.
  assert (Hnew : link_s1_s2 ∉ links net_2sw)
    by (vm_compute; apply not_elem_of_nil).
  assert (Hadd : (addLink plainMac 0%nat None noOVS net_2sw (inl "s1")
                    (inl "s2") None None None ∅ 1 2 link_s1_s2).1
                 = Ok (net_2sw_linked, link_s1_s2)) by reflexivity.
  split; [done|].
  destruct (addLink_removeLink_restores plainMac 0%nat None noOVS net_2sw
              net_2sw_linked (inl "s1") (inl "s2") None None None ∅ 1 2
              link_s1_s2 link_s1_s2 PNone PNone Hnew Hadd) as (_ & H & _).
  exact H.
Defined.

Lemma addLink_removeLink_by_ends_witness :
  (node (intf1 link_s1_s2) = s1 ∧ node (intf2 link_s1_s2) = s2 ∧
   ((addLink plainMac 0%nat None noOVS net_2sw (inr s1) (inr s2)
             None None None ∅ 1 2 link_s1_s2).1
    = Ok (net_2sw_linked, link_s1_s2))) ∧
  length (links (removeLink net_2sw_linked None (PNode s1) (PNode s2)).1.1)
  = length (links net_2sw).
Proof.
  assert (H1 : node (intf1 link_s1_s2) = s1) by reflexivity.
  assert (H2 : node (intf2 link_s1_s2) = s2) by reflexivity.
  assert (Hadd : (addLink plainMac 0%nat None noOVS net_2sw (inr s1)
                    (inr s2) None None None ∅ 1 2 link_s1_s2).1
                 = Ok (net_2sw_linked, link_s1_s2)) by reflexivity.
  split; [done|].
  destruct (addLink_removeLink_by_ends plainMac 0%nat None noOVS net_2sw
              net_2sw_linked s1 s2 None None None ∅ 1 2
              link_s1_s2 link_s1_s2 H1 H2 Hadd) as (_ & _ & H & _).
  exact H.
Defined.

(** ** The options of a link *)

Lemma setdefault_lookup {A} (k k' : string) (v : A) (m : gmap string A) :
  setdefault k v m !! k' =
  if decide (k = k') then Some (default v (m !! k)) else m !! k'.
Proof.
  unfold setdefault. destruct (m !! k) as [x|] eqn:Hk.
  - destruct (decide (k = k')) as [<-|]; [by rewrite Hk|done].
  - destruct (decide (k = k')) as [<-|].
    + by rewrite lookup_insert_eq.
    + by rewrite lookup_insert_ne.
Qed.

Lemma setdefault_keeps {A} (k k' : string) (v x : A) (m : gmap string A) :
  m !! k' = Some x → setdefault k v m !! k' = Some x.
Proof.
  intros Hx. rewrite setdefault_lookup.
  destruct (decide (k = k')) as [->|]; [by rewrite Hx|done].
Qed.

Section LinkOptionFacts.

Variable macColonHex : Z → string.
Variable intfCls : option ClassId.

(** X14: the options [addLink] hands to the link constructor keep every
    entry the caller gave; both addresses are always set, and one the
    caller left out is the [randMac()] drawn for it.  ['intf'] is set
    only by the caller or from [self.intf], and with no ports and no
    [self.intf] nothing but the two addresses is added. *)
Theorem addLink_options (port1 port2 : option Z)
    (params : gmap string LinkVal) (r1 r2 : Z) :
  let options := linkOptions macColonHex intfCls port1 port2 params r1 r2 in
  (∀ k v, params !! k = Some v → options !! k = Some v) ∧
  options !! "addr1" =
    Some (default (LVal (VStr (macColonHex (randMacBits r1))))
                  (params !! "addr1")) ∧
  options !! "addr2" =
    Some (default (LVal (VStr (macColonHex (randMacBits r2))))
                  (params !! "addr2")) ∧
  (is_Some (options !! "intf") ↔
   is_Some (params !! "intf") ∨ is_Some intfCls) ∧
  (port1 = None → port2 = None → intfCls = None →
   ∀ k, k ≠ "addr1" → k ≠ "addr2" → options !! k = params !! k).
Proof.
  cbv zeta. unfold linkOptions. repeat split.
  - intros k v Hk. do 2 apply setdefault_keeps.
    destruct intfCls; [apply setdefault_keeps|];
      (destruct port2; [apply setdefault_keeps|]);
      (destruct port1; [apply setdefault_keeps|]); done.
  - rewrite !setdefault_lookup. cbn.
    destruct intfCls, port2, port1; by rewrite ?setdefault_lookup.
  - rewrite !setdefault_lookup. cbn.
    destruct intfCls, port2, port1; by rewrite ?setdefault_lookup.
  - rewrite !setdefault_lookup. cbn.
    destruct intfCls as [c|]; rewrite ?setdefault_lookup; cbn.
    + intros _. right. by eexists.
    + destruct port2, port1; rewrite ?setdefault_lookup; cbn; by left.
  - rewrite !setdefault_lookup. cbn.
    destruct intfCls as [c|]; rewrite ?setdefault_lookup; cbn.
    + by intros _.
    + destruct port2, port1; rewrite ?setdefault_lookup; cbn;
        (intros [H|[? [=]]]; exact H).
  - intros -> -> Hi k Hk1 Hk2. rewrite Hi. rewrite !setdefault_lookup.
    rewrite !decide_False by done. done.
Qed.

End LinkOptionFacts.

(** ** Host objects and static ARP *)

Lemma NoDup_list_remove `{EqDecision A} (x : A) (l : list A) :
  NoDup l → NoDup (list_remove x l).
Proof.
  induction 1 as [|y l Hy Hl IH]; cbn; [constructor|].
  destruct (decide (x = y)); [done|].
  constructor; [|done]. intros Hin. apply Hy.
  by apply (list_remove_subseteq x l).
Qed.

Lemma length_bind_const {A B} (f : A → list B) (k : nat) (l : list A) :
  (∀ x, x ∈ l → length (f x) = k) → length (l ≫= f) = (length l * k)%nat.
Proof.
  induction l as [|x l IH]; intros Hk; [done|].
  rewrite bind_cons, length_app, Hk by left.
  rewrite IH by (intros; apply Hk; by right). done.
Qed.

Lemma length_others `{EqDecision A} {B} (g : A → B) (x : A) (l : list A) :
  NoDup l → x ∈ l →
  length (l ≫= λ y, if decide (x ≠ y) then [g y] else []) = (length l - 1)%nat.
Proof.
  assert (Hout : ∀ l' : list A, x ∉ l' →
            length (l' ≫= λ y, if decide (x ≠ y) then [g y] else [])
            = length l').
  { induction l' as [|y l' IH]; intros Hx; [done|].
    rewrite bind_cons, length_app, IH by set_solver.
    rewrite decide_True by set_solver. done. }
  induction 1 as [|y l Hy Hl IH]; intros Hin; [by apply elem_of_nil in Hin|].
  rewrite bind_cons, length_app. cbn [length].
  destruct (decide (x = y)) as [->|Hne].
  - rewrite decide_False by (by intros H). rewrite Hout by done. cbn. lia.
  - rewrite decide_True by done.
    assert (Hin' : x ∈ l) by set_solver.
    rewrite IH by done. cbn.
    destruct l; [by apply elem_of_nil in Hin'|cbn; lia].
Qed.

Section HostObjects.

Variable macColonHex : Z → string.

Lemma step_hosts_NoDup (net : Mininet) (op : Op) :
  hostsAllocated net → NoDup (hosts net) →
  NoDup (hosts (step macColonHex net op)).
Proof.
  intros Halloc Hnd.
  destruct op as [c|name|name cls params|name cls params|]; cbn [step].
  - destruct (addHost_fields macColonHex net (callName c) (callCls c)
                (callParams c))
      as (_ & _ & Hh & _ & _ & _ & _ & _ & Hid & _).
    rewrite Hh. apply NoDup_app. split; [done|]. split; [|apply NoDup_singleton].
    intros h Hin ->%list_elem_of_singleton.
    unfold hostsAllocated in Halloc. rewrite Forall_forall in Halloc.
    specialize (Halloc _ Hin). lia.
  - unfold removeHost.
    destruct (get net _) as [h|]; [|done]. cbn [fst].
    assert (Hh : NoDup (hosts (if decide (h ∈ hosts net)
                               then set_hosts (list_remove h (hosts net)) net
                               else net))).
    { destruct (decide (h ∈ hosts net)); [|done].
      by apply NoDup_list_remove. }
    by destruct name.
  - destruct (addSwitch_fields net name cls params) as (_ & _ & Hh & _).
    by rewrite Hh.
  - destruct (addController_fields net name cls params) as (_ & _ & Hh & _).
    by rewrite Hh.
  - done.
Qed.

Lemma run_hosts_NoDup (ops : list Op) (net : Mininet) :
  hostsAllocated net → NoDup (hosts net) →
  NoDup (hosts (run macColonHex net ops)).
Proof.
  revert net. induction ops as [|op ops IH]; intros net Halloc Hnd; [done|].
  apply IH; [by apply step_hostsAllocated|by apply step_hosts_NoDup].
Qed.

(** X15: [staticArp] gives every host an entry for every other host and
    none for itself.  In a network made by registry operations, where no
    host object is listed twice, it makes exactly one call for each
    ordered pair of distinct hosts: [n * (n - 1)] calls for [n] hosts. *)
Theorem staticArp_all_pairs (c : Config) (lp : option Z) (ops : list Op) :
  let net := run macColonHex (init c lp) ops in
  (∀ a b, SetARP a b ∈ staticArp net ↔
          a ∈ hosts net ∧ b ∈ hosts net ∧ a ≠ b) ∧
  NoDup (staticArp net) ∧
  length (staticArp net) = (length (hosts net) * (length (hosts net) - 1))%nat.
Proof.
  intros net.
  assert (Hnd : NoDup (hosts net)).
  { apply run_hosts_NoDup; [apply init_hostsAllocated|constructor]. }
  unfold staticArp. generalize dependent (hosts net). intros l Hnd.
  assert (Hmem : ∀ a b, SetARP a b ∈
            (l ≫= λ src, l ≫= λ dst,
               if decide (src ≠ dst) then [SetARP src dst] else []) ↔
            a ∈ l ∧ b ∈ l ∧ a ≠ b).
  { intros a b. rewrite list_elem_of_bind. split.
    - intros (src & (dst & Hcall & Hdst)%list_elem_of_bind & Hsrc).
      destruct (decide (src ≠ dst)); [|by apply elem_of_nil in Hcall].
      apply list_elem_of_singleton in Hcall as [= -> ->]. done.
    - intros (Ha & Hb & Hne). exists a. split; [|done].
      apply list_elem_of_bind. exists b. split; [|done].
      rewrite decide_True by done. by left. }
  split; [exact Hmem|]. split.
  - apply NoDup_bind; [| |done].
    + intros x1 x2 y _ _ (d1 & H1 & _)%list_elem_of_bind
        (d2 & H2 & _)%list_elem_of_bind.
      destruct (decide (x1 ≠ d1)); [|by apply elem_of_nil in H1].
      destruct (decide (x2 ≠ d2)); [|by apply elem_of_nil in H2].
      apply list_elem_of_singleton in H1, H2. congruence.
    + intros src _. apply NoDup_bind; [| |done].
      * intros x1 x2 y _ _ H1 H2.
        destruct (decide (src ≠ x1)); [|by apply elem_of_nil in H1].
        destruct (decide (src ≠ x2)); [|by apply elem_of_nil in H2].
        apply list_elem_of_singleton in H1, H2. congruence.
      * intros dst _. destruct (decide (src ≠ dst)); [|constructor].
        apply NoDup_singleton.
  - apply length_bind_const. intros src Hsrc.
    by apply (length_others (SetARP src)).
Qed.

End HostObjects.

(** ** Ping *)

Section PingFacts.

Variable parsed : nat → Node → Node + string → Z * Z.
Variable hasIntfs : Node → bool.

Lemma tally_nothing (node : Node) (st : PingState) :
  tally node 0 0 st = Next st.
Proof.
  destruct st as [p l a cs]. unfold tally. cbn.
  by rewrite !Z.add_0_r.
Qed.

(** What holds before each command and is kept when the loop goes on
    holds at the end; what holds when a command leaves holds when [ping]
    leaves. *)
Lemma pingDests_inv (Inv Bad : PingState → Prop) (timeout : option string)
    (every : list Node) (node : Node) :
  node ∈ every →
  (∀ d st, allowedPing hasIntfs None every node (inl d) → Inv st →
     match pingFrom parsed timeout node (inl d) st with
     | Next st' => Inv st'
     | Exit st' => Bad st'
     end) →
  ∀ dests st, dests ⊆ every → Inv st →
    match pingDests parsed hasIntfs timeout node dests st with
    | Next st' => Inv st'
    | Exit st' => Bad st'
    end.
Proof.
  intros Hnode Hstep. induction dests as [|dest dests IH]; intros st Hsub Hinv;
    [done|].
  cbn [pingDests]. destruct (decide (node ≠ dest)) as [Hne|_].
  - destruct (hasIntfs dest) eqn:Hintfs.
    + specialize (Hstep dest st).
      destruct (pingFrom parsed timeout node (inl dest) st) as [st'|st'].
      * apply IH; [set_solver|]. apply Hstep; [|done].
        split; [done|]. split; [done|]. split; [set_solver|]. by split.
      * apply Hstep; [|done].
        split; [done|]. split; [done|]. split; [set_solver|]. by split.
    + rewrite tally_nothing. apply IH; [set_solver|done].
  - apply IH; [set_solver|done].
Qed.

Lemma pingNodes_inv (Inv Bad : PingState → Prop)
    (timeout manualdestip : option string) (every : list Node) :
  (∀ node d st, allowedPing hasIntfs manualdestip every node d → Inv st →
     match pingFrom parsed timeout node d st with
     | Next st' => Inv st'
     | Exit st' => Bad st'
     end) →
  ∀ nodes st, nodes ⊆ every → Inv st →
    match pingNodes parsed hasIntfs timeout manualdestip every nodes st with
    | Next st' => Inv st'
    | Exit st' => Bad st'
    end.
Proof.
  intros Hstep. induction nodes as [|node nodes IH]; intros st Hsub Hinv;
    [done|].
  cbn [pingNodes].
  assert (Hnode : node ∈ every) by set_solver.
  assert (Hone : match (match manualdestip with
                        | Some ip => pingFrom parsed timeout node (inr ip) st
                        | None => pingDests parsed hasIntfs timeout node every st
                        end) with
                 | Next st' => Inv st'
                 | Exit st' => Bad st'
                 end).
  { destruct manualdestip as [ip|].
    - apply Hstep; [|done]. by split.
    - apply (pingDests_inv Inv Bad timeout every node); [done| |done|done].
      intros d st0 Hallowed. by apply Hstep. }
  destruct (match manualdestip with
            | Some ip => pingFrom parsed timeout node (inr ip) st
            | None => pingDests parsed hasIntfs timeout node every st
            end) as [st'|st']; [|done].
  apply IH; [set_solver|done].
Qed.

Lemma loss_percent (l p : Z) :
  0 ≤ l ≤ p → 0 < p →
  (0 <= Qred (inject_Z 100 * inject_Z l / inject_Z p) <= 100)%Q.
Proof.
  intros Hl Hp. rewrite Qred_correct.
  assert (Hp' : (0 < inject_Z p)%Q).
  { change 0%Q with (inject_Z 0). by rewrite <-Zlt_Qlt. }
  split.
  - apply Qle_shift_div_l; [done|]. rewrite Qmult_0_l, <-inject_Z_mult.
    change 0%Q with (inject_Z 0). rewrite <-Zle_Qle. lia.
  - apply Qle_shift_div_r; [done|].
    change 100%Q with (inject_Z 100). rewrite <-!inject_Z_mult, <-Zle_Qle. lia.
Qed.

(** X16: when every reply reports no more packets received than sent
    (and none negative), [ping] returns a loss between 0 and 100 percent
    and never gives up; it prints no routing table. *)
Theorem ping_loss_in_range (net : Mininet) (hostList : option (list Node))
    (timeout manualdestip : option string) :
  (∀ q n d, 0 ≤ (parsed q n d).2 ≤ (parsed q n d).1) →
  let r := ping parsed hasIntfs net hostList timeout manualdestip in
  (∃ ploss, r.1 = Ok ploss ∧ (0 <= ploss <= 100)%Q) ∧
  ∀ n, PrintRoute n ∉ r.2.
Proof.
  intros Hreply. cbv zeta. unfold ping.
  set (every := pingHosts net hostList).
  set (Inv := λ st : PingState,
         0 ≤ lost st ≤ packets st ∧ ∀ n, PrintRoute n ∉ pingCalls st).
  assert (Hstep : ∀ node d st,
            allowedPing hasIntfs manualdestip every node d → Inv st →
            match pingFrom parsed timeout node d st with
            | Next st' => Inv st'
            | Exit st' => False
            end).
  { intros node d st _ [Hl Hc]. unfold pingFrom.
    specialize (Hreply (asked st) node d).
    destruct (parsed (asked st) node d) as [sent received].
    cbn [fst snd] in Hreply. unfold tally. cbn.
    replace (sent <? received) with false by lia.
    split; cbn; [lia|].
    intros n [Hin|Hin%list_elem_of_singleton]%elem_of_app;
      [by apply (Hc n)|done]. }
  assert (Hstart : Inv (mkPingState 0 0 0 [])).
  { split; cbn; [lia|]. intros n. apply not_elem_of_nil. }
  pose proof (pingNodes_inv Inv (λ _, False) timeout manualdestip every
                Hstep every (mkPingState 0 0 0 []) ltac:(done) Hstart)
    as Hinv.
  destruct (pingNodes parsed hasIntfs timeout manualdestip every every
              (mkPingState 0 0 0 [])) as [st|st]; [|done].
  destruct Hinv as [Hl Hc]. cbn [fst snd]. split; [|done].
  eexists. split; [done|].
  destruct (0 <? packets st) eqn:Hp.
  - apply loss_percent; lia.
  - split; [apply Qle_refl|]. by apply Qle_bool_imp_le.
Qed.

Lemma pingCount_snoc_cmd (cs : list PingCall) (n : Node) (o : string)
    (d : Node + string) :
  pingCount (cs ++ [PingCmd n o d]) = S (pingCount cs).
Proof.
  unfold pingCount. rewrite filter_app, length_app. cbn.
  rewrite decide_True by done. cbn. lia.
Qed.

(** X17: [ping] gives up only right after a reply that reports more
    packets received than sent: its last two commands are then that ping
    and the printing of the routing table of the same node. *)
Theorem ping_exit_after_excess (net : Mininet) (hostList : option (list Node))
    (timeout manualdestip : option string) :
  let r := ping parsed hasIntfs net hostList timeout manualdestip in
  r.1 = Raise "SystemExit" →
  ∃ pre n d,
    r.2 = pre ++ [PingCmd n (pingOpts timeout) d; PrintRoute n] ∧
    allowedPing hasIntfs manualdestip (pingHosts net hostList) n d ∧
    (parsed (pingCount pre) n d).1 < (parsed (pingCount pre) n d).2.
Proof.
  cbv zeta. unfold ping.
  set (every := pingHosts net hostList).
  set (Bad := λ st : PingState, ∃ pre n d,
         pingCalls st = pre ++ [PingCmd n (pingOpts timeout) d; PrintRoute n] ∧
         allowedPing hasIntfs manualdestip every n d ∧
         (parsed (pingCount pre) n d).1 < (parsed (pingCount pre) n d).2).
  assert (Hstep : ∀ node d st,
            allowedPing hasIntfs manualdestip every node d →
            asked st = pingCount (pingCalls st) →
            match pingFrom parsed timeout node d st with
            | Next st' => asked st' = pingCount (pingCalls st')
            | Exit st' => Bad st'
            end).
  { intros node d st Hallowed Ha. unfold pingFrom.
    destruct (parsed (asked st) node d) as [sent received] eqn:Hp.
    unfold tally. cbn [asked pingCalls packets lost].
    destruct (sent <? received) eqn:Hcmp; cbn [asked pingCalls packets lost].
    - exists (pingCalls st), node, d. rewrite <-app_assoc, <-Ha, Hp.
      split; [done|]. split; [done|]. cbn [fst snd]. lia.
    - rewrite pingCount_snoc_cmd. congruence. }
  pose proof (pingNodes_inv (λ st, asked st = pingCount (pingCalls st)) Bad
                timeout manualdestip every Hstep every (mkPingState 0 0 0 [])
                ltac:(done) eq_refl) as Hinv.
  destruct (pingNodes parsed hasIntfs timeout manualdestip every every
              (mkPingState 0 0 0 [])) as [st|st]; [done|].
  intros _. exact Hinv.
Qed.

(** The commands of a [ping] without [manualdestip]. *)
Lemma ping_commands (net : Mininet) (hostList : option (list Node))
    (timeout : option string) (n : Node) (o : string) (d : Node + string) :
  let every := pingHosts net hostList in
  PingCmd n o d ∈ (ping parsed hasIntfs net hostList timeout None).2 →
  o = pingOpts timeout ∧
  ∃ dest, d = inl dest ∧ n ∈ every ∧ dest ∈ every ∧ dest ≠ n ∧
          hasIntfs dest = true.
Proof.
  cbv zeta. unfold ping.
  set (every := pingHosts net hostList).
  set (Inv := λ st : PingState, ∀ n o d, PingCmd n o d ∈ pingCalls st →
         o = pingOpts timeout ∧
         ∃ dest, d = inl dest ∧ n ∈ every ∧ dest ∈ every ∧ dest ≠ n ∧
                 hasIntfs dest = true).
  assert (Hstep : ∀ node d st, allowedPing hasIntfs None every node d →
            Inv st →
            match pingFrom parsed timeout node d st with
            | Next st' => Inv st'
            | Exit st' => Inv st'
            end).
  { intros node d' st [Hnode Hd] Hst. unfold pingFrom.
    destruct (parsed (asked st) node d') as [sent received].
    unfold tally. cbn.
    assert (Hnew : ∀ n o d, PingCmd n o d ∈
              pingCalls st ++ [PingCmd node (pingOpts timeout) d'] →
              o = pingOpts timeout ∧
              ∃ dest, d = inl dest ∧ n ∈ every ∧ dest ∈ every ∧ dest ≠ n ∧
                      hasIntfs dest = true).
    { intros n' o' d'' [Hin|Hin%list_elem_of_singleton]%elem_of_app.
      - by apply (Hst n' o' d'').
      - injection Hin as -> -> ->. split; [done|].
        destruct d' as [dest|ip]; [|done].
        destruct Hd as (_ & Hdest & Hne & Hi). by exists dest. }
    destruct (sent <? received); cbn; intros n' o' d'' Hin.
    - apply elem_of_app in Hin as [Hin|Hin%list_elem_of_singleton];
        [by apply (Hnew n' o' d'')|done].
    - by apply (Hnew n' o' d''). }
  assert (Hstart : Inv (mkPingState 0 0 0 [])).
  { intros n' o' d' Hin. by apply elem_of_nil in Hin. }
  pose proof (pingNodes_inv Inv Inv timeout None every Hstep every
                (mkPingState 0 0 0 []) ltac:(done) Hstart) as Hinv.
  destruct (pingNodes parsed hasIntfs timeout None every every
              (mkPingState 0 0 0 [])) as [st|st]; apply Hinv.
Qed.

(** X18: without [manualdestip], [ping] pings only from a host of its
    list to another host of the list that has interfaces, never a host
    from itself; on a list of fewer than two hosts it runs no command
    and reports no loss. *)
Theorem ping_only_other_hosts (net : Mininet) (hostList : option (list Node))
    (timeout : option string) :
  let r := ping parsed hasIntfs net hostList timeout None in
  let every := pingHosts net hostList in
  (∀ n o d, PingCmd n o d ∈ r.2 →
     ∃ dest, d = inl dest ∧ n ∈ every ∧ dest ∈ every ∧ dest ≠ n ∧
             hasIntfs dest = true) ∧
  ((length every ≤ 1)%nat → r = (Ok 0%Q, [])).
Proof.
  cbv zeta. split.
  - intros n o d Hin. by apply (ping_commands net hostList timeout n o d).
  - unfold ping. set (every := pingHosts net hostList).
    intros Hlen. destruct every as [|h [|h' every]]; [done| |cbn in Hlen; lia].
    cbn. by rewrite decide_False by (by intros H).
Qed.

(** X19: [pingPair] raises [IndexError] in a network with fewer than two
    hosts and runs nothing; otherwise every command it runs is a ping,
    without options, from one of the first two hosts to the other. *)
Theorem pingPair_first_two (net : Mininet) :
  let r := pingPair parsed hasIntfs net in
  match hosts net with
  | h0 :: h1 :: _ =>
      ∀ n o d, PingCmd n o d ∈ r.2 →
        o = EmptyString ∧
        ((n = h0 ∧ d = inl h1) ∨ (n = h1 ∧ d = inl h0))
  | _ => r = (Raise "IndexError", [])
  end.
Proof.
  cbv zeta. unfold pingPair.
  destruct (hosts net) as [|h0 [|h1 rest]]; [done|done|].
  intros n o d Hin.
  apply (ping_commands net (Some [h0; h1]) None n o d) in Hin
    as (-> & dest & -> & Hn & Hd & Hne & _).
  split; [done|]. cbn [pingHosts] in Hn, Hd.
  apply elem_of_cons in Hn as [->|Hn%list_elem_of_singleton];
    apply elem_of_cons in Hd as [->|Hd%list_elem_of_singleton];
    subst; try done; auto.
Qed.

End PingFacts.

Lemma ping_loss_in_range_witness :
  (∀ q n d, 0 ≤ (allAnswer q n d).2 ≤ (allAnswer q n d).1) ∧
  ∃ ploss, (ping allAnswer allIntfs net_2h None None None).1 = Ok ploss ∧
           (0 <= ploss <= 100)%Q.
Proof.
  assert (Hreply : ∀ q n d, 0 ≤ (allAnswer q n d).2 ≤ (allAnswer q n d).1).
  { intros q n d. cbn. lia. }
  split; [exact Hreply|].
  destruct (ping_loss_in_range allAnswer allIntfs net_2h None None None
              Hreply) as [H _].
  exact H.
Defined.

Lemma ping_exit_after_excess_witness :
  (ping tooMany allIntfs net_2h None None None).1 = Raise "SystemExit" ∧
  ∃ pre n d,
    (ping tooMany allIntfs net_2h None None None).2 =
    pre ++ [PingCmd n EmptyString d; PrintRoute n] ∧
    allowedPing allIntfs None (pingHosts net_2h None) n d ∧
    (tooMany (pingCount pre) n d).1 < (tooMany (pingCount pre) n d).2.
Proof.
  assert (Hexit : (ping tooMany allIntfs net_2h None None None).1
                  = Raise "SystemExit") by (vm_compute; reflexivity).
  split; [exact Hexit|].
  exact (ping_exit_after_excess tooMany allIntfs net_2h None None None Hexit).
Defined.

(** ** Changing the status of links *)

Section LinkStatusFacts.

Variable connectionsTo : Node → Node → list (Intf * Intf).
Variable ifconfig : nat → Intf → string → string.

Lemma ifconfigs_app (l1 l2 : list StatusCall) :
  ifconfigs (l1 ++ l2) = ifconfigs l1 ++ ifconfigs l2.
Proof. apply omap_app. Qed.

Lemma setStatus_ifconfigs (q : nat) (connections : list (Intf * Intf))
    (status : string) :
  ifconfigs (setStatus ifconfig q connections status) =
  connections ≫= λ c, [(c.1, status); (c.2, status)].
Proof.
  revert q. induction connections as [|[a b] connections IH]; intros q;
    [done|].
  cbn [setStatus]. rewrite !ifconfigs_app, IH, bind_cons. cbn [fst snd].
  destruct (decide (ifconfig q a status = EmptyString)),
    (decide (ifconfig (S q) b status = EmptyString)); done.
Qed.

(** X20: [configLinkStatus] sets interfaces only when both [src] and
    [dst] are registered names; then it sets both ends of every
    connection between the two nodes, in order, the destination end also
    when the source end failed.  Given a node object, [None] or an
    unknown name it sets nothing and reports just that end, [src] first. *)
Theorem configLinkStatus_ifconfigs (net : Mininet) (src dst : PyArg)
    (status : string) :
  let calls := configLinkStatus connectionsTo ifconfig net src dst status in
  ifconfigs calls =
    match get net src, get net dst with
    | Some s, Some d =>
        connectionsTo s d ≫= λ c, [(c.1, status); (c.2, status)]
    | _, _ => []
    end ∧
  match get net src, get net dst with
  | Some s, Some d => calls = [NotConnected s d] ↔ connectionsTo s d = []
  | Some _, None => calls = [DstNotInNetwork dst]
  | None, _ => calls = [SrcNotInNetwork src]
  end.
Proof.
  cbv zeta. unfold configLinkStatus.
  destruct (get net src) as [s|]; [|done].
  destruct (get net dst) as [d|]; [|done].
  rewrite ifconfigs_app, setStatus_ifconfigs. split.
  - by destruct (decide (length (connectionsTo s d) = 0%nat)).
  - destruct (connectionsTo s d) as [|[a b] cs]; [done|].
    split; [|done]. cbn. intros H. discriminate H.
Qed.

End LinkStatusFacts.

(** ** The control network *)

Lemma land_255 (n : Z) : Z.land n 0xff = n `mod` 256.
Proof. apply (Z.land_ones n 8). lia. Qed.

Lemma increasing_NoDup (l : list Z) : StronglySorted Z.lt l → NoDup l.
Proof.
  induction 1 as [|x l Hs IH Hall]; constructor; [|done].
  intros Hin. rewrite Forall_forall in Hall. specialize (Hall _ Hin). lia.
Qed.

Lemma skipEnds_spec (fuel : nat) (snum : Z) :
  ∃ r, skipEnds (S (S (S fuel))) snum = Some r ∧
       snum ≤ r ≤ snum + 2 ∧ plainOctet r.
Proof.
  unfold plainOctet. cbn [skipEnds]. rewrite !land_255.
  pose proof (Z.mod_pos_bound snum 256 ltac:(lia)) as Hb.
  assert (H1 : (snum + 1) `mod` 256 = (snum `mod` 256 + 1) `mod` 256).
  { by rewrite Zplus_mod_idemp_l. }
  assert (H2 : (snum + 1 + 1) `mod` 256 = (snum `mod` 256 + 2) `mod` 256).
  { rewrite <-Z.add_assoc, <-(Zplus_mod_idemp_l snum). done. }
  destruct (decide (snum `mod` 256 = 0 ∨ snum `mod` 256 = 255)) as [H|H].
  - destruct (decide ((snum + 1) `mod` 256 = 0 ∨ (snum + 1) `mod` 256 = 255))
      as [H'|H'].
    + destruct (decide ((snum + 1 + 1) `mod` 256 = 0
                        ∨ (snum + 1 + 1) `mod` 256 = 255)) as [H''|H''].
      * exfalso. rewrite H1 in H'. rewrite H2 in H''.
        destruct H as [H|H]; rewrite H in H', H''; cbn in H', H'';
          destruct H'; destruct H''; discriminate.
      * exists (snum + 1 + 1). rewrite !land_255. split; [done|].
        split; [lia|]. split; intros ?; apply H''; auto.
    + exists (snum + 1). rewrite !land_255. split; [done|].
      split; [lia|]. split; intros ?; apply H'; auto.
  - exists snum. rewrite !land_255. split; [done|].
    split; [lia|]. split; intros ?; apply H; auto.
Qed.

(** X21: the address loop of [configureRoutedControlNetwork] ends for
    every switch after at most three tests, and gives the switches, in
    order, strictly increasing address numbers above the controller's,
    none with a last octet of 0 or 255 and none more than 3 for each
    switch above the controller's: no two switches share an address and
    none has the controller's. *)
Theorem control_addresses_increase (fuel : nat) (snum : Z) (sws : list Node) :
  ∃ nums,
    controlNums (S (S (S fuel))) snum sws = Some nums ∧
    nums.*1 = sws ∧
    StronglySorted Z.lt (snum :: nums.*2) ∧
    NoDup (snum :: nums.*2) ∧
    Forall plainOctet nums.*2 ∧
    Forall (λ n, n ≤ snum + 3 * Z.of_nat (length sws)) nums.*2.
Proof.
  assert (Hgen : ∀ snum, ∃ nums,
            controlNums (S (S (S fuel))) snum sws = Some nums ∧
            nums.*1 = sws ∧
            StronglySorted Z.lt (snum :: nums.*2) ∧
            Forall plainOctet nums.*2 ∧
            Forall (λ n, n ≤ snum + 3 * Z.of_nat (length sws)) nums.*2).
  { clear snum. induction sws as [|sw sws IH]; intros snum.
    - exists []. cbn. repeat split; repeat constructor.
    - destruct (skipEnds_spec fuel (snum + 1)) as (r & Hr & Hle & Hoct).
      destruct (IH r) as (nums & Hnums & Hsw & Hsorted & Hocts & Hbound).
      exists ((sw, r) :: nums).
      change (controlNums (S (S (S fuel))) snum (sw :: sws))
        with (match skipEnds (S (S (S fuel))) (snum + 1) with
              | None => None
              | Some snum' =>
                  match controlNums (S (S (S fuel))) snum' sws with
                  | None => None
                  | Some nums => Some ((sw, snum') :: nums)
                  end
              end).
      rewrite Hr, Hnums. rewrite !fmap_cons. cbn [fst snd].
      split; [done|]. split; [by rewrite Hsw|].
      apply StronglySorted_inv in Hsorted as [Hs Hall].
      split; [|split].
      + constructor; [by constructor|].
        constructor; [lia|]. eapply Forall_impl; [exact Hall|].
        cbn. intros; lia.
      + by constructor.
      + constructor; [cbn [length]; lia|].
        eapply Forall_impl; [exact Hbound|]. cbn [length]. intros; lia. }
  destruct (Hgen snum) as (nums & Hnums & Hsw & Hsorted & Hocts & Hbound).
  exists nums. repeat split; try done.
  by apply increasing_NoDup.
Qed.

(** ** [Containernet]: removing hosts *)

Lemma dropLease_others (name : string) (leases : list (string * string)) :
  filter (λ l, l.2 ≠ name) (dropLease name leases) =
  filter (λ l, l.2 ≠ name) leases.
Proof.
  induction leases as [|[ip n] leases IH]; [done|]. cbn [dropLease].
  destruct (decide (name = n)) as [->|Hne].
  - by rewrite (filter_cons_False _ (ip, n)) by (cbn; by intros H).
  - by rewrite !filter_cons, IH.
Qed.

Section ContainernetFacts.

Variable isLibvirtHost : ClassId → bool.

(** X22: [Containernet.removeHost] never returns: for a name that is not
    registered it raises [KeyError], and for a registered one it calls
    itself until the recursion limit is hit.  The network is left as it
    was, host included; only leases of that name may be gone.  The same
    holds of [removeDocker]. *)
Theorem Containernet_removeHost_never_returns (depth : nat) (net : Mininet)
    (leases : list (string * string)) (name : PyArg) :
  let r := Containernet.removeHost isLibvirtHost (S depth) net leases name in
  let r' := Containernet.removeDocker isLibvirtHost (S (S depth)) net leases name in
  r.1 = match get net name with
        | None => Raise "KeyError"
        | Some _ => Raise "RuntimeError"
        end ∧
  r' = r ∧
  (∀ s, name = PStr s →
        filter (λ l, l.2 ≠ s) r.2 = filter (λ l, l.2 ≠ s) leases) ∧
  (get net name = None → r.2 = leases).
Proof.
  cbv zeta. split; [|split; [done|split]].
  - revert leases. induction depth as [|depth IH]; intros leases.
    + cbn. by destruct (get net name).
    + specialize (IH (match get net name with
                      | Some h =>
                          match name with
                          | PStr s => if isLibvirtHost (nodeClass h)
                                      then dropLease s leases else leases
                          | _ => leases
                          end
                      | None => leases
                      end)).
      change (Containernet.removeHost isLibvirtHost (S (S depth)) net leases name)
        with (match get net name with
              | None => (Raise "KeyError", leases)
              | Some h =>
                  Containernet.removeHost isLibvirtHost (S depth) net
                    (match name with
                     | PStr s => if isLibvirtHost (nodeClass h)
                                 then dropLease s leases else leases
                     | _ => leases
                     end) name
              end).
      destruct (get net name) as [h|]; [exact IH|done].
  - intros s ->. revert leases.
    induction (S depth) as [|d IH]; intros leases; [done|].
    cbn [Containernet.removeHost]. destruct (get net (PStr s)) as [h|]; [|done].
    rewrite IH. destruct (isLibvirtHost (nodeClass h)); [|done].
    apply dropLease_others.
  - intros Hnone. cbn [Containernet.removeHost]. by rewrite Hnone.
Qed.

End ContainernetFacts.

(** ** Listing the nodes *)

Lemma lookups_registered (net : Mininet) (ns : list Node) :
  (∀ n, n ∈ ns → nameToNode net !! nodeName n = Some n) →
  Access.lookups net (nodeName <$> ns) = Ok ns.
Proof.
  induction ns as [|n ns IH]; intros Hreg; [done|].
  rewrite fmap_cons. cbn [Access.lookups]. unfold Access.getitem at 1.
  rewrite Hreg by left. rewrite IH by (intros; apply Hreg; by right). done.
Qed.

(** X23: when every node of the three sequences is registered under its
    name, [values()] returns the hosts, then the switches, then the
    controllers, [items()] pairs each with its name, and every key is
    contained. *)
Theorem values_lists_nodes (net : Mininet) :
  allRegistered net →
  let every := hosts net ++ switches net ++ controllers net in
  Access.values net = Ok every ∧
  Access.items net = Ok (zip (Access.keys net) every) ∧
  length (Access.keys net) = Access.len net ∧
  ∀ k, k ∈ Access.keys net → Access.contains net k = true.
Proof.
  intros Hreg every.
  assert (Hv : Access.values net = Ok every).
  { unfold Access.values, Access.iter. by apply lookups_registered. }
  split; [exact Hv|]. split; [|split].
  - unfold Access.items. by rewrite Hv.
  - unfold Access.keys, Access.iter, Access.len.
    rewrite length_fmap, !length_app. lia.
  - intros k (n & -> & Hn)%list_elem_of_fmap.
    unfold Access.contains. apply bool_decide_eq_true_2.
    rewrite (Hreg n Hn). by eexists.
Qed.

Lemma values_lists_nodes_witness :
  allRegistered net_2sw ∧ Access.values net_2sw = Ok [s1; s2].
Proof.
  assert (Hreg : allRegistered net_2sw).
  { intros n Hn. vm_compute in Hn.
    apply elem_of_cons in Hn as [->|Hn]; [vm_compute; reflexivity|].
    apply elem_of_cons in Hn as [->|Hn]; [vm_compute; reflexivity|].
    by apply elem_of_nil in Hn. }
  split; [exact Hreg|].
  destruct (values_lists_nodes net_2sw Hreg) as [Hv _]. exact Hv.
Defined.

(** ** Building the network *)

Lemma sameRun_refl (net : Mininet) : sameRun net net.
Proof. done. Qed.

Lemma sameRun_trans (n1 n2 n3 : Mininet) :
  sameRun n1 n2 → sameRun n2 n3 → sameRun n1 n3.
Proof. intros (? & ? & ?) (? & ? & ?). repeat split; congruence. Qed.

Section BuildFacts.

Variable macColonHex : Z → string.
Variable linkCls : ClassId.
Variable intfCls : option ClassId.
Variable isOVSSwitch : ClassId → bool.
Variable defaultControllers : list (ClassId + Node).
Variable draws : nat → Z * Z.
Variable made : nat → Link.
Variable topo : option Topo.
Variable xterms : bool.
Variable autoStaticArp : bool.
Variable hasDefaultIntf : Node → bool.
Variable display : bool.
Variable makeTerms : list Node → string → list Z.

Lemma addHost_sameRun (net : Mininet) (name : string) (cls : option ClassId)
    (params : gmap string PyVal) :
  sameRun net (addHost macColonHex net name cls params).1.
Proof.
  unfold addHost, hostDefaults, sameRun.
  by destruct (autoSetMacs (cfg net)), (autoPinCpus (cfg net)).
Qed.

Lemma addSwitch_sameRun (net : Mininet) (name : string) (cls : option ClassId)
    (params : gmap string PyVal) :
  sameRun net (addSwitch net name cls params).1.
Proof.
  unfold addSwitch, sameRun. cbn.
  by destruct (negb (inNamespace (cfg net)) && truthy (listenPort net)).
Qed.

Lemma addController_sameRun (net : Mininet) (name : string + Node)
    (cls : option ClassId) (params : gmap string PyVal) :
  sameRun net (addController net name cls params).1.
Proof. unfold addController, sameRun. by destruct name. Qed.

Lemma keepsNames_insert (net net' : Mininet) (name : string) (n : Node) :
  nameToNode net' = <[ name := n ]> (nameToNode net) →
  keepsNames net net' ∧ is_Some (nameToNode net' !! name).
Proof.
  intros Hm. split.
  - intros k Hk. rewrite Hm. destruct (decide (name = k)) as [->|Hne].
    + rewrite lookup_insert_eq. by eexists.
    + by rewrite lookup_insert_ne.
  - rewrite Hm, lookup_insert_eq. by eexists.
Qed.

Lemma addControllers_spec (classes : list (ClassId + Node)) (net : Mininet)
    (i : nat) :
  let net' := addControllers net i classes in
  sameRun net net' ∧ keepsNames net net' ∧
  hosts net' = hosts net ∧ switches net' = switches net ∧
  links net' = links net ∧
  length (controllers net') = (length (controllers net) + length classes)%nat.
Proof.
  revert net i. induction classes as [|c classes IH]; intros net i.
  - cbv zeta. cbn [addControllers length]. rewrite Nat.add_0_r.
    split; [apply sameRun_refl|]. split; [by intros k Hk|]. done.
  - assert (Hone : ∀ name cls,
              let net1 := (addController net name cls ∅).1 in
              let net' := addControllers net1 (S i) classes in
              sameRun net net' ∧ keepsNames net net' ∧
              hosts net' = hosts net ∧ switches net' = switches net ∧
              links net' = links net ∧
              length (controllers net') =
              (length (controllers net) + S (length classes))%nat).
    { intros name cls net1 net'.
      destruct (addController_fields net name cls ∅)
        as (_ & _ & Hh & Hs & Hc & Hl & _ & Hm).
      pose proof (addController_sameRun net name cls ∅) as Hrun.
      destruct (IH net1 (S i)) as (IHrun & IHk & IHh & IHs & IHl & IHc).
      fold net1 in Hh, Hs, Hc, Hl, Hm, Hrun. fold net' in IHrun, IHk, IHh, IHs, IHl, IHc.
      assert (Hk : keepsNames net net1).
      { destruct name as [s|c']; destruct Hm as [Hm _];
          by apply keepsNames_insert in Hm as [Hm _]. }
      split; [by eapply sameRun_trans|].
      split; [intros k Hin; by apply IHk, Hk|].
      split; [congruence|]. split; [congruence|]. split; [congruence|].
      rewrite IHc, Hc, length_app. cbn [length]. lia. }
    destruct c as [cls|c]; cbn [addControllers length]; apply Hone.
Qed.

Lemma addHosts_spec (calls : list HostCall) (net : Mininet) :
  let net' := (addHosts macColonHex net calls).1 in
  sameRun net net' ∧ keepsNames net net' ∧
  (∀ k, k ∈ callName <$> calls → is_Some (nameToNode net' !! k)) ∧
  nodeName <$> hosts net' = (nodeName <$> hosts net) ++ (callName <$> calls) ∧
  switches net' = switches net ∧ controllers net' = controllers net ∧
  links net' = links net.
Proof.
  revert net. induction calls as [|c calls IH]; intros net.
  - cbn. rewrite app_nil_r.
    split; [apply sameRun_refl|]. split; [by intros k Hk|]. split; [|done].
    intros k Hk. by apply elem_of_nil in Hk.
  - cbn [addHosts].
    pose proof (addHost_fields macColonHex net (callName c) (callCls c)
                  (callParams c))
      as (_ & _ & Hh & Hm & Hs & Hc & Hl & _ & _ & Hn & _).
    pose proof (addHost_sameRun net (callName c) (callCls c) (callParams c))
      as Hrun.
    destruct (addHost macColonHex net (callName c) (callCls c) (callParams c))
      as [net1 h] eqn:Hadd.
    specialize (IH net1).
    destruct (addHosts macColonHex net1 calls) as [net2 hs] eqn:Hrest.
    cbn [fst snd] in *.
    destruct IH as (IHrun & IHk & IHnew & IHh & IHs & IHc & IHl).
    apply keepsNames_insert in Hm as [Hk Hnew].
    split; [by eapply sameRun_trans|].
    split; [intros k Hin; by apply IHk, Hk|].
    split; [|split; [|split; [congruence|split; congruence]]].
    + rewrite fmap_cons. intros k [->|Hin]%elem_of_cons; [by apply IHk|].
      by apply IHnew.
    + rewrite IHh, Hh, fmap_app, fmap_cons, <-app_assoc. cbn. by rewrite Hn.
Qed.

Lemma addSwitches_spec (calls : list HostCall) (net : Mininet) :
  let net' := (addSwitches net calls).1 in
  sameRun net net' ∧ keepsNames net net' ∧
  (∀ k, k ∈ callName <$> calls → is_Some (nameToNode net' !! k)) ∧
  nodeName <$> switches net' =
    (nodeName <$> switches net) ++ (callName <$> calls) ∧
  hosts net' = hosts net ∧ controllers net' = controllers net ∧
  links net' = links net.
Proof.
  revert net. induction calls as [|c calls IH]; intros net.
  - cbn. rewrite app_nil_r.
    split; [apply sameRun_refl|]. split; [by intros k Hk|]. split; [|done].
    intros k Hk. by apply elem_of_nil in Hk.
  - cbn [addSwitches].
    pose proof (addSwitch_fields net (callName c) (callCls c) (callParams c))
      as (_ & _ & Hh & Hm & Hs & Hc & Hl & _ & _ & Hn).
    pose proof (addSwitch_sameRun net (callName c) (callCls c) (callParams c))
      as Hrun.
    destruct (addSwitch net (callName c) (callCls c) (callParams c))
      as [net1 h] eqn:Hadd.
    specialize (IH net1).
    destruct (addSwitches net1 calls) as [net2 hs] eqn:Hrest.
    cbn [fst snd] in *.
    destruct IH as (IHrun & IHk & IHnew & IHs & IHh & IHc & IHl).
    apply keepsNames_insert in Hm as [Hk Hnew].
    split; [by eapply sameRun_trans|].
    split; [intros k Hin; by apply IHk, Hk|].
    split; [|split; [|split; [congruence|split; congruence]]].
    + rewrite fmap_cons. intros k [->|Hin]%elem_of_cons; [by apply IHk|].
      by apply IHnew.
    + rewrite IHs, Hs, fmap_app, fmap_cons, <-app_assoc. cbn. by rewrite Hn.
Qed.

Lemma addLinks_sameRun (specs : list LinkSpec) (net : Mininet) (i : nat) :
  let r := addLinks macColonHex linkCls intfCls isOVSSwitch draws made
                    net i specs in
  sameRun net r.1.1 ∧ sameRegistry net r.1.1.
Proof.
  revert net i. induction specs as [|s specs IH]; intros net i; [done|].
  cbn [addLinks]. unfold addLink.
  destruct (nodeArg net (inl (specNode1 s))) as [n1|]; [|done].
  destruct (nodeArg net (inl (specNode2 s))) as [n2|]; [|done].
  cbv zeta.
  specialize (IH (set_links (links net ++ [made i]) net) (S i)).
  destruct (addLinks macColonHex linkCls intfCls isOVSSwitch draws made
              (set_links (links net ++ [made i]) net) (S i) specs)
    as [[net'' calls'] out].
  exact IH.
Qed.

Lemma addLinks_registered (specs : list LinkSpec) (net : Mininet) (i : nat) :
  Forall (λ s, is_Some (nameToNode net !! specNode1 s) ∧
               is_Some (nameToNode net !! specNode2 s)) specs →
  let r := addLinks macColonHex linkCls intfCls isOVSSwitch draws made
                    net i specs in
  r.2 = Returned ∧
  links r.1.1 = links net ++ (made <$> seq i (length specs)).
Proof.
  revert net i. induction specs as [|s specs IH]; intros net i Hreg.
  - cbn. by rewrite app_nil_r.
  - apply Forall_cons in Hreg as [[[n1 H1] [n2 H2]] Hreg].
    cbn [addLinks]. unfold addLink, nodeArg, Access.getitem.
    rewrite H1, H2. cbv zeta.
    specialize (IH (set_links (links net ++ [made i]) net) (S i) Hreg).
    destruct (addLinks macColonHex linkCls intfCls isOVSSwitch draws made
                (set_links (links net ++ [made i]) net) (S i) specs)
      as [[net'' calls'] out].
    cbn [fst snd] in IH |- *. destruct IH as [-> ->].
    split; [done|]. cbn [links set_links length seq].
    by rewrite fmap_cons, <-app_assoc.
Qed.

Lemma buildFromTopo_sameRun (net : Mininet) (t : Topo) :
  sameRun net
    (buildFromTopo macColonHex linkCls intfCls isOVSSwitch
                   defaultControllers draws made net t).1.1.
Proof.
  unfold buildFromTopo.
  set (net1 := match controllers net, defaultControllers with
               | [], _ :: _ => addControllers net 0 defaultControllers
               | _, _ => net
               end).
  assert (H1 : sameRun net net1).
  { subst net1. destruct (controllers net), defaultControllers; try done.
    apply addControllers_spec. }
  destruct (addHosts_spec (topoHosts t) net1) as (H2 & _).
  destruct (addSwitches_spec (topoSwitches t)
              (addHosts macColonHex net1 (topoHosts t)).1) as (H3 & _).
  destruct (addLinks_sameRun (topoLinks t)
              (addSwitches (addHosts macColonHex net1 (topoHosts t)).1
                           (topoSwitches t)).1 0) as (H4 & _).
  eauto using sameRun_trans.
Qed.

(** Once the hosts and the switches of a topology are added, the ends
    of its links are registered names. *)
Lemma topoLinks_registered (net1 : Mininet) (t : Topo) :
  linksClosed t →
  let net3 := (addSwitches (addHosts macColonHex net1 (topoHosts t)).1
                           (topoSwitches t)).1 in
  Forall (λ s, is_Some (nameToNode net3 !! specNode1 s) ∧
               is_Some (nameToNode net3 !! specNode2 s)) (topoLinks t).
Proof.
  intros Hclosed net3.
  destruct (addHosts_spec (topoHosts t) net1) as (_ & _ & Hnew2 & _).
  destruct (addSwitches_spec (topoSwitches t)
              (addHosts macColonHex net1 (topoHosts t)).1)
    as (_ & Hk3 & Hnew3 & _).
  eapply Forall_impl; [exact Hclosed|]. unfold topoNames.
  assert (Hname : ∀ k, k ∈ callName <$> (topoHosts t ++ topoSwitches t) →
                       is_Some (nameToNode net3 !! k)).
  { intros k. rewrite fmap_app.
    intros [Hk|Hk]%elem_of_app; [by apply Hk3, Hnew2|by apply Hnew3]. }
  intros s [Ha Hb]. split; by apply Hname.
Qed.

Lemma buildFromTopo_returns (net : Mininet) (t : Topo) :
  linksClosed t →
  (buildFromTopo macColonHex linkCls intfCls isOVSSwitch
                 defaultControllers draws made net t).2 = Returned.
Proof.
  intros Hclosed. unfold buildFromTopo.
  set (net1 := match controllers net, defaultControllers with
               | [], _ :: _ => addControllers net 0 defaultControllers
               | _, _ => net
               end).
  pose proof (topoLinks_registered net1 t Hclosed) as Hreg.
  by destruct (addLinks_registered (topoLinks t) _ 0 Hreg) as [Hret _].
Qed.


Lemma configured_app (l1 l2 : list BuildCall) :
  configured (l1 ++ l2) = configured l1 ++ configured l2.
Proof. apply omap_app. Qed.

Lemma arpCalls_app (l1 l2 : list BuildCall) :
  arpCalls (l1 ++ l2) = arpCalls l1 ++ arpCalls l2.
Proof. apply omap_app. Qed.

Lemma configured_links (l : list LinkCall) : configured (OfLink <$> l) = [].
Proof. induction l as [|x l IH]; [done|]. by rewrite fmap_cons. Qed.

Lemma arpCalls_links (l : list LinkCall) : arpCalls (OfLink <$> l) = [].
Proof. induction l as [|x l IH]; [done|]. by rewrite fmap_cons. Qed.

Lemma configured_arp (l : list ArpCall) : configured (OfArp <$> l) = [].
Proof. induction l as [|x l IH]; [done|]. by rewrite fmap_cons. Qed.

Lemma arpCalls_arp (l : list ArpCall) : arpCalls (OfArp <$> l) = l.
Proof. induction l as [|x l IH]; [done|]. rewrite fmap_cons. cbn. by f_equal. Qed.

Lemma configured_configHosts (net : Mininet) :
  configured (configHosts hasDefaultIntf net) =
  (λ h, (h, negb (hasDefaultIntf h))) <$> hosts net.
Proof.
  unfold configHosts. induction (hosts net) as [|h l IH]; [done|].
  rewrite !fmap_cons. cbn. by f_equal.
Qed.

Lemma arpCalls_configHosts (net : Mininet) :
  arpCalls (configHosts hasDefaultIntf net) = [].
Proof.
  unfold configHosts. induction (hosts net) as [|h l IH]; [done|].
  by rewrite fmap_cons.
Qed.

Lemma startTerms_spec (net : Mininet) :
  let r := startTerms display makeTerms net in
  hosts r.1 = hosts net ∧ cfg r.1 = cfg net ∧
  configured r.2 = [] ∧ arpCalls r.2 = [].
Proof. unfold startTerms. by destruct display. Qed.

(** X25: [build] of a network in a namespace raises before any host is
    configured, and the network is left unbuilt: with the nodes of the
    topology added, when there is one, so that a second [build] adds
    them again. *)
Theorem build_in_namespace_raises (net : Mininet) :
  inNamespace (cfg net) = true →
  let r := build macColonHex linkCls intfCls isOVSSwitch defaultControllers
                 draws made topo xterms autoStaticArp hasDefaultIntf
                 display makeTerms net in
  (∃ e, r.2 = Raised e) ∧ built r.1.1 = built net ∧
  terms r.1.1 = terms net ∧ configured r.1.2 = [] ∧ arpCalls r.1.2 = [] ∧
  match topo with
  | Some t => r.1.1 = (buildFromTopo macColonHex linkCls intfCls isOVSSwitch
                                     defaultControllers draws made net t).1.1
  | None => r.1.1 = net
  end.
Proof.
  intros Hns. cbv zeta. unfold build.
  destruct topo as [t|].
  - pose proof (buildFromTopo_sameRun net t) as (Hc & Hb & Ht).
    destruct (buildFromTopo macColonHex linkCls intfCls isOVSSwitch
                defaultControllers draws made net t) as [[net' calls] out].
    cbn [fst snd] in *.
    destruct out as [|e].
    + rewrite Hc, Hns. cbn [fst snd].
      rewrite configured_links, arpCalls_links. repeat split; try done.
      by eexists.
    + cbn [fst snd]. rewrite configured_links, arpCalls_links.
      repeat split; try done. by eexists.
  - rewrite Hns. cbn. repeat split. by eexists.
Qed.


End BuildFacts.


Lemma build_in_namespace_raises_witness :
  inNamespace (cfg net0_ns) = true ∧
  ∃ e, (build plainMac 0%nat None noOVS [inl 2%nat] noDraws linkNo
              (Some topo_2h_1s) false false allIntfs false noTerms
              net0_ns).2 = Raised e.
Proof.
  assert (Hns : inNamespace (cfg net0_ns) = true) by reflexivity.
  split; [exact Hns|].
  destruct (build_in_namespace_raises plainMac 0%nat None noOVS [inl 2%nat]
              noDraws linkNo (Some topo_2h_1s) false false allIntfs false
              noTerms net0_ns Hns) as [H _].
  exact H.
Defined.

